(** * Artifact extraction and patch application: a shallow embedding

    The TypeScript sources are embedded as Rocq functions.  JavaScript
    strings are modelled as [string]: a character stands for one code
    unit (the code units below 256).  A position returned by [indexOf]
    is an [option nat], [None] standing for JavaScript's [-1].  Objects
    used as dictionaries are [gmap]s, mutable class fields are threaded
    as explicit state, and callbacks are recorded in an event log. *)

From Stdlib Require Import ZArith List Ascii String Bool Lia Arith DecimalString.
From stdpp Require Import gmap strings.
Import ListNotations.
Open Scope string_scope.
Open Scope list_scope.
Open Scope nat_scope.

(** ** JavaScript string primitives used by the sources *)

Module Js.

Definition dquote : ascii := ascii_of_nat 34.
Definition newline : ascii := ascii_of_nat 10.

(** [q s] is [s] between double quotes. *)
Definition q (s : string) : string := String dquote (s +:+ String dquote "").

(** WhiteSpace and LineTerminator code units (those below 256): what
    [trim] strips and what the regular expression class [\s] accepts. *)
Definition isWhiteSpace (c : ascii) : bool :=
  let n := nat_of_ascii c in
  ((9 <=? n) && (n <=? 13)) || (n =? 32) || (n =? 160).

Definition isEmpty (s : string) : bool :=
  match s with "" => true | _ => false end.

(** [s.startsWith(p)] *)
Fixpoint startsWith (s p : string) {struct p} : bool :=
  match p, s with
  | "", _ => true
  | String a p', String b s' => Ascii.eqb a b && startsWith s' p'
  | String _ _, "" => false
  end.

Fixpoint drop (n : nat) (s : string) : string :=
  match n, s with
  | S n', String _ s' => drop n' s'
  | _, _ => s
  end.

Fixpoint take (n : nat) (s : string) : string :=
  match n, s with
  | S n', String c s' => String c (take n' s')
  | _, _ => ""
  end.

(** [s.indexOf(p)]: the first position at which [p] occurs. *)
Fixpoint indexOf0 (s p : string) : option nat :=
  if startsWith s p then Some 0
  else match s with
       | "" => None
       | String _ s' => option_map S (indexOf0 s' p)
       end.

(** [s.indexOf(p, from)]: the first position at or after [from]; a
    [from] beyond the end is clamped to the length. *)
Fixpoint indexOf (s p : string) (from : nat) : option nat :=
  match from, s with
  | S n, String _ s' => option_map S (indexOf s' p n)
  | _, _ => indexOf0 s p
  end.

(** [s.includes(p)] *)
Definition includes (s p : string) : bool :=
  match indexOf0 s p with Some _ => true | None => false end.

(** [s.substring(a, b)]: both ends are clamped to the length and
    swapped when [a > b]. *)
Definition substring (s : string) (a b : nat) : string :=
  take (Nat.max a b - Nat.min a b) (drop (Nat.min a b) s).

(** [s.slice(a)] for a non-negative [a]. *)
Definition slice (s : string) (a : nat) : string := drop a s.

Fixpoint trimStart (s : string) : string :=
  match s with
  | "" => ""
  | String c s' => if isWhiteSpace c then trimStart s' else s
  end.

Fixpoint trimEnd (s : string) : string :=
  match s with
  | "" => ""
  | String c s' =>
      match trimEnd s' with
      | "" => if isWhiteSpace c then "" else String c ""
      | t => String c t
      end
  end.

(** [s.trim()] *)
Definition trim (s : string) : string := trimEnd (trimStart s).

(** [s.split(sep)] for a separator of one character: the list is never
    empty. *)
Fixpoint split (sep : ascii) (s : string) : list string :=
  match s with
  | "" => [""]
  | String c s' =>
      if Ascii.eqb c sep then "" :: split sep s'
      else match split sep s' with
           | h :: t => String c h :: t
           | [] => [String c ""]
           end
  end.

(** The number of occurrences of a character. *)
Fixpoint countChar (a : ascii) (s : string) : nat :=
  match s with
  | "" => 0
  | String c s' => (if Ascii.eqb c a then 1 else 0) + countChar a s'
  end.

(** [s.split("\n")] *)
Definition lines (s : string) : list string := split newline s.

(** [lines.join("\n")] *)
Fixpoint join (sep : string) (l : list string) : string :=
  match l with
  | [] => ""
  | [x] => x
  | x :: t => x +:+ sep +:+ join sep t
  end.

(** GetSubstitution of ECMAScript for a string pattern (no capture
    groups): in the replacement text [$$] stands for a dollar, [$&] for
    the matched text, [$`] for the text before the match and [$'] for
    the text after it; any other character, a lone dollar included,
    stands for itself. *)
Fixpoint getSubstitution (matched before after template : string) : string :=
  match template with
  | "" => ""
  | String c t =>
      if Ascii.eqb c "$" then
        match t with
        | String d t' =>
            if Ascii.eqb d "$" then
              String "$" (getSubstitution matched before after t')
            else if Ascii.eqb d "&" then
              matched +:+ getSubstitution matched before after t'
            else if Ascii.eqb d "`" then
              before +:+ getSubstitution matched before after t'
            else if Ascii.eqb d "'" then
              after +:+ getSubstitution matched before after t'
            else String c (getSubstitution matched before after t)
        | "" => String c ""
        end
      else String c (getSubstitution matched before after t)
  end.

(** [s.replace(pat, repl)] with a string pattern: the first occurrence
    only, the replacement text expanded by [getSubstitution]. *)
Definition replace (s pat repl : string) : string :=
  match indexOf0 s pat with
  | None => s
  | Some pos =>
      let before := take pos s in
      let after := drop (pos + String.length pat) s in
      before +:+ getSubstitution pat before after repl +:+ after
  end.

End Js.

(** ** The patch engine: [src/lib/diff-patch.ts] *)

Module DiffPatch.
Import Js.

(** [src/lib/diff-constants.ts] *)
Definition SEARCH_START : string := "<<<<<<< SEARCH".
Definition DIVIDER : string := "=======".
Definition REPLACE_END : string := ">>>>>>> REPLACE".

Record DiffResult : Type := mkDiffResult {
  modifiedContent : string;
  updatedLines : list (nat * nat);
  hasChanges : bool
}.

(** The local variables of [applyDiffPatches] that live across the
    iterations of its [while] loop: [content] is [modifiedContent],
    [touched] is [updatedLines] and [changed] is [hasChanges] (the
    names of the source are those of the fields of the result).  A
    line range [[start, end]] is a pair. *)
Record LoopState : Type := mkLoopState {
  content : string;
  touched : list (nat * nat);
  position : nat;
  changed : bool
}.

(** The three [indexOf] calls and the two trimmed [substring]s of one
    iteration: the search block, the replace block and the position
    after the end marker.  [None] is [moreBlocks = false]. *)
Definition nextBlock (diffContent : string) (pos : nat)
  : option (string * string * nat) :=
  match indexOf diffContent SEARCH_START pos with
  | None => None
  | Some searchStartIndex =>
      match indexOf diffContent DIVIDER searchStartIndex with
      | None => None
      | Some dividerIndex =>
          match indexOf diffContent REPLACE_END dividerIndex with
          | None => None
          | Some replaceEndIndex =>
              let searchBlock :=
                trim (substring diffContent
                        (searchStartIndex + String.length SEARCH_START)
                        dividerIndex) in
              let replaceBlock :=
                trim (substring diffContent
                        (dividerIndex + String.length DIVIDER)
                        replaceEndIndex) in
              Some (searchBlock, replaceBlock,
                    replaceEndIndex + String.length REPLACE_END)
          end
      end
  end.

(** The [if (searchBlock === "") ... else ...] of the loop body. *)
Definition applyBlock (searchBlock replaceBlock : string) (st : LoopState)
  : LoopState :=
  if isEmpty searchBlock then
    {| content := replaceBlock +:+ String newline (content st);
       touched := touched st ++ [(1, length (lines replaceBlock))];
       position := position st;
       changed := true |}
  else
    match indexOf0 (content st) searchBlock with
    | Some blockPosition =>
        let beforeText := substring (content st) 0 blockPosition in
        let startLineNumber := length (lines beforeText) in
        let replaceLines := length (lines replaceBlock) in
        let endLineNumber := startLineNumber + replaceLines - 1 in
        {| content := replace (content st) searchBlock replaceBlock;
           touched := touched st ++ [(startLineNumber, endLineNumber)];
           position := position st;
           changed := true |}
    | None => st
    end.

(** One iteration of the [while (moreBlocks)] loop; [None] when the
    loop is left. *)
Definition iteration (diffContent : string) (st : LoopState)
  : option LoopState :=
  match nextBlock diffContent (position st) with
  | None => None
  | Some (searchBlock, replaceBlock, pos') =>
      let st' := applyBlock searchBlock replaceBlock st in
      Some {| content := content st'; touched := touched st';
              position := pos'; changed := changed st' |}
  end.

(** The loop, bounded by [fuel] iterations. *)
Fixpoint loop (fuel : nat) (diffContent : string) (st : LoopState)
  : LoopState :=
  match fuel with
  | 0 => st
  | S fuel' =>
      match iteration diffContent st with
      | None => st
      | Some st' => loop fuel' diffContent st'
      end
  end.

Definition initial (originalContent : string) : LoopState :=
  {| content := originalContent; touched := []; position := 0;
     changed := false |}.

Definition result (st : LoopState) : DiffResult :=
  {| modifiedContent := content st; updatedLines := touched st;
     hasChanges := changed st |}.

(** [applyDiffPatches]: every iteration moves [position] forward, so
    one more iteration than the patch text has characters is enough
    (lemma [loop_exits] below). *)
Definition applyDiffPatches (originalContent diffContent : string)
  : DiffResult :=
  result (loop (S (String.length diffContent)) diffContent
            (initial originalContent)).

(** The states the loop goes through, starting from [st0]. *)
Inductive reachable (diffContent : string) (st0 : LoopState)
  : LoopState -> Prop :=
| reach_start : reachable diffContent st0 st0
| reach_next (st st' : LoopState) :
    reachable diffContent st0 st ->
    iteration diffContent st = Some st' ->
    reachable diffContent st0 st'.



(** The loop run from a state on, with the fuel of [applyDiffPatches]. *)
Definition run (diffContent : string) (st : LoopState) : LoopState :=
  loop (S (String.length diffContent)) diffContent st.

(** [hasDiffBlocks] *)
Definition hasDiffBlocks (s : string) : bool :=
  includes s SEARCH_START && includes s DIVIDER && includes s REPLACE_END.

(** [extractDiffBlocks] (lines 91-109): the [for] loop over the lines,
    [inDiffBlock] being the flag, and the lines pushed on [diffLines]. *)
Fixpoint extractLines (inDiffBlock : bool) (ls : list string) : list string :=
  match ls with
  | [] => []
  | line :: rest =>
      if includes line SEARCH_START then line :: extractLines true rest
      else if includes line REPLACE_END then line :: extractLines false rest
      else if inDiffBlock then line :: extractLines true rest
      else extractLines false rest
  end.

Definition extractDiffBlocks (content : string) : string :=
  join (String newline "") (extractLines false (lines content)).

End DiffPatch.

(** ** Regular expressions: the backtracking matcher of ECMAScript

    The sources use regular expressions with greedy and lazy
    quantifiers, alternation, capture groups, anchors and a lookahead.
    Every quantifier in them ranges over a character class, except the
    optional groups, which are alternations with the empty pattern.
    The matcher is written in continuation-passing style, so that a
    failure further right backtracks into the choices made further
    left, in the order ECMAScript tries them. *)

Module Regex.
Import Js.

Record flags : Type := mkFlags { ignoreCase : bool; multiline : bool }.

Definition noFlags : flags := mkFlags false false.
Definition flagI : flags := mkFlags true false.
Definition flagIM : flags := mkFlags true true.

Inductive regex : Type :=
| Eps
| Chr (c : ascii)
| Cls (p : ascii -> bool)
| Cat (r1 r2 : regex)
| Alt (r1 r2 : regex)
| Rep (greedy : bool) (lo : nat) (hi : option nat) (p : ascii -> bool)
| Grp (n : nat) (r : regex)
| Bol
| Eol
| Ahead (r : regex).

(** *** Character tests *)

Definition code (c : ascii) : nat := nat_of_ascii c.
Definition inRange (lo hi : ascii) (c : ascii) : bool :=
  (code lo <=? code c) && (code c <=? code hi).
Definition isLower (c : ascii) : bool := inRange "a" "z" c.
Definition isUpper (c : ascii) : bool := inRange "A" "Z" c.
Definition isDigit (c : ascii) : bool := inRange "0" "9" c.
(** [\w] *)
Definition isWord (c : ascii) : bool :=
  isLower c || isUpper c || isDigit c || Ascii.eqb c "_".
Definition isLineTerminator (c : ascii) : bool := (code c =? 10) || (code c =? 13).
(** [.] *)
Definition dot (c : ascii) : bool := negb (isLineTerminator c).
(** [[\s\S]] *)
Definition anyChar (_ : ascii) : bool := true.
Fixpoint oneOf (set : string) (c : ascii) : bool :=
  match set with
  | "" => false
  | String a set' => Ascii.eqb a c || oneOf set' c
  end.
Definition noneOf (set : string) (c : ascii) : bool := negb (oneOf set c).

Definition toUpper (c : ascii) : ascii :=
  if isLower c then ascii_of_nat (code c - 32) else c.
Definition toLower (c : ascii) : ascii :=
  if isUpper c then ascii_of_nat (code c + 32) else c.

(** A pattern character against an input character.  With the [i]
    flag both are canonicalized (upper-cased); the patterns hold ASCII
    characters only, which no character above 127 canonicalizes to. *)
Definition chrMatch (f : flags) (a c : ascii) : bool :=
  if ignoreCase f then Ascii.eqb (toUpper a) (toUpper c) else Ascii.eqb a c.

(** A class against an input character.  With the [i] flag a class
    accepts a character when it holds one with the same canonical form;
    for the classes of the sources (ranges of ASCII letters and digits,
    [\w], [\s], [.], and negations of sets without letters) that is:
    the character itself or its other case. *)
Definition clsMatch (f : flags) (p : ascii -> bool) (c : ascii) : bool :=
  p c || (ignoreCase f && (p (toUpper c) || p (toLower c))).

(** *** The matcher *)

Definition captures : Type := list (nat * string).

Fixpoint getCapture (n : nat) (cs : captures) : option string :=
  match cs with
  | [] => None
  | (m, s) :: cs' => if n =? m then Some s else getCapture n cs'
  end.

(** What is left to match: the character before the current position
    (for [^]), the rest of the input and the captures so far. *)
Definition cont : Type := option ascii -> string -> captures -> option (string * captures).

Definition atLineStart (f : flags) (prev : option ascii) : bool :=
  match prev with
  | None => true
  | Some c => multiline f && isLineTerminator c
  end.

Definition atLineEnd (f : flags) (s : string) : bool :=
  match s with
  | "" => true
  | String c _ => multiline f && isLineTerminator c
  end.

(** A quantified class [p{lo,hi}], greedy or lazy. *)
Fixpoint rep (f : flags) (greedy : bool) (p : ascii -> bool)
  (lo : nat) (hi : option nat) (prev : option ascii) (s : string)
  (cs : captures) (k : cont) {struct s} : option (string * captures) :=
  match s with
  | "" => if lo =? 0 then k prev s cs else None
  | String c s' =>
      if match hi with Some 0 => false | _ => true end && clsMatch f p c then
        if greedy then
          match rep f greedy p (pred lo) (option_map pred hi) (Some c) s' cs k with
          | Some res => Some res
          | None => if lo =? 0 then k prev s cs else None
          end
        else
          match (if lo =? 0 then k prev s cs else None) with
          | Some res => Some res
          | None => rep f greedy p (pred lo) (option_map pred hi) (Some c) s' cs k
          end
      else if lo =? 0 then k prev s cs else None
  end.

Fixpoint matchRe (f : flags) (r : regex) (prev : option ascii) (s : string)
  (cs : captures) (k : cont) {struct r} : option (string * captures) :=
  match r with
  | Eps => k prev s cs
  | Chr a =>
      match s with
      | String c s' => if chrMatch f a c then k (Some c) s' cs else None
      | "" => None
      end
  | Cls p =>
      match s with
      | String c s' => if clsMatch f p c then k (Some c) s' cs else None
      | "" => None
      end
  | Cat r1 r2 =>
      matchRe f r1 prev s cs (fun prev' s' cs' => matchRe f r2 prev' s' cs' k)
  | Alt r1 r2 =>
      match matchRe f r1 prev s cs k with
      | Some res => Some res
      | None => matchRe f r2 prev s cs k
      end
  | Rep greedy lo hi p => rep f greedy p lo hi prev s cs k
  | Grp n r1 =>
      matchRe f r1 prev s cs
        (fun prev' s' cs' =>
           k prev' s' ((n, take (String.length s - String.length s') s) :: cs'))
  | Bol => if atLineStart f prev then k prev s cs else None
  | Eol => if atLineEnd f s then k prev s cs else None
  | Ahead r1 =>
      match matchRe f r1 prev s cs (fun _ s' cs' => Some (s', cs')) with
      | Some (_, cs') => k prev s cs'
      | None => None
      end
  end.

(** A match in the input: where it starts, its text ([match[0]]) and
    its capture groups. *)
Record Match : Type := mkMatch {
  index : nat;
  matched : string;
  groups : captures
}.

(** [group m n] is [match[n]]; [None] is [undefined]. *)
Definition group (m : Match) (n : nat) : option string := getCapture n (groups m).

(** The pattern tried at the current position only: the length of the
    match and its captures. *)
Definition matchAt (f : flags) (r : regex) (prev : option ascii) (s : string)
  : option (nat * captures) :=
  match matchRe f r prev s [] (fun _ s' cs' => Some (s', cs')) with
  | Some (s', cs') => Some (String.length s - String.length s', cs')
  | None => None
  end.

(** The first match at or after the current position. *)
Fixpoint searchFrom (f : flags) (r : regex) (prev : option ascii) (s : string)
  (idx : nat) {struct s} : option Match :=
  match matchAt f r prev s with
  | Some (len, cs) => Some (mkMatch idx (take len s) cs)
  | None =>
      match s with
      | "" => None
      | String c s' => searchFrom f r (Some c) s' (S idx)
      end
  end.

(** [re.exec(s)] and [s.match(re)] for a pattern without the [g] flag. *)
Definition exec (f : flags) (r : regex) (s : string) : option Match :=
  searchFrom f r None s 0.

(** [re.test(s)] *)
Definition test (f : flags) (r : regex) (s : string) : bool :=
  match exec f r s with Some _ => true | None => false end.

(** The matches that [while ((match = re.exec(s)) !== null)] goes
    through for a pattern with the [g] flag: each search starts where
    the previous match ended ([lastIndex]).  [skip] counts the
    characters still inside the previous match.  The patterns used with
    this loop never match the empty string (an empty match would leave
    [lastIndex] where it is). *)
Fixpoint execAllFrom (f : flags) (r : regex) (prev : option ascii) (s : string)
  (idx skip : nat) {struct s} : list Match :=
  match skip with
  | S skip' =>
      match s with
      | "" => []
      | String c s' => execAllFrom f r (Some c) s' (S idx) skip'
      end
  | 0 =>
      match matchAt f r prev s with
      | Some (len, cs) =>
          mkMatch idx (take len s) cs ::
          match s with
          | "" => []
          | String c s' => execAllFrom f r (Some c) s' (S idx) (pred len)
          end
      | None =>
          match s with
          | "" => []
          | String c s' => execAllFrom f r (Some c) s' (S idx) 0
          end
      end
  end.

Definition execAll (f : flags) (r : regex) (s : string) : list Match :=
  execAllFrom f r None s 0 0.

(** [s.replace(re, '')] for a pattern without the [g] flag: the first
    match is cut out. *)
Definition removeFirst (f : flags) (r : regex) (s : string) : string :=
  match exec f r s with
  | Some m => take (index m) s +:+ drop (index m + String.length (matched m)) s
  | None => s
  end.

(** [s.split(re)] for a pattern without capture groups.  The result
    list starts with the piece being read; [skip] counts the characters
    still inside a separator and [fresh] tells that the piece being
    read is still empty.  An empty match splits only between two
    characters of a piece. *)
Fixpoint splitFrom (f : flags) (r : regex) (prev : option ascii) (s : string)
  (skip : nat) (fresh : bool) {struct s} : list string :=
  match s with
  | "" => [""]
  | String c s' =>
      match skip with
      | S skip' => splitFrom f r (Some c) s' skip' true
      | 0 =>
          let keep (rest : list string) :=
            match rest with
            | h :: t => String c h :: t
            | [] => [String c ""]
            end in
          match matchAt f r prev s with
          | Some (S len, _) => "" :: splitFrom f r (Some c) s' len true
          | Some (0, _) =>
              if fresh then keep (splitFrom f r (Some c) s' 0 false)
              else "" :: keep (splitFrom f r (Some c) s' 0 false)
          | None => keep (splitFrom f r (Some c) s' 0 false)
          end
      end
  end.

Definition splitRe (f : flags) (r : regex) (s : string) : list string :=
  match s with
  | "" => match matchAt f r None "" with Some _ => [] | None => [""] end
  | _ => splitFrom f r None s 0 true
  end.

(** *** Pattern notation *)

Fixpoint lit (s : string) : regex :=
  match s with
  | "" => Eps
  | String c s' => Cat (Chr c) (lit s')
  end.

Fixpoint seq (rs : list regex) : regex :=
  match rs with
  | [] => Eps
  | [r] => r
  | r :: rs' => Cat r (seq rs')
  end.

Fixpoint alt (rs : list regex) : regex :=
  match rs with
  | [] => Eps
  | [r] => r
  | r :: rs' => Alt r (alt rs')
  end.

(** [(?:a|b|c)] over literal words *)
Definition words (ws : list string) : regex := alt (map lit ws).

Definition star (p : ascii -> bool) : regex := Rep true 0 None p.
Definition plus (p : ascii -> bool) : regex := Rep true 1 None p.
Definition lazyStar (p : ascii -> bool) : regex := Rep false 0 None p.
Definition lazyPlus (p : ascii -> bool) : regex := Rep false 1 None p.
(** [r?] *)
Definition opt (r : regex) : regex := Alt r Eps.

(** [consumes r]: by its shape, [r] takes at least one character
    whenever it matches. *)
Fixpoint consumes (r : regex) : bool :=
  match r with
  | Chr _ | Cls _ => true
  | Cat r1 r2 => consumes r1 || consumes r2
  | Alt r1 r2 => consumes r1 && consumes r2
  | Rep _ lo _ _ => 0 <? lo
  | Grp _ r1 => consumes r1
  | Eps | Bol | Eol | Ahead _ => false
  end.

End Regex.

(** ** The streaming tag parser: [src/lib/streaming-parser.ts] *)

Module StreamingParser.
Import Js Regex.

Module Action.
Record t : Type := mk {
  type : string;
  filePath : option string;
  content : string;
  id : string
}.
End Action.

Module Artifact.
Record t : Type := mk {
  id : string;
  title : string;
  actions : list Action.t
}.
End Artifact.

(** The calls of [onActionStream] and [onArtifactComplete], in order. *)
Inductive Event : Type :=
| ActionStream (a : Action.t)
| ArtifactComplete (a : Artifact.t).

(** The per-message entry of [messages]. *)
Record State : Type := mkState {
  position : nat;
  insideArtifact : bool;
  insideAction : bool;
  currentArtifact : option Artifact.t;
  currentAction : option Action.t;
  actionId : nat
}.

Definition initialState : State :=
  mkState 0 false false None None 0.

Definition notChar (a c : ascii) : bool := negb (Ascii.eqb a c).

(** [patterns.artifactOpen] (line 52, flag [g]): the tag name, then
    an [id] and a [title] attribute in this order, each value captured
    up to the next double quote, any characters but [>] around them. *)
Definition artifactOpen : regex :=
  seq [lit "<boltArtifact"; star (notChar ">");
       lit "id="; Chr dquote; Grp 1 (star (notChar dquote)); Chr dquote;
       star (notChar ">");
       lit "title="; Chr dquote; Grp 2 (star (notChar dquote)); Chr dquote;
       star (notChar ">"); Chr ">"].

(** [patterns.artifactClose] (line 53, flag [g]) *)
Definition artifactClose : regex := lit "</boltArtifact>".

(** [patterns.actionOpen] (line 54, flag [g]): the tag name, a [type]
    attribute with its value captured, then an optional [filePath]
    attribute standing right after a greedy run of characters other
    than [>]. *)
Definition actionOpen : regex :=
  seq [lit "<boltAction"; star (notChar ">");
       lit "type="; Chr dquote; Grp 1 (star (notChar dquote)); Chr dquote;
       star (notChar ">");
       opt (seq [lit "filePath="; Chr dquote; Grp 2 (star (notChar dquote));
                 Chr dquote]);
       star (notChar ">"); Chr ">"].

(** [patterns.actionClose] (line 55, flag [g]) *)
Definition actionClose : regex := lit "</boltAction>".

(** A number in a template literal. *)
Definition showNat (n : nat) : string :=
  NilEmpty.string_of_uint (Nat.to_uint n).

Definition orEmpty (o : option string) : string :=
  match o with Some s => s | None => "" end.

(** The body of the first [while]: one match of [artifactOpen]. *)
Definition onArtifactOpen (st : State) (m : Match) : State :=
  mkState (position st) true (insideAction st)
    (Some (Artifact.mk (orEmpty (group m 1)) (orEmpty (group m 2)) []))
    (currentAction st) (actionId st).

(** The body of the second [while]: one match of [actionOpen]. *)
Definition onActionOpen (messageId : string) (st : State) (m : Match) : State :=
  let n := S (actionId st) in
  mkState (position st) (insideArtifact st) true (currentArtifact st)
    (Some (Action.mk (orEmpty (group m 1)) (group m 2) ""
             (messageId +:+ "-" +:+ showNat n)))
    n.

Definition pushAction (art : Artifact.t) (a : Action.t) : Artifact.t :=
  Artifact.mk (Artifact.id art) (Artifact.title art) (Artifact.actions art ++ [a]).

(** The body of the third [while]: one match of [actionClose]. *)
Definition onActionClose (acc : State * list Event) (_ : Match)
  : State * list Event :=
  let (st, log) := acc in
  match insideAction st, currentAction st with
  | true, Some a =>
      (mkState (position st) (insideArtifact st) false
         (option_map (fun art => pushAction art a) (currentArtifact st))
         None (actionId st),
       log ++ [ActionStream a])
  | _, _ => acc
  end.

(** The body of the fourth [while]: one match of [artifactClose]. *)
Definition onArtifactClose (acc : State * list Event) (_ : Match)
  : State * list Event :=
  let (st, log) := acc in
  match insideArtifact st, currentArtifact st with
  | true, Some art =>
      (mkState (position st) false (insideAction st) None
         (currentAction st) (actionId st),
       log ++ [ArtifactComplete art])
  | _, _ => acc
  end.

Definition appendContent (a : Action.t) (text : string) : Action.t :=
  Action.mk (Action.type a) (Action.filePath a) (Action.content a +:+ text)
    (Action.id a).

(** The final [if]: the new text is added to the content of an action
    that is still open. *)
Definition accumulate (newContent : string) (st : State) : State :=
  match insideAction st, currentAction st with
  | true, Some a =>
      let text :=
        match indexOf0 newContent "</boltAction>" with
        | Some nextActionClose => take nextActionClose newContent
        | None => newContent
        end in
      mkState (position st) (insideArtifact st) (insideAction st)
        (currentArtifact st) (Some (appendContent a text)) (actionId st)
  | _, _ => st
  end.

(** [parse] on the state of one message: the new state and the
    callbacks made. *)
Definition parseState (messageId input : string) (st : State)
  : State * list Event :=
  let newContent := slice input (position st) in
  let st0 := mkState (String.length input) (insideArtifact st)
               (insideAction st) (currentArtifact st) (currentAction st)
               (actionId st) in
  let st1 := fold_left onArtifactOpen (execAll noFlags artifactOpen newContent) st0 in
  let st2 := fold_left (onActionOpen messageId)
               (execAll noFlags actionOpen newContent) st1 in
  let (st3, log3) := fold_left onActionClose
               (execAll noFlags actionClose newContent) (st2, []) in
  let (st4, log4) := fold_left onArtifactClose
               (execAll noFlags artifactClose newContent) (st3, log3) in
  (accumulate newContent st4, log4).

(** The parser object: its [messages] map. *)
Abbreviation Parser := (gmap string State).

Definition stateOf (p : Parser) (messageId : string) : State :=
  match p !! messageId with Some st => st | None => initialState end.

(** [parse(messageId, input)] *)
Definition parse (p : Parser) (messageId input : string)
  : Parser * list Event :=
  let (st', log) := parseState messageId input (stateOf p messageId) in
  (<[messageId := st']> p, log).

(** [parse] called once per text of a list, on the same message. *)
Fixpoint parseAll (p : Parser) (messageId : string) (inputs : list string)
  : Parser * list Event :=
  match inputs with
  | [] => (p, [])
  | input :: rest =>
      let (p', log) := parse p messageId input in
      let (p'', log') := parseAll p' messageId rest in
      (p'', log ++ log')
  end.

Definition completedArtifacts (log : list Event) : list Artifact.t :=
  flat_map (fun e => match e with ArtifactComplete a => [a] | _ => [] end) log.

Definition streamedActions (log : list Event) : list Action.t :=
  flat_map (fun e => match e with ActionStream a => [a] | _ => [] end) log.

(** [clear(messageId)] (lines 125-127) *)
Definition clear (p : Parser) (messageId : string) : Parser :=
  delete messageId p.

(** [parse] called for a list of (message, text) pairs in turn, on any
    messages. *)
Fixpoint parseCalls (p : Parser) (calls : list (string * string))
  : Parser * list Event :=
  match calls with
  | [] => (p, [])
  | (messageId, input) :: rest =>
      let (p', log) := parse p messageId input in
      let (p'', log') := parseCalls p' rest in
      (p'', log ++ log')
  end.

End StreamingParser.

(** ** The block classifier: [src/lib/enhanced-message-parser.ts] *)

Module MessageParser.
Import Js Regex.

Record ParsedContent : Type := mkParsedContent {
  type : string;
  content : string;
  filePath : option string;
  language : option string;
  artifactId : option string
}.

(** An element of the arrays built by [detectCodeBlocks] and
    [detectFileOperations]; [match] is spelled [matchText]. *)
Record Block : Type := mkBlock {
  matchText : string;
  blockType : string;
  blockFilePath : string;
  blockLanguage : string;
  blockContent : string
}.

(** *** Character classes of the patterns *)

(** [[\/\w\-\.]] *)
Definition pathChar (c : ascii) : bool := isWord c || oneOf "/-." c.
(** The class of the backquote, the quote and the double quote. *)
Definition quoteChar (c : ascii) : bool :=
  oneOf "`'" c || Ascii.eqb c dquote.
(** [[;&|]] *)
Definition chainChar (c : ascii) : bool := oneOf ";&|" c.
(** [[a-z]], [[a-z0-9-_]] and [[a-z0-9-_./]] (used with the [i] flag) *)
Definition letter (c : ascii) : bool := isLower c.
Definition nameChar (c : ascii) : bool := isLower c || isDigit c || oneOf "-_" c.
Definition namePathChar (c : ascii) : bool :=
  isLower c || isDigit c || oneOf "-_./" c.
Definition isChar (a c : ascii) : bool := Ascii.eqb a c.
Definition notChar (a c : ascii) : bool := negb (Ascii.eqb a c).

(** [\s+], [\s*], [\w+], [\w*] *)
Definition ws1 : regex := plus isWhiteSpace.
Definition ws0 : regex := star isWhiteSpace.
Definition word1 : regex := plus isWord.
Definition word0 : regex := star isWord.
(** [([\/\w\-\.]+\.\w+)] as group [n] *)
Definition pathGroup (n : nat) : regex :=
  Grp n (seq [plus pathChar; Chr "."; word1]).
Definition fence : regex := lit "```".

(** *** [commandPatterns] (lines 16-28) *)

Definition commandPatterns : list (string * regex) :=
  [ ("npm", seq [Bol; Grp 1 (words ["npm"; "yarn"; "pnpm"]); ws1;
                 Grp 2 (words ["install"; "run"; "start"; "build"; "dev";
                               "test"; "init"; "create"; "add"; "remove"])]);
    ("git", seq [Bol; Grp 1 (lit "git"); ws1;
                 Grp 2 (words ["add"; "commit"; "push"; "pull"; "clone";
                               "status"; "checkout"; "branch"; "merge";
                               "rebase"; "init"; "remote"; "fetch"; "log"])]);
    ("docker", seq [Bol; Grp 1 (words ["docker"; "docker-compose"]); ws1]);
    ("build", seq [Bol; Grp 1 (words ["make"; "cmake"; "gradle"; "mvn";
                                      "cargo"; "go"]); ws1]);
    ("network", seq [Bol; Grp 1 (words ["curl"; "wget"; "ping"; "ssh"; "scp";
                                        "rsync"]); ws1]);
    ("webcontainer",
     seq [Bol; Grp 1 (words ["cat"; "chmod"; "cp"; "echo"; "hostname"; "kill";
                             "ln"; "ls"; "mkdir"; "mv"; "ps"; "pwd"; "rm";
                             "rmdir"; "xxd"]); ws0]);
    ("interpreters", seq [Bol; Grp 1 (words ["node"; "python"; "python3";
                                             "java"; "go"; "rust"; "ruby";
                                             "php"; "perl"]); ws1]);
    ("text-processing", seq [Bol; Grp 1 (words ["grep"; "sed"; "awk"; "cut";
                                                "tr"; "sort"; "uniq"; "wc";
                                                "diff"]); ws1]);
    ("archive", seq [Bol; Grp 1 (words ["tar"; "zip"; "unzip"; "gzip";
                                        "gunzip"]); ws1]);
    ("process", seq [Bol; Grp 1 (words ["ps"; "top"; "htop"; "kill";
                                        "killall"; "jobs"; "nohup"]); ws0]);
    ("system", seq [Bol; Grp 1 (words ["df"; "du"; "free"; "uname"; "whoami";
                                       "id"; "groups"; "date"; "uptime"]);
                    ws0]) ].

(** *** [looksLikeScriptContent] (lines 321-347) *)

Definition scriptIndicators : list regex :=
  [ seq [Bol; lit "#!"];
    seq [lit "function"; ws1; word1];
    seq [Bol; word1; ws0; Chr "("; ws0; Chr ")"; ws0; Chr "{"];
    seq [Bol; Grp 1 (words ["if"; "for"; "while"; "case"]); ws1;
         lazyStar dot; Grp 2 (words ["then"; "do"; "in"])];
    seq [Bol; word1; Chr "="; Cls (notChar "="); star dot; Eol];
    seq [Bol; Grp 1 (words ["local"; "declare"; "readonly"]); ws1];
    seq [Bol; Grp 1 (alt [lit "source"; Chr "."]); ws1];
    seq [Bol; Grp 1 (words ["exit"; "return"]); ws1; plus isDigit] ].

Definition looksLikeScriptContent (content : string) : bool :=
  existsb
    (fun line =>
       let trimmedLine := trim line in
       if isEmpty trimmedLine || startsWith trimmedLine "#" then false
       else existsb (fun pattern => test noFlags pattern trimmedLine)
              scriptIndicators)
    (lines (trim content)).

(** *** [isSimpleCommand] (lines 289-319) *)

Definition commandLikePatterns : list regex :=
  [ seq [Bol; Cls letter; star nameChar; Eol];
    seq [Bol; lit "./"; plus namePathChar; Eol];
    seq [Bol; Chr "/"; plus namePathChar; Eol];
    seq [Bol; Cls letter; star nameChar; ws1; Chr "-"; plus dot] ].

Definition isSimpleCommand (line : string) : bool :=
  match splitRe noFlags ws1 line with
  | [] => false
  | firstWord :: _ =>
      if includes line "=" && negb (startsWith line "export ")
         && negb (startsWith line "env ") && negb (includes firstWord "=")
      then false
      else if includes line "function "
              || test noFlags (seq [Bol; word1; ws0; Chr "("; ws0; Chr ")"]) line
      then false
      else if test noFlags
                (seq [Bol; Grp 1 (words ["if"; "for"; "while"; "case";
                                         "function"; "until"; "select"]);
                      Cls isWhiteSpace]) line
      then false
      else existsb (fun pattern => test flagI pattern firstWord)
             commandLikePatterns
  end.

(** *** [isSingleLineCommand] (lines 246-277) *)

Definition chaining : regex := Rep true 1 (Some 2) chainChar.

Definition prefixPatterns : list regex :=
  [ seq [Bol; lit "sudo"; ws1];
    seq [Bol; lit "time"; ws1];
    seq [Bol; lit "nohup"; ws1];
    seq [Bol; lit "watch"; ws1];
    seq [Bol; lit "env"; ws1; word1; Chr "="; word1; ws1] ].

Definition isSingleLineCommand (line : string) : bool :=
  if test noFlags chaining line then
    forallb (fun part => negb (isEmpty part) && negb (looksLikeScriptContent part))
      (map trim (splitRe noFlags chaining line))
  else
    let cleanLine :=
      fold_left (fun l prefix => removeFirst noFlags prefix l) prefixPatterns line in
    if existsb (fun entry => test noFlags (snd entry) cleanLine) commandPatterns
    then true
    else isSimpleCommand cleanLine.

(** *** [isCommandSequence] (lines 279-287) *)

(** The lines kept by the [filter]. *)
Definition commandLike (line : string) : bool :=
  negb (isEmpty line) && negb (startsWith line "#")
  && (isSingleLineCommand line || isSimpleCommand line).

(** [commandLikeLines.length / lines.length > 0.7].  The quotient of two
    array lengths is compared with [0.7] exactly: for lengths below
    2^49 the nearest double of a ratio above 7/10 is above the double
    [0.7], and that of a ratio at most 7/10 is not. *)
Definition isCommandSequence (ls : list string) : bool :=
  7 * length ls <? 10 * length (List.filter commandLike ls).

(** *** [isShellCommand] (lines 214-244) *)

Definition shellLanguages : list string :=
  ["bash"; "sh"; "shell"; "zsh"; "fish"; "powershell"; "ps1"].

(** [language.toLowerCase()], on the letters A to Z: no other
    character is turned into a character of a shell language name. *)
Fixpoint toLowerCase (s : string) : string :=
  match s with
  | "" => ""
  | String c s' => String (toLower c) (toLowerCase s')
  end.

Definition isShellLang (language : string) : bool :=
  existsb (String.eqb (toLowerCase language)) shellLanguages.

(** [content.trim().split('\n').map(line => line.trim()).filter(Boolean)] *)
Definition nonEmptyLines (content : string) : list string :=
  List.filter (fun l => negb (isEmpty l)) (map trim (lines (trim content))).

Definition isShellCommand (content language : string) : bool :=
  if negb (isShellLang language) then false
  else
    let trimmedContent := trim content in
    let ls := nonEmptyLines content in
    match ls with
    | [] => false
    | first :: rest =>
        if looksLikeScriptContent trimmedContent then false
        else match rest with
             | [] => isSingleLineCommand first
             | _ => isCommandSequence ls
             end
    end.

(** *** [isValidFilePath] (lines 349-370) *)

Definition excludePatterns : list regex :=
  [ seq [Bol; opt (Chr "/"); Grp 1 (words ["tmp"; "temp"; "test"; "example"]);
         Chr "/"];
    seq [Chr "."; Grp 1 (words ["tmp"; "temp"; "bak"; "backup"; "old"; "orig"]);
         Eol];
    seq [Bol; opt (Chr "/"); Grp 1 (words ["output"; "result"; "response"]);
         Chr "/"];
    seq [Bol; lit "code_"; plus isDigit; Chr ".";
         Grp 1 (words ["sh"; "bash"; "zsh"]); Eol];
    seq [Bol; Grp 1 (words ["untitled"; "new"; "demo"; "sample"]);
         star isDigit; Chr "."] ].

Definition isValidFilePath (filePath : string) : bool :=
  if isEmpty filePath then false
  else if negb (test noFlags (seq [Chr "."; word1; Eol]) filePath) then false
  else if negb (test noFlags (seq [Bol; plus pathChar; Eol]) filePath) then false
  else negb (existsb (fun pattern => test flagI pattern filePath) excludePatterns).

(** *** [normalizeFilePath] (lines 372-390) *)

(** [s.replace(/[set]/g, '')] and [s.replace(/\\/g, '/')] *)
Fixpoint removeChars (p : ascii -> bool) (s : string) : string :=
  match s with
  | "" => ""
  | String c s' => if p c then removeChars p s' else String c (removeChars p s')
  end.

Fixpoint mapChars (g : ascii -> ascii) (s : string) : string :=
  match s with
  | "" => ""
  | String c s' => String (g c) (mapChars g s')
  end.

Definition backslash : ascii := ascii_of_nat 92.

Definition normalizeFilePath (filePath : string) : string :=
  let p1 := trim (removeChars quoteChar filePath) in
  let p2 := mapChars (fun c => if Ascii.eqb c backslash then "/"%char else c) p1 in
  let p3 := if startsWith p2 "./" then substring p2 2 (String.length p2) else p2 in
  if negb (startsWith p3 "/") && negb (startsWith p3 ".")
  then String "/" p3 else p3.

(** *** [inferFileNameFromContent] (lines 392-426); [now] is the value
    of [Date.now()] *)

Definition componentPattern : regex :=
  seq [alt [lit "function"; lit "class"; lit "const";
            seq [lit "export"; ws1; lit "default"; ws1; lit "function"];
            seq [lit "export"; ws1; lit "function"]];
       ws1; Grp 1 word1].

Definition showNat (n : nat) : string :=
  NilEmpty.string_of_uint (Nat.to_uint n).

Definition orEmpty (o : option string) : string :=
  match o with Some s => s | None => "" end.

Definition inferFileNameFromContent (now : nat) (content language : string)
  : string :=
  match exec noFlags componentPattern content with
  | Some componentMatch =>
      let name := orEmpty (group componentMatch 1) in
      let ext := if String.eqb language "jsx" then ".jsx"
                 else if String.eqb language "tsx" then ".tsx" else ".js" in
      "/components/" +:+ name +:+ ext
  | None =>
      if includes content "function App" || includes content "const App"
      then "/App.jsx"
      else if String.eqb language "json" && includes content (q "name")
      then "/package.json"
      else if String.eqb language "html" && includes content "<html"
      then "/index.html"
      else if String.eqb language "css" && includes content "{"
      then "/styles.css"
      else "/component-" +:+ showNat now +:+ ".jsx"
  end.

(** *** [detectCodeBlocks] (lines 82-147) *)

(** The tail shared by patterns 1, 2 and 4: an optional colon, blanks,
    newlines, the fence with its language as group [l], a newline, the
    lazily matched content as group [c], the closing fence. *)
Definition fencedTail (l c : nat) : regex :=
  seq [opt (Chr ":"); ws0; plus (isChar newline); fence; Grp l word0;
       Chr newline; Grp c (lazyStar anyChar); fence].

(** Pattern 1 (line 86, flags [gim]) *)
Definition filePathPattern : regex :=
  seq [alt [Bol; Chr newline]; pathGroup 1; fencedTail 2 3].

(** Pattern 2 (line 91, flags [gi]) *)
Definition explicitCreatePattern : regex :=
  seq [alt [lit "create"; lit "update"; lit "modify"; lit "edit"; lit "write";
            lit "add"; lit "generate";
            seq [lit "here"; opt (Chr "'"); opt (Chr "s")];
            seq [lit "file"; opt (Chr ":")]];
       ws1;
       opt (seq [Chr "a"; ws1]); opt (seq [lit "new"; ws1]);
       opt (seq [lit "file"; ws1]); opt (seq [lit "called"; ws1]);
       star quoteChar; pathGroup 1; star quoteChar; fencedTail 2 3].

(** Pattern 3 (line 96, flags [gi]) *)
Definition commentFilenamePattern : regex :=
  seq [fence; Grp 1 word0; Chr newline;
       alt [lit "//"; Chr "#"; lit "<!--"]; ws0;
       alt [seq [lit "file"; opt (Chr ":")]; seq [lit "filename"; opt (Chr ":")]];
       ws0; pathGroup 2; lazyStar dot; Chr newline;
       Grp 3 (lazyStar anyChar); fence].

(** Pattern 4 (line 101, flags [gi]) *)
Definition inFilenamePattern : regex :=
  seq [alt [lit "in"; lit "for"; lit "update"]; ws1;
       star quoteChar; pathGroup 1; star quoteChar; fencedTail 2 3].

(** Pattern 5 (line 106, flags [gi]) *)
Definition structuredFilePattern : regex :=
  seq [fence;
       alt [lit "json"; seq [lit "js"; opt (Chr "x")];
            seq [lit "ts"; opt (Chr "x")]; seq [lit "htm"; opt (Chr "l")];
            lit "vue"; lit "svelte"];
       Chr newline;
       Grp 1 (alt [seq [Chr "{"; lazyStar anyChar; Chr dquote;
                        words ["name"; "version"; "scripts"; "dependencies";
                               "devDependencies"];
                        Chr dquote; lazyStar anyChar; Chr "}"];
                   seq [Chr "<"; word1; star (notChar ">"); Chr ">";
                        lazyStar anyChar; lit "</"; word1; Chr ">";
                        lazyStar anyChar]]);
       fence].

Inductive PatternType : Type :=
| file_path | explicit_create | comment_filename | in_filename | structured_file.

Definition patternTypeName (t : PatternType) : string :=
  match t with
  | file_path => "file_path"
  | explicit_create => "explicit_create"
  | comment_filename => "comment_filename"
  | in_filename => "in_filename"
  | structured_file => "structured_file"
  end.

Definition patterns : list (flags * regex * PatternType) :=
  [ (flagIM, filePathPattern, file_path);
    (flagI, explicitCreatePattern, explicit_create);
    (flagI, commentFilenamePattern, comment_filename);
    (flagI, inFilenamePattern, in_filename);
    (flagI, structuredFilePattern, structured_file) ].

(** The body of the inner [while]: the block of one match.  The source
    of pattern 5 holds the text [json], so its language is always
    [json]. *)
Definition blockOfMatch (now : nat) (t : PatternType) (m : Match) : Block :=
  let g n := orEmpty (group m n) in
  let '(filePath, language, content) :=
    match t with
    | comment_filename => (g 2, g 1, g 3)
    | structured_file => (inferFileNameFromContent now (g 1) "json", "json", g 1)
    | _ => (g 1, g 2, g 3)
    end in
  mkBlock (matched m) (patternTypeName t) (normalizeFilePath filePath)
    language content.

Definition detectCodeBlocks (now : nat) (input : string) : list Block :=
  flat_map
    (fun pattern =>
       let '(f, r, t) := pattern in
       map (blockOfMatch now t) (execAll f r input))
    patterns.

(** *** [detectFileOperations] (lines 149-168) *)

Definition fileOperationPattern : regex :=
  seq [words ["create"; "write"; "save"; "generate"]; ws1;
       opt (seq [Chr "a"; ws1]); opt (seq [lit "new"; ws1]);
       lit "file"; ws1; opt (seq [lit "at"; ws1]);
       star quoteChar; pathGroup 1; star quoteChar; ws1;
       lit "with"; ws1; opt (seq [lit "the"; ws1]);
       opt (seq [lit "following"; ws1]); lit "content"; opt (Chr ":");
       ws0; Chr newline; Grp 2 (lazyPlus anyChar);
       Ahead (alt [seq [Chr newline; Chr newline];
                   seq [Chr newline;
                        words ["create"; "write"; "save"; "generate"; "now";
                               "next"; "then"; "finally"]];
                   Eol])].

Record Operation : Type := mkOperation {
  opMatch : string;
  opFilePath : string;
  opContent : string
}.

Definition detectFileOperations (input : string) : list Operation :=
  map (fun m => mkOperation (matched m)
                  (normalizeFilePath (orEmpty (group m 1)))
                  (trim (orEmpty (group m 2))))
    (execAll flagI fileOperationPattern input).

(** *** [hashBlock] (lines 428-436) *)

(** ToInt32: the result of the bitwise operators. *)
Definition toInt32 (z : Z) : Z := ((z + 2 ^ 31) mod 2 ^ 32 - 2 ^ 31)%Z.

(** One turn of the loop: [hash = (hash << 5) - hash + char; hash = hash & hash]. *)
Definition hashStep (hash : Z) (c : ascii) : Z :=
  toInt32 (toInt32 (hash * 32) - hash + Z.of_nat (nat_of_ascii c))%Z.

Fixpoint hashLoop (s : string) (hash : Z) : Z :=
  match s with
  | "" => hash
  | String c s' => hashLoop s' (hashStep hash c)
  end.

Definition digit36 (d : Z) : ascii :=
  if (d <? 10)%Z then ascii_of_nat (48 + Z.to_nat d)
  else ascii_of_nat (87 + Z.to_nat d).

(** The digits of a non-negative number in base 36, most significant
    first; a number has no more digits in base 36 than in base 2. *)
Fixpoint toBase36 (fuel : nat) (n : Z) (acc : string) : string :=
  match fuel with
  | 0 => acc
  | S fuel' =>
      let acc' := String (digit36 (n mod 36)) acc in
      if (n / 36 =? 0)%Z then acc' else toBase36 fuel' (n / 36)%Z acc'
  end.

(** [n.toString(36)] for an integer *)
Definition toString36 (z : Z) : string :=
  let n := Z.abs z in
  let digits := toBase36 (S (Z.to_nat (Z.log2 n))) n "" in
  if (z <? 0)%Z then String "-" digits else digits.

Definition hashBlock (content : string) : string :=
  toString36 (hashLoop content 0%Z).

(** *** The parser object: [processedBlocks] and [artifactCounter] *)

Record Parser : Type := mkParser {
  processedBlocks : gmap string (gset string);
  artifactCounter : nat
}.

Definition newParser : Parser := mkParser ∅ 0.

(** [classifyBlock] (lines 170-196): the result and the counter after
    it. *)
Definition classifyBlock (block : Block) (messageId : string) (counter : nat)
  : option ParsedContent * nat :=
  if isShellCommand (blockContent block) (blockLanguage block) then
    (Some (mkParsedContent "command" (trim (blockContent block)) None None
             (Some ("command-" +:+ messageId +:+ "-" +:+ showNat counter))),
     S counter)
  else if isValidFilePath (blockFilePath block) then
    (Some (mkParsedContent "file" (blockContent block)
             (Some (blockFilePath block)) (Some (blockLanguage block))
             (Some ("file-" +:+ messageId +:+ "-" +:+ showNat counter))),
     S counter)
  else (None, counter).

(** [parseFileOperation] (lines 198-212) *)
Definition parseFileOperation (operation : Operation) (messageId : string)
  (counter : nat) : option ParsedContent * nat :=
  if isValidFilePath (opFilePath operation) then
    (Some (mkParsedContent "file" (opContent operation)
             (Some (opFilePath operation)) None
             (Some ("file-" +:+ messageId +:+ "-" +:+ showNat counter))),
     S counter)
  else (None, counter).

(** The state of one call of [parse]: the set [processed] of the
    message, the counter, and [results], each result paired with the
    matched text it was made from. *)
Record Run : Type := mkRun {
  processed : gset string;
  counter : nat;
  results : list (string * ParsedContent)
}.

(** The body shared by the two [for] loops of [parse]: a candidate
    with matched text [m] is dropped when the hash of [m] is in
    [processed]; otherwise the hash is added and the candidate is
    classified by [classify]. *)
Definition visit (m : string) (classify : nat -> option ParsedContent * nat)
  (run : Run) : Run :=
  let blockHash := hashBlock m in
  if decide (blockHash ∈ processed run) then run
  else
    let (parsed, counter') := classify (counter run) in
    mkRun ({[blockHash]} ∪ processed run) counter'
      (match parsed with
       | Some p => results run ++ [(m, p)]
       | None => results run
       end).

Definition visitBlock (messageId : string) (run : Run) (block : Block) : Run :=
  visit (matchText block) (classifyBlock block messageId) run.

Definition visitOperation (messageId : string) (run : Run) (operation : Operation)
  : Run :=
  visit (opMatch operation) (parseFileOperation operation messageId) run.

Definition processedOf (p : Parser) (messageId : string) : gset string :=
  match processedBlocks p !! messageId with
  | Some set => set
  | None => ∅
  end.

(** [parse(messageId, input)], each result with the matched text it
    comes from. *)
Definition parseTraced (now : nat) (p : Parser) (messageId input : string)
  : Parser * list (string * ParsedContent) :=
  let run0 := mkRun (processedOf p messageId) (artifactCounter p) [] in
  let run1 := fold_left (visitBlock messageId) (detectCodeBlocks now input) run0 in
  let run2 := fold_left (visitOperation messageId) (detectFileOperations input) run1 in
  (mkParser (<[messageId := processed run2]> (processedBlocks p)) (counter run2),
   results run2).

(** [parse(messageId, input)] *)
Definition parse (now : nat) (p : Parser) (messageId input : string)
  : Parser * list ParsedContent :=
  let (p', traced) := parseTraced now p messageId input in
  (p', map snd traced).

(** A call of [parse]: the clock, the message and the text. *)
Record Call : Type := mkCall {
  callNow : nat;
  callMessageId : string;
  callInput : string
}.

(** The parser after a list of calls, their results dropped. *)
Definition parseMany (p : Parser) (calls : list Call) : Parser :=
  fold_left
    (fun p' c => fst (parseTraced (callNow c) p' (callMessageId c) (callInput c)))
    calls p.

(** [reset()] (lines 438-441) *)
Definition reset (_ : Parser) : Parser := mkParser ∅ 0.

End MessageParser.

(** ** The lock manager: the [files] map of the file store
    ([src/unnamed/part_002]) *)

Module FileStore.
Import Js.

(** [isLocked?: boolean] and [lockedByFolder?: string]: a missing field
    and one set to [undefined] are both [None]. *)
Module File.
Record t : Type := mk {
  content : string;
  isBinary : bool;
  isLocked : option bool;
  lockedByFolder : option string
}.
End File.

Module Folder.
Record t : Type := mk {
  isLocked : option bool;
  lockedByFolder : option string
}.
End Folder.

(** [Dirent]: the [type] field is the constructor. *)
Inductive Dirent : Type :=
| DFile (f : File.t)
| DFolder (d : Folder.t).

(** [FileMap = Record<string, Dirent | undefined>]: a path bound to
    [undefined] is treated by every function below as a path that is
    not bound. *)
Abbreviation FileMap := (gmap string Dirent).

(** [createFile] and [createFolder], on the [files] map *)
Definition createFile (filePath content : string) (files : FileMap) : FileMap :=
  <[filePath := DFile (File.mk content false (Some false) None)]> files.

Definition createFolder (folderPath : string) (files : FileMap) : FileMap :=
  <[folderPath := DFolder (Folder.mk (Some false) None)]> files.

(** [lockFile] (lines 243-263) *)
Definition lockFile (filePath : string) (files : FileMap) : bool * FileMap :=
  match files !! filePath with
  | Some (DFile file) =>
      (true,
       <[filePath := DFile (File.mk (File.content file) (File.isBinary file)
                              (Some true) (File.lockedByFolder file))]> files)
  | _ => (false, files)
  end.

(** [unlockFile] (lines 265-286) *)
Definition unlockFile (filePath : string) (files : FileMap) : bool * FileMap :=
  match files !! filePath with
  | Some (DFile file) =>
      (true,
       <[filePath := DFile (File.mk (File.content file) (File.isBinary file)
                              (Some false) None)]> files)
  | _ => (false, files)
  end.

(** The body of the [forEach] of [lockFolder]: the entry at [path]
    after it. *)
Definition lockUnder (folderPath path : string) (entry : Dirent) : Dirent :=
  match entry with
  | DFile file =>
      if startsWith path (folderPath +:+ "/") then
        DFile (File.mk (File.content file) (File.isBinary file)
                 (Some true) (Some folderPath))
      else entry
  | DFolder _ => entry
  end.

(** [lockFolder] (lines 288-319) *)
Definition lockFolder (folderPath : string) (files : FileMap) : bool * FileMap :=
  match files !! folderPath with
  | Some (DFolder folder) =>
      let updatedFiles :=
        <[folderPath := DFolder (Folder.mk (Some true)
                                   (Folder.lockedByFolder folder))]> files in
      (true, map_imap (fun path entry => Some (lockUnder folderPath path entry))
               updatedFiles)
  | _ => (false, files)
  end.

(** The body of the [forEach] of [unlockFolder]. *)
Definition unlockUnder (folderPath path : string) (entry : Dirent) : Dirent :=
  match entry with
  | DFile file =>
      if startsWith path (folderPath +:+ "/") then
        if decide (File.lockedByFolder file = Some folderPath) then
          DFile (File.mk (File.content file) (File.isBinary file)
                   (Some false) None)
        else entry
      else entry
  | DFolder _ => entry
  end.

(** [unlockFolder] (lines 321-355) *)
Definition unlockFolder (folderPath : string) (files : FileMap)
  : bool * FileMap :=
  match files !! folderPath with
  | Some (DFolder folder) =>
      let updatedFiles :=
        <[folderPath := DFolder (Folder.mk (Some false)
                                   (Folder.lockedByFolder folder))]> files in
      (true, map_imap (fun path entry => Some (unlockUnder folderPath path entry))
               updatedFiles)
  | _ => (false, files)
  end.

(** [isFileLocked] (lines 357-373): [locked] and [lockedBy] *)
Definition isFileLocked (filePath : string) (files : FileMap)
  : bool * option string :=
  match files !! filePath with
  | Some (DFile file) =>
      match File.isLocked file with
      | Some true =>
          (true,
           Some (match File.lockedByFolder file with
                 | Some folder => if isEmpty folder then filePath else folder
                 | None => filePath
                 end))
      | _ => (false, None)
      end
  | _ => (false, None)
  end.

(** [isFolderLocked] (lines 375-391): [isLocked] and [lockedBy] *)
Definition isFolderLocked (folderPath : string) (files : FileMap)
  : bool * option string :=
  match files !! folderPath with
  | Some (DFolder folder) =>
      match Folder.isLocked folder with
      | Some true => (true, Some folderPath)
      | _ => (false, None)
      end
  | _ => (false, None)
  end.

(** [f?.type === 'file'] *)
Definition isFile (entry : Dirent) : bool :=
  match entry with DFile _ => true | DFolder _ => false end.

(** [Object.values(files).filter(f => f?.type === 'file').length] *)
Definition countFiles (files : FileMap) : nat :=
  size (filter (fun kv => isFile kv.2 = true) files).

(** The test of the loop of [deleteFolder] (line 177). *)
Definition under (folderPath path : string) : bool :=
  String.eqb path folderPath || startsWith path (folderPath +:+ "/").

(** The tests of the loop of [cleanupDeletedFiles] (lines 408-419): the
    path is a deleted path, or starts with a deleted path and a
    slash. *)
Definition doomed (deletedPaths : gset string) (path : string) : bool :=
  bool_decide (path ∈ deletedPaths)
  || existsb (fun p => startsWith path (p +:+ "/")) (elements deletedPaths).

(** *** The whole store: [files], [filesCount], [modifiedFiles] and
    [deletedPaths].  [filesCount] is a number that the code adds to and
    subtracts from; the [Map] and the [Set] are used through [has],
    [set], [delete] and [add], and read into objects, so their order
    plays no part.  [setFiles] is given a map that binds no path to
    [undefined]. *)
Module Store.

Record t : Type := mk {
  files : FileMap;
  filesCount : Z;
  modifiedFiles : gmap string string;
  deletedPaths : gset string
}.

(** The state the store is created with (lines 56-59), which [reset]
    (lines 445-453) sets again. *)
Definition initial : t := mk ∅ 0 ∅ ∅.

Definition reset (_ : t) : t := initial.

(** [setFiles] (lines 61-65) *)
Definition setFiles (newFiles : FileMap) (s : t) : t :=
  mk newFiles (Z.of_nat (countFiles newFiles)) (modifiedFiles s) (deletedPaths s).

(** [updateFile] (lines 67-91) *)
Definition updateFile (filePath content : string) (s : t) : t :=
  match files s !! filePath with
  | Some (DFile currentFile) =>
      let modified :=
        match modifiedFiles s !! filePath with
        | Some _ => modifiedFiles s
        | None => <[filePath := File.content currentFile]> (modifiedFiles s)
        end in
      mk (<[filePath := DFile (File.mk content (File.isBinary currentFile)
                                 (File.isLocked currentFile)
                                 (File.lockedByFolder currentFile))]> (files s))
        (filesCount s) modified (deletedPaths s)
  | _ => s
  end.

(** [createFile] (lines 93-116) *)
Definition createFile (filePath content : string) (s : t) : t :=
  mk (FileStore.createFile filePath content (files s)) (filesCount s + 1)
    (<[filePath := ""]> (modifiedFiles s)) (deletedPaths s).

(** [deleteFile] (lines 118-143) *)
Definition deleteFile (filePath : string) (s : t) : t :=
  match files s !! filePath with
  | Some (DFile _) =>
      mk (delete filePath (files s)) (filesCount s - 1)
        (delete filePath (modifiedFiles s)) ({[filePath]} ∪ deletedPaths s)
  | _ => s
  end.

(** [createFolder] (lines 145-159) *)
Definition createFolder (folderPath : string) (s : t) : t :=
  mk (FileStore.createFolder folderPath (files s)) (filesCount s)
    (modifiedFiles s) (deletedPaths s).

(** [deleteFolder] (lines 161-193): [gone] holds the entries that the
    loop deletes, [goneFiles] the files among them. *)
Definition deleteFolder (folderPath : string) (s : t) : t :=
  match files s !! folderPath with
  | Some (DFolder _) =>
      let gone := filter (fun kv => under folderPath kv.1 = true) (files s) in
      let goneFiles := filter (fun kv => isFile kv.2 = true) gone in
      mk (filter (fun kv => under folderPath kv.1 = false) (files s))
        (filesCount s - Z.of_nat (size goneFiles))
        (filter (fun kv => kv.1 ∉ dom goneFiles) (modifiedFiles s))
        (dom gone ∪ deletedPaths s)
  | _ => s
  end.

(** [getFile] and [getFileOrFolder] (lines 196-205) *)
Definition getFile (filePath : string) (s : t) : option File.t :=
  match files s !! filePath with
  | Some (DFile file) => Some file
  | _ => None
  end.

Definition getFileOrFolder (filePath : string) (s : t) : option Dirent :=
  files s !! filePath.

(** [getFileModifications] (lines 207-222): [original] and [current] *)
Definition getFileModifications (s : t) : gmap string (string * string) :=
  map_imap
    (fun filePath originalContent =>
       match files s !! filePath with
       | Some (DFile file) =>
           if String.eqb (File.content file) originalContent then None
           else Some (originalContent, File.content file)
       | _ => None
       end)
    (modifiedFiles s).

(** [getModifiedFiles] (lines 224-236) *)
Definition getModifiedFiles (s : t) : FileMap :=
  map_imap
    (fun filePath originalContent =>
       match files s !! filePath with
       | Some (DFile file) =>
           if String.eqb (File.content file) originalContent then None
           else Some (DFile file)
       | _ => None
       end)
    (modifiedFiles s).

(** [resetFileModifications] (lines 238-241) *)
Definition resetFileModifications (s : t) : t :=
  mk (files s) (filesCount s) ∅ (deletedPaths s).

(** The four lock functions set [files] and nothing else. *)
Definition onFiles (f : FileMap -> bool * FileMap) (s : t) : bool * t :=
  let (ok, updatedFiles) := f (files s) in
  (ok, mk updatedFiles (filesCount s) (modifiedFiles s) (deletedPaths s)).

Definition lockFile (filePath : string) : t -> bool * t :=
  onFiles (FileStore.lockFile filePath).
Definition unlockFile (filePath : string) : t -> bool * t :=
  onFiles (FileStore.unlockFile filePath).
Definition lockFolder (folderPath : string) : t -> bool * t :=
  onFiles (FileStore.lockFolder folderPath).
Definition unlockFolder (folderPath : string) : t -> bool * t :=
  onFiles (FileStore.unlockFolder folderPath).

(** [cleanupDeletedFiles] (lines 393-443): [pathsToDelete] with the
    entries at its paths, [filesDeleted] the files among them. *)
Definition cleanupDeletedFiles (s : t) : t :=
  if bool_decide (deletedPaths s = ∅) then s
  else
    let pathsToDelete :=
      filter (fun kv => doomed (deletedPaths s) kv.1 = true) (files s) in
    if bool_decide (pathsToDelete = ∅) then s
    else
      let filesDeleted := filter (fun kv => isFile kv.2 = true) pathsToDelete in
      mk (filter (fun kv => doomed (deletedPaths s) kv.1 = false) (files s))
        (filesCount s - Z.of_nat (size filesDeleted))
        (filter (fun kv => kv.1 ∉ dom filesDeleted) (modifiedFiles s))
        (deletedPaths s).

(** The calls that change the store. *)
Inductive Op : Type :=
| SetFiles (newFiles : FileMap)
| UpdateFile (filePath content : string)
| CreateFile (filePath content : string)
| DeleteFile (filePath : string)
| CreateFolder (folderPath : string)
| DeleteFolder (folderPath : string)
| ResetFileModifications
| LockFile (filePath : string)
| UnlockFile (filePath : string)
| LockFolder (folderPath : string)
| UnlockFolder (folderPath : string)
| CleanupDeletedFiles
| Reset.

Definition step (s : t) (op : Op) : t :=
  match op with
  | SetFiles newFiles => setFiles newFiles s
  | UpdateFile filePath content => updateFile filePath content s
  | CreateFile filePath content => createFile filePath content s
  | DeleteFile filePath => deleteFile filePath s
  | CreateFolder folderPath => createFolder folderPath s
  | DeleteFolder folderPath => deleteFolder folderPath s
  | ResetFileModifications => resetFileModifications s
  | LockFile filePath => snd (lockFile filePath s)
  | UnlockFile filePath => snd (unlockFile filePath s)
  | LockFolder folderPath => snd (lockFolder folderPath s)
  | UnlockFolder folderPath => snd (unlockFolder folderPath s)
  | CleanupDeletedFiles => cleanupDeletedFiles s
  | Reset => reset s
  end.

End Store.

End FileStore.

(** ** The command scheduler: [CommandQueue] ([src/unnamed/part_003]) *)

Module CommandQueue.

Inductive CommandType : Type := install | build | dev | custom.

(** [status]: ['pending' | 'running' | 'completed' | 'failed'] *)
Inductive Status : Type := Pending | Running | Completed | Failed.

Record Command : Type := mkCommand {
  id : string;
  command : string;
  type : CommandType;
  status : Status;
  output : option string;
  error : option string;
  timestamp : nat;
  duration : option nat
}.

(** The fields of the object, and [inFlight]: the commands whose
    [executeCommand] is suspended at its [await], each to be resumed
    once. *)
Record Queue : Type := mkQueue {
  queue : list Command;
  running : list Command;
  completed : list Command;
  maxConcurrent : nat;
  isProcessing : bool;
  inFlight : list Command
}.

(** [new CommandQueue({ maxConcurrent })]; the default is 2. *)
Definition newQueue (maxConcurrent : nat) : Queue :=
  mkQueue [] [] [] maxConcurrent false [].

Definition defaultQueue : Queue := newQueue 2.

Definition withStatus (s : Status) (c : Command) : Command :=
  mkCommand (id c) (command c) (type c) s (output c) (error c) (timestamp c)
    (duration c).

(** The [while] loop of [processQueue]: a command is shifted from the
    queue, pushed on [running] and handed to [executeCommand], which
    marks it running and suspends. *)
Fixpoint admitWhileRoom (limit : nat) (queue running inFlight : list Command)
  : list Command * list Command * list Command :=
  match queue with
  | [] => (queue, running, inFlight)
  | c :: queue' =>
      if length running <? limit then
        let c' := withStatus Running c in
        admitWhileRoom limit queue' (running ++ [c']) (inFlight ++ [c'])
      else (queue, running, inFlight)
  end.

(** [processQueue] (lines 49-65) *)
Definition processQueue (q : Queue) : Queue :=
  if isProcessing q || (maxConcurrent q <=? length (running q)) then q
  else
    let '(queue', running', inFlight') :=
      admitWhileRoom (maxConcurrent q) (queue q) (running q) (inFlight q) in
    mkQueue queue' running' (completed q) (maxConcurrent q) false inFlight'.

(** [addCommand] (lines 34-47); the identifier and the time stamp come
    from [Math.random] and [Date.now]. *)
Definition addCommand (newId text : string) (t : CommandType) (now : nat)
  (q : Queue) : Queue :=
  let cmd := mkCommand newId text t Pending None None now None in
  processQueue
    (mkQueue (queue q ++ [cmd]) (running q) (completed q) (maxConcurrent q)
       (isProcessing q) (inFlight q)).

(** How the awaited execution of a command ends. *)
Inductive Outcome : Type :=
| Succeeds (out : string) (elapsed : nat)
| Throws (message : string) (elapsed : nat).

Definition settled (c : Command) (o : Outcome) : Command :=
  match o with
  | Succeeds out elapsed =>
      mkCommand (id c) (command c) (type c) Completed (Some out) (error c)
        (timestamp c) (Some elapsed)
  | Throws message elapsed =>
      mkCommand (id c) (command c) (type c) Failed (output c) (Some message)
        (timestamp c) (Some elapsed)
  end.

Definition otherId (i : string) (c : Command) : bool := negb (String.eqb (id c) i).

(** [executeCommand] after its [await] (lines 75-93), for the
    execution at place [k] of [inFlight]. *)
Definition finish (k : nat) (o : Outcome) (q : Queue) : Queue :=
  match nth_error (inFlight q) k with
  | None => q
  | Some c =>
      processQueue
        (mkQueue (queue q) (List.filter (otherId (id c)) (running q))
           (completed q ++ [settled c o]) (maxConcurrent q) (isProcessing q)
           (firstn k (inFlight q) ++ skipn (S k) (inFlight q)))
  end.

Definition isFailed (c : Command) : bool :=
  match status c with Failed => true | _ => false end.

(** [retryCommand] (lines 157-166) *)
Definition retryCommand (i : string) (q : Queue) : Queue :=
  match find (fun c => String.eqb (id c) i && isFailed c) (completed q) with
  | None => q
  | Some c =>
      let c' := mkCommand (id c) (command c) (type c) Pending (output c) None
                  (timestamp c) (duration c) in
      processQueue
        (mkQueue (queue q ++ [c']) (running q)
           (List.filter (otherId i) (completed q)) (maxConcurrent q)
           (isProcessing q) (inFlight q))
  end.

(** [clearCompleted] *)
Definition clearCompleted (q : Queue) : Queue :=
  mkQueue (queue q) (running q) [] (maxConcurrent q) (isProcessing q)
    (inFlight q).

(** [getQueueStatus().running] *)
Definition reportedRunning (q : Queue) : nat := length (running q).

(** What can happen to a queue: a method call, or the end of an
    execution. *)
Inductive Event : Type :=
| AddCommand (newId text : string) (t : CommandType) (now : nat)
| Finish (k : nat) (o : Outcome)
| RetryCommand (i : string)
| ClearCompleted.

Definition step (q : Queue) (e : Event) : Queue :=
  match e with
  | AddCommand newId text t now => addCommand newId text t now q
  | Finish k o => finish k o q
  | RetryCommand i => retryCommand i q
  | ClearCompleted => clearCompleted q
  end.

Definition run (q : Queue) (events : list Event) : Queue :=
  fold_left step events q.

Definition isRunning (c : Command) : bool :=
  match status c with Running => true | _ => false end.

(** The commands [getCommandById] looks through. *)
Definition known (q : Queue) : list Command :=
  queue q ++ running q ++ completed q.

End CommandQueue.

(** ** The debounced batcher: [src/lib/debounced-updater.ts] *)

Module DebouncedUpdater.

Record UpdateBatch : Type := mkBatch {
  files : gmap string string;
  commands : list string;
  timestamp : nat;
  id : string
}.

(** The lines written by [console.log] and [console.error]. *)
Inductive LogLine : Type :=
| Processed (batchId : string) (nFiles nCommands : nat)
| BatchFailed (batchId : string) (err : string).

(** The fields of the object, and around it: the timers that
    [setTimeout] has pending ([pendingTimers]; [clearTimeout] removes
    one), the batches handed to [onBatchReady] ([handed]), the batch
    whose handler has not settled yet ([awaited]) and the console
    ([log]). *)
Record Updater : Type := mkUpdater {
  pendingFiles : gmap string string;
  pendingCommands : list string;
  timeoutId : option nat;
  isProcessing : bool;
  pendingTimers : list nat;
  nextTimer : nat;
  handed : list UpdateBatch;
  awaited : option UpdateBatch;
  log : list LogLine
}.

Definition newUpdater : Updater :=
  mkUpdater ∅ [] None false [] 0 [] None [].

(** [clearTimeout(t)] *)
Definition clearTimeout (t : nat) (timers : list nat) : list nat :=
  List.filter (fun t' => negb (t' =? t)) timers.

(** [scheduleUpdate] (lines 35-43): the timer of [timeoutId], if any,
    is cleared and a new one is set. *)
Definition scheduleUpdate (u : Updater) : Updater :=
  let t := nextTimer u in
  let timers :=
    match timeoutId u with
    | Some old => clearTimeout old (pendingTimers u)
    | None => pendingTimers u
    end in
  mkUpdater (pendingFiles u) (pendingCommands u) (Some t) (isProcessing u)
    (timers ++ [t]) (S t) (handed u) (awaited u) (log u).

(** [object[key] = value] for a string value on an object literal:
    the key [__proto__] names the prototype, and assigning a string to
    it changes nothing. *)
Definition setProperty (key value : string) (object : gmap string string)
  : gmap string string :=
  if String.eqb key "__proto__" then object else <[key := value]> object.

(** [addFile] (lines 25-28) *)
Definition addFile (path content : string) (u : Updater) : Updater :=
  scheduleUpdate
    (mkUpdater (setProperty path content (pendingFiles u)) (pendingCommands u)
       (timeoutId u) (isProcessing u) (pendingTimers u) (nextTimer u)
       (handed u) (awaited u) (log u)).

(** [addCommand] (lines 30-33) *)
Definition addCommand (command : string) (u : Updater) : Updater :=
  scheduleUpdate
    (mkUpdater (pendingFiles u) (pendingCommands u ++ [command])
       (timeoutId u) (isProcessing u) (pendingTimers u) (nextTimer u)
       (handed u) (awaited u) (log u)).

(** [hasPendingUpdates] (lines 83-85) *)
Definition hasPendingUpdates (u : Updater) : bool :=
  negb (bool_decide (pendingFiles u = ∅))
  || negb (match pendingCommands u with [] => true | _ => false end).

(** [processBatch] up to its [await] (lines 45-64): the batch is built,
    the pending buffers are emptied and the handler is called.  [now]
    and [batchId] are what [Date.now] and [generateId] give. *)
Definition processBatch (now : nat) (batchId : string) (u : Updater)
  : Updater :=
  if isProcessing u || negb (hasPendingUpdates u) then u
  else
    let batch := mkBatch (pendingFiles u) (pendingCommands u) now batchId in
    mkUpdater ∅ [] (timeoutId u) true (pendingTimers u) (nextTimer u)
      (handed u ++ [batch]) (Some batch) (log u).

(** How the promise of the handler settles. *)
Inductive Settlement : Type :=
| Resolves
| Rejects (err : string).

(** [processBatch] after its [await] (lines 65-70): [try], [catch] and
    [finally]. *)
Definition settle (s : Settlement) (u : Updater) : Updater :=
  match awaited u with
  | None => u
  | Some batch =>
      let line :=
        match s with
        | Resolves => Processed (id batch) (size (files batch))
                        (length (commands batch))
        | Rejects err => BatchFailed (id batch) err
        end in
      mkUpdater (pendingFiles u) (pendingCommands u) (timeoutId u) false
        (pendingTimers u) (nextTimer u) (handed u) None (log u ++ [line])
  end.

(** The callback of timer [t] runs, if that timer is still pending. *)
Definition timerFires (t now : nat) (batchId : string) (u : Updater)
  : Updater :=
  if existsb (Nat.eqb t) (pendingTimers u) then
    processBatch now batchId
      (mkUpdater (pendingFiles u) (pendingCommands u) (timeoutId u)
         (isProcessing u) (clearTimeout t (pendingTimers u)) (nextTimer u)
         (handed u) (awaited u) (log u))
  else u.

(** [flush] (lines 74-80) *)
Definition flush (now : nat) (batchId : string) (u : Updater) : Updater :=
  processBatch now batchId
    (match timeoutId u with
     | Some t =>
         mkUpdater (pendingFiles u) (pendingCommands u) None (isProcessing u)
           (clearTimeout t (pendingTimers u)) (nextTimer u) (handed u)
           (awaited u) (log u)
     | None => u
     end).

(** What can happen to an updater. *)
Inductive Event : Type :=
| AddFile (path content : string)
| AddCommand (command : string)
| TimerFires (t now : nat) (batchId : string)
| Flush (now : nat) (batchId : string)
| HandlerSettles (s : Settlement).

Definition step (u : Updater) (e : Event) : Updater :=
  match e with
  | AddFile path content => addFile path content u
  | AddCommand command => addCommand command u
  | TimerFires t now batchId => timerFires t now batchId u
  | Flush now batchId => flush now batchId u
  | HandlerSettles s => settle s u
  end.

Definition run (u : Updater) (events : list Event) : Updater :=
  fold_left step events u.

Definition isAddition (e : Event) : bool :=
  match e with
  | AddFile _ _ | AddCommand _ => true
  | _ => false
  end.

End DebouncedUpdater.

(** ** Sample inputs used below *)

Definition nl : string := String Js.newline "".

(** One artifact holding one file action whose text is [hi]. *)
Definition sampleText : string :=
  "<boltArtifact id=" +:+ Js.q "a" +:+ " title=" +:+ Js.q "t" +:+ ">"
  +:+ "<boltAction type=" +:+ Js.q "file" +:+ " filePath=" +:+ Js.q "/x" +:+ ">"
  +:+ "hi</boltAction></boltArtifact>".

(** A file block of markdown: a path on its own line, then a fence. *)
Definition sampleMarkdown : string :=
  "src/App.js:" +:+ nl +:+ "```js" +:+ nl +:+ "const a = 1;" +:+ nl +:+ "```"
  +:+ nl.

(** The text the first pattern matches in [sampleMarkdown]. *)
Definition sampleMatch : string :=
  "src/App.js:" +:+ nl +:+ "```js" +:+ nl +:+ "const a = 1;" +:+ nl +:+ "```".

(** Two lines that start with [#] and chain two words with [;]. *)
Definition hashLines : string := "#a;b" +:+ nl +:+ "#c;d".

(** Two lines that end with a [;]. *)
Definition semicolonLines : string := "ls -la;" +:+ nl +:+ "ls -la;".

(** Three lines, two of them commands. *)
Definition threeLines : string :=
  "npm install" +:+ nl +:+ "npm run dev" +:+ nl +:+ "# start".

(** Four lines, three of them commands. *)
Definition fourLines : string :=
  "npm install" +:+ nl +:+ "npm run build" +:+ nl +:+ "npm run dev" +:+ nl
  +:+ "# start".

(** A patch of one block. *)
Definition patchOf (search replacement : string) : string :=
  DiffPatch.SEARCH_START +:+ nl +:+ search +:+ nl +:+ DiffPatch.DIVIDER +:+ nl
    +:+ replacement +:+ nl +:+ DiffPatch.REPLACE_END.



(** A folder [/src] holding one file [/src/b.js]. *)
Definition sampleFiles : gmap string FileStore.Dirent :=
  FileStore.createFile "/src/b.js" "x" (FileStore.createFolder "/src" ∅).

(** Five commands enqueued in a row. *)
Definition fiveCommands : list CommandQueue.Event :=
  [ CommandQueue.AddCommand "cmd_1" "npm install" CommandQueue.install 1;
    CommandQueue.AddCommand "cmd_2" "npm run build" CommandQueue.build 2;
    CommandQueue.AddCommand "cmd_3" "npm run dev" CommandQueue.dev 3;
    CommandQueue.AddCommand "cmd_4" "ls" CommandQueue.custom 4;
    CommandQueue.AddCommand "cmd_5" "pwd" CommandQueue.custom 5 ].

(** The batch made of one file, and an updater awaiting its handler. *)
Definition sampleBatch : DebouncedUpdater.UpdateBatch :=
  DebouncedUpdater.mkBatch (<["/a.js" := "1"]> ∅) [] 10 "batch_1".

Definition sampleAwaiting : DebouncedUpdater.Updater :=
  DebouncedUpdater.run DebouncedUpdater.newUpdater
    [ DebouncedUpdater.AddFile "/a.js" "1";
      DebouncedUpdater.TimerFires 0 10 "batch_1" ].

(** ** Invariants used in the proofs *)

(** The continuation [k] of a match that started on [s] yields [res]
    on a rest of the input that is no longer than [s], and shorter
    when [strict]. *)
Definition shrinks (strict : bool) (s : string) (k : Regex.cont)
  (res : string * Regex.captures) : Prop :=
  exists prev' s' cs',
    String.length s' <= String.length s /\
    (strict = true -> String.length s' < String.length s) /\
    k prev' s' cs' = Some res.

(** What holds of a run of the classifier that started with the set
    [P0] and no result: the set only grew, and every result was made
    from a text whose hash was not in [P0] and now is in the set. *)
Definition runInv (P0 : gset string) (run : MessageParser.Run) : Prop :=
  P0 ⊆ MessageParser.processed run /\
  forall m, In m (map fst (MessageParser.results run)) ->
            MessageParser.hashBlock m ∈ MessageParser.processed run /\
            MessageParser.hashBlock m ∉ P0.

Definition isPending (c : CommandQueue.Command) : bool :=
  match CommandQueue.status c with CommandQueue.Pending => true | _ => false end.

(** What every state reached from a new queue with limit [N] satisfies. *)
Record queueInv (N : nat) (q : CommandQueue.Queue) : Prop := mkQueueInv {
  inv_limit : CommandQueue.maxConcurrent q = N;
  inv_idle : CommandQueue.isProcessing q = false;
  inv_bound : length (CommandQueue.running q) <= N;
  inv_queue : forallb isPending (CommandQueue.queue q) = true;
  inv_running : forallb CommandQueue.isRunning (CommandQueue.running q) = true;
  inv_completed :
    forallb (fun c => negb (CommandQueue.isRunning c)) (CommandQueue.completed q)
    = true
}.

(** [mentions g r]: the pattern [r] has a group numbered [g]. *)
Fixpoint mentions (g : nat) (r : Regex.regex) : bool :=
  match r with
  | Regex.Cat r1 r2 | Regex.Alt r1 r2 => mentions g r1 || mentions g r2
  | Regex.Grp n r1 => (g =? n) || mentions g r1
  | Regex.Ahead r1 => mentions g r1
  | _ => false
  end.

(** The continuation [k] of a match that started on [s] yields [res]
    on a suffix of [s], with the capture [g] as it was when [keep]. *)
Definition reaches (keep : bool) (g : nat) (s : string) (cs : Regex.captures)
  (k : Regex.cont) (res : string * Regex.captures) : Prop :=
  exists n prev' cs',
    k prev' (Js.drop n s) cs' = Some res /\
    (keep = true -> Regex.getCapture g cs' = Regex.getCapture g cs).

(** The parts of [actionOpen] that follow the [type] attribute and the
    run of characters after it: the optional [filePath] attribute, then
    the end of the tag. *)
Definition filePathAttribute : Regex.regex :=
  Regex.seq [Regex.lit "filePath="; Regex.Chr Js.dquote;
             Regex.Grp 2 (Regex.star (StreamingParser.notChar Js.dquote));
             Regex.Chr Js.dquote].

Definition tagEnd : Regex.regex :=
  Regex.Cat (Regex.star (StreamingParser.notChar ">")) (Regex.Chr ">").

Definition afterRun : Regex.cont :=
  fun prev s cs =>
    Regex.matchRe Regex.noFlags (Regex.Cat (Regex.opt filePathAttribute) tagEnd)
      prev s cs (fun _ s' cs' => Some (s', cs')).

(** No action of a state or of a callback has a [filePath]. *)
Definition noPath (a : StreamingParser.Action.t) : Prop :=
  StreamingParser.Action.filePath a = None.

Definition optAll {A : Type} (P : A -> Prop) (o : option A) : Prop :=
  match o with Some a => P a | None => True end.

Definition stateNoPath (st : StreamingParser.State) : Prop :=
  optAll noPath (StreamingParser.currentAction st) /\
  optAll (fun art => Forall noPath (StreamingParser.Artifact.actions art))
    (StreamingParser.currentArtifact st).

Definition eventNoPath (e : StreamingParser.Event) : Prop :=
  match e with
  | StreamingParser.ActionStream a => noPath a
  | StreamingParser.ArtifactComplete art =>
      Forall noPath (StreamingParser.Artifact.actions art)
  end.

(** Every character of [s] passes [p]. *)
Fixpoint allChars (p : ascii -> bool) (s : string) : bool :=
  match s with
  | "" => true
  | String c s' => p c && allChars p s'
  end.

(** A result made with the counter at [n]: its [artifactId] is its
    type, the message and [n]; it is a command without a path, or a
    file whose path passes [isValidFilePath]. *)
Definition numbered (messageId : string) (n : nat)
  (r : MessageParser.ParsedContent) : Prop :=
  MessageParser.artifactId r
  = Some (MessageParser.type r +:+ "-" +:+ messageId +:+ "-"
          +:+ MessageParser.showNat n) /\
  ((MessageParser.type r = "command" /\ MessageParser.filePath r = None) \/
   (MessageParser.type r = "file" /\
    exists path, MessageParser.filePath r = Some path /\
                 MessageParser.isValidFilePath path = true)).

(** A run that started with the counter at [c0]: the counter has moved
    by one per result, and the results are numbered in order. *)
Definition countedFrom (messageId : string) (c0 : nat) (run : MessageParser.Run)
  : Prop :=
  MessageParser.counter run = c0 + length (MessageParser.results run) /\
  forall i m r, nth_error (MessageParser.results run) i = Some (m, r) ->
                numbered messageId (c0 + i) r.

(** A classifier that numbers what it returns. *)
Definition numbering (messageId : string)
  (classify : nat -> option MessageParser.ParsedContent * nat) : Prop :=
  forall n,
    match classify n with
    | (Some r, n') => n' = S n /\ numbered messageId n r
    | (None, n') => n' = n
    end.

(** The identifiers given by the [addCommand] calls of a list of
    events, in order. *)
Definition addedIds (events : list CommandQueue.Event) : list string :=
  flat_map (fun e => match e with
                     | CommandQueue.AddCommand newId _ _ _ => [newId]
                     | _ => []
                     end) events.

Definition noRetry (e : CommandQueue.Event) : bool :=
  match e with CommandQueue.RetryCommand _ => false | _ => true end.

Definition isSettled (c : CommandQueue.Command) : bool :=
  match CommandQueue.status c with
  | CommandQueue.Completed | CommandQueue.Failed => true
  | _ => false
  end.

(** No slot is idle while a command waits. *)
Definition busy (N : nat) (q : CommandQueue.Queue) : Prop :=
  CommandQueue.queue q = [] \/ N <= length (CommandQueue.running q).

Definition noClear (e : CommandQueue.Event) : bool :=
  match e with CommandQueue.ClearCompleted => false | _ => true end.

(** The commands given by the [addCommand] calls of a list of events,
    in order, and the object that the [addFile] calls would build by
    themselves. *)
Definition addedCommands (events : list DebouncedUpdater.Event) : list string :=
  flat_map (fun e => match e with
                     | DebouncedUpdater.AddCommand c => [c]
                     | _ => []
                     end) events.



(** What every state reached from a new updater satisfies: no timer is
    pending but the one of [timeoutId], and [isProcessing] is set
    exactly while a handler is awaited. *)
Definition updaterInv (u : DebouncedUpdater.Updater) : Prop :=
  (DebouncedUpdater.pendingTimers u = [] \/
   exists t, DebouncedUpdater.timeoutId u = Some t /\
             DebouncedUpdater.pendingTimers u = [t]) /\
  DebouncedUpdater.isProcessing u
  = match DebouncedUpdater.awaited u with Some _ => true | None => false end.

(** What [file?.type === 'file'] finds at a path. *)
Definition holdsFile (files : FileStore.FileMap) (path : string) : bool :=
  match files !! path with Some (FileStore.DFile _) => true | _ => false end.

(** How far [filesCount] is above the number of files. *)
Definition drift (s : FileStore.Store.t) : Z :=
  (FileStore.Store.filesCount s
   - Z.of_nat (FileStore.countFiles (FileStore.Store.files s)))%Z.

(** What an entry holds besides its lock fields. *)
Definition payload (entry : FileStore.Dirent) : option (string * bool) :=
  match entry with
  | FileStore.DFile file =>
      Some (FileStore.File.content file, FileStore.File.isBinary file)
  | FileStore.DFolder _ => None
  end.

(** Two states of the store that differ in lock fields only. *)
Definition sameData (s s' : FileStore.Store.t) : Prop :=
  (forall path, payload <$> FileStore.Store.files s' !! path
                = payload <$> FileStore.Store.files s !! path) /\
  FileStore.Store.filesCount s' = FileStore.Store.filesCount s /\
  FileStore.Store.modifiedFiles s' = FileStore.Store.modifiedFiles s /\
  FileStore.Store.deletedPaths s' = FileStore.Store.deletedPaths s /\
  FileStore.Store.getFileModifications s'
  = FileStore.Store.getFileModifications s.

(** * Theorems *)

Import Js.

Arguments Ascii.eqb : simpl never.

(** ** The patch engine on the documented examples *)

Example apply_foo_bar :
  DiffPatch.applyDiffPatches ("foo" +:+ nl +:+ "baz") (patchOf "foo" "bar")
  = DiffPatch.mkDiffResult ("bar" +:+ nl +:+ "baz") [(1, 1)] true.
Proof. vm_compute. reflexivity. Qed.

Example apply_empty_search :
  DiffPatch.applyDiffPatches "existing" (patchOf "" ("line1" +:+ nl +:+ "line2"))
  = DiffPatch.mkDiffResult ("line1" +:+ nl +:+ "line2" +:+ nl +:+ "existing")
      [(1, 2)] true.
Proof. vm_compute. reflexivity. Qed.

Example apply_no_triplet :
  DiffPatch.applyDiffPatches "abc" "no markers here"
  = DiffPatch.mkDiffResult "abc" [] false.
Proof. vm_compute. reflexivity. Qed.

(** ** Facts about the string primitives *)

Lemma startsWith_length (s p : string) :
  startsWith s p = true -> String.length p <= String.length s.
Proof.
  revert s; induction p as [|a p IH]; intros [|b s] H; simpl in *;
    try lia; try discriminate.
  apply andb_true_iff in H as [_ H]. apply IH in H. lia.
Qed.

Lemma indexOf0_unfold (s p : string) :
  indexOf0 s p =
  if startsWith s p then Some 0
  else match s with
       | "" => None
       | String _ s' => option_map S (indexOf0 s' p)
       end.
Proof. destruct s; reflexivity. Qed.

Lemma indexOf0_bound (s p : string) (i : nat) :
  indexOf0 s p = Some i -> i + String.length p <= String.length s.
Proof.
  revert i; induction s as [|c s IH]; intros i; rewrite indexOf0_unfold;
    destruct (startsWith _ p) eqn:E.
  - intros [= <-]. apply startsWith_length in E. lia.
  - discriminate.
  - intros [= <-]. apply startsWith_length in E. lia.
  - destruct (indexOf0 s p) as [j|] eqn:Ej; simpl; [|discriminate].
    intros [= <-]. specialize (IH j eq_refl). lia.
Qed.

Lemma indexOf_zero (s p : string) : indexOf s p 0 = indexOf0 s p.
Proof. destruct s; reflexivity. Qed.

Lemma indexOf_empty (p : string) (n : nat) : indexOf "" p n = indexOf0 "" p.
Proof. destruct n; reflexivity. Qed.

Lemma indexOf_bound (s p : string) (from i : nat) :
  0 < String.length p ->
  indexOf s p from = Some i ->
  from <= i /\ i + String.length p <= String.length s.
Proof.
  intros Hp. revert s i; induction from as [|n IH]; intros s i H.
  - rewrite indexOf_zero in H. apply indexOf0_bound in H. lia.
  - destruct s as [|c s].
    + rewrite indexOf_empty in H. apply indexOf0_bound in H.
      change (String.length "") with 0 in H. lia.
    + change (option_map S (indexOf s p n) = Some i) in H.
      destruct (indexOf s p n) as [j|] eqn:Ej; [|discriminate].
      injection H as <-. apply IH in Ej.
      change (String.length (String c s)) with (S (String.length s)). lia.
Qed.

Lemma split_nonempty (sep : ascii) (s : string) : split sep s <> [].
Proof.
  induction s as [|c s IH]; simpl; [discriminate|].
  destruct (Ascii.eqb c sep); [discriminate|].
  destruct (split sep s); [contradiction|discriminate].
Qed.

Lemma lines_length_pos (s : string) : 0 < length (lines s).
Proof.
  unfold lines. pose proof (split_nonempty newline s) as H.
  destruct (split newline s); [contradiction|simpl; lia].
Qed.

(** ** The patch engine: the loop always exits by itself *)

Section PatchLoop.
Import DiffPatch.
Variable diff : string.

Lemma nextBlock_progress (pos : nat) (sb rb : string) (pos' : nat) :
  nextBlock diff pos = Some (sb, rb, pos') ->
  pos < pos' /\ pos' <= String.length diff.
Proof.
  unfold nextBlock.
  destruct (indexOf diff SEARCH_START pos) as [i|] eqn:Ei; [|discriminate].
  destruct (indexOf diff DIVIDER i) as [d|] eqn:Ed; [|discriminate].
  destruct (indexOf diff REPLACE_END d) as [e|] eqn:Ee; [|discriminate].
  intros [= _ _ <-].
  apply indexOf_bound in Ei; [|simpl; lia].
  apply indexOf_bound in Ed; [|simpl; lia].
  apply indexOf_bound in Ee; [|simpl; lia].
  change (String.length SEARCH_START) with 14 in *.
  change (String.length DIVIDER) with 7 in *.
  change (String.length REPLACE_END) with 15 in *.
  lia.
Qed.

Lemma iteration_progress (st st' : LoopState) :
  iteration diff st = Some st' ->
  position st < position st' /\ position st' <= String.length diff.
Proof.
  unfold iteration.
  destruct (nextBlock diff (position st)) as [[[sb rb] pos']|] eqn:E;
    [|discriminate].
  intros [= <-]. simpl. eapply nextBlock_progress; eauto.
Qed.

(** With more fuel than characters left, the loop stops because no
    further block is found, not because the fuel ran out. *)
Lemma loop_exits (fuel : nat) (st : LoopState) :
  String.length diff - position st < fuel ->
  iteration diff (loop fuel diff st) = None.
Proof.
  revert st; induction fuel as [|f IH]; intros st Hf; [lia|].
  simpl. destruct (iteration diff st) as [st'|] eqn:E; [|exact E].
  apply IH. apply iteration_progress in E. lia.
Qed.





Lemma reachable_loop (fuel : nat) (st0 st : LoopState) :
  reachable diff st0 st -> reachable diff st0 (loop fuel diff st).
Proof.
  revert st; induction fuel as [|f IH]; intros st R; [exact R|].
  simpl. destruct (iteration diff st) as [st'|] eqn:E; [|exact R].
  apply IH. eapply reach_next; eauto.
Qed.

Lemma reachable_run (st0 : LoopState) : reachable diff st0 (run diff st0).
Proof. apply reachable_loop, reach_start. Qed.





End PatchLoop.

(** ** The patch engine: claims *)

Section PatchClaims.
Import DiffPatch.

Lemma getSubstitution_literal (matched before after template : string) :
  includes template "$" = false ->
  getSubstitution matched before after template = template.
Proof.
  unfold includes. induction template as [|c t IH]; [reflexivity|].
  rewrite indexOf0_unfold. simpl startsWith.
  destruct (Ascii.eqb "$" c) eqn:E; [discriminate|]. simpl.
  destruct (indexOf0 t "$") eqn:Ei; [discriminate|]. intros _.
  rewrite Ascii.eqb_sym, E. f_equal. apply IH. reflexivity.
Qed.

Lemma split_length (sep : ascii) (s : string) :
  length (split sep s) = S (countChar sep s).
Proof.
  induction s as [|c s IH]; [reflexivity|]. simpl.
  destruct (Ascii.eqb c sep); simpl; [now rewrite IH|].
  destruct (split sep s) eqn:E; simpl in *; [discriminate|exact IH].
Qed.

(** A found, non-empty search block: exactly the first occurrence is
    cut out, the expansion of the replace text is put in its place, and
    the touched range starts one line after the newlines before the
    match and spans the lines of the replace text. *)
Lemma applyBlock_found (sb rb : string) (st : LoopState) (p : nat) :
  isEmpty sb = false ->
  indexOf0 (content st) sb = Some p ->
  let before := take p (content st) in
  let after := drop (p + String.length sb) (content st) in
  let startLine := S (countChar newline before) in
  applyBlock sb rb st =
  {| content := before +:+ getSubstitution sb before after rb +:+ after;
     touched := touched st ++
                [(startLine, startLine + S (countChar newline rb) - 1)];
     position := position st;
     changed := true |}.
Proof.
  intros Hne Hp. unfold applyBlock. rewrite Hne, Hp. unfold replace.
  rewrite Hp. unfold substring, lines. rewrite !split_length.
  rewrite Nat.max_0_l, Nat.min_0_l, Nat.sub_0_r. reflexivity.
Qed.

(** C3, the failing input: the replace text is [a$$b], and the first
    occurrence of the search text [foo] is replaced by [a$b]:
    [String.prototype.replace] reads [$$] in its second argument as an
    escaped dollar. *)
Theorem C3_replace_text_dollar_expanded :
  nextBlock (patchOf "foo" "a$$b") 0 = Some ("foo", "a$$b", 47) /\
  applyDiffPatches ("foo" +:+ nl +:+ "baz") (patchOf "foo" "a$$b")
  = mkDiffResult ("a$b" +:+ nl +:+ "baz") [(1, 1)] true.
Proof. split; vm_compute; reflexivity. Qed.





End PatchClaims.

(** ** The matcher: a match of a pattern that consumes is never empty

    This is what makes [execAllFrom] the loop of the sources: after
    each match [lastIndex] has moved forward. *)

Section MatcherProgress.
Import Regex.

Lemma shrinks_here (s : string) (k : cont) (prev : option ascii)
  (cs : captures) (res : string * captures) :
  k prev s cs = Some res -> shrinks false s k res.
Proof.
  intros H. exists prev, s, cs. split; [lia|]. split; [discriminate|exact H].
Qed.

Lemma shrinks_weaken (b : bool) (s : string) (k : cont)
  (res : string * captures) :
  shrinks true s k res -> shrinks b s k res.
Proof.
  intros (p & s' & cs & H1 & H2 & H3). exists p, s', cs.
  split; [lia|]. split; [intros _; auto|exact H3].
Qed.

Lemma shrinks_tail (b : bool) (c : ascii) (s : string) (k : cont)
  (res : string * captures) :
  shrinks b s k res -> shrinks true (String c s) k res.
Proof.
  intros (p & s' & cs & H1 & H2 & H3). exists p, s', cs.
  simpl. split; [lia|]. split; [intros _; lia|exact H3].
Qed.

Lemma rep_shrinks (f : flags) (greedy : bool) (p : ascii -> bool)
  (s : string) :
  forall lo hi prev cs k res,
    rep f greedy p lo hi prev s cs k = Some res ->
    shrinks (0 <? lo) s k res.
Proof.
  induction s as [|c s IH]; intros lo hi prev cs k res H; simpl in H.
  - destruct lo; simpl in *; [|discriminate]. eapply shrinks_here, H.
  - assert (Stop : (if lo =? 0 then k prev (String c s) cs else None) = Some res ->
                   shrinks (0 <? lo) (String c s) k res).
    { destruct lo; simpl; [|discriminate]. apply shrinks_here. }
    destruct (match hi with Some 0 => false | _ => true end && clsMatch f p c);
      [|auto].
    destruct greedy.
    + destruct (rep f true p (pred lo) (option_map pred hi) (Some c) s cs k)
        as [r|] eqn:E; [|auto].
      injection H as <-. apply IH in E.
      eapply shrinks_weaken, shrinks_tail, E.
    + destruct (if lo =? 0 then k prev (String c s) cs else None) as [r|] eqn:E.
      * injection H as <-. auto.
      * apply IH in H. eapply shrinks_weaken, shrinks_tail, H.
Qed.

Lemma matchRe_shrinks (f : flags) (r : regex) :
  forall prev s cs k res,
    matchRe f r prev s cs k = Some res -> shrinks (consumes r) s k res.
Proof.
  induction r as [|a|p|r1 IH1 r2 IH2|r1 IH1 r2 IH2|g lo hi p|n r1 IH1| | |r1 IH1];
    intros prev s cs k res H; simpl in H; simpl consumes.
  - eapply shrinks_here, H.
  - destruct s as [|c s]; [discriminate|].
    destruct (chrMatch f a c); [|discriminate].
    eapply shrinks_tail, shrinks_here, H.
  - destruct s as [|c s]; [discriminate|].
    destruct (clsMatch f p c); [|discriminate].
    eapply shrinks_tail, shrinks_here, H.
  - apply IH1 in H. destruct H as (p1 & s1 & cs1 & L1 & S1 & H).
    apply IH2 in H. destruct H as (p2 & s2 & cs2 & L2 & S2 & H).
    exists p2, s2, cs2. split; [lia|]. split; [|exact H].
    intros Hc. apply orb_true_iff in Hc as [Hc|Hc];
      [specialize (S1 Hc)|specialize (S2 Hc)]; lia.
  - destruct (matchRe f r1 prev s cs k) as [x|] eqn:E.
    + injection H as <-. apply IH1 in E.
      destruct E as (p1 & s1 & cs1 & L1 & S1 & E). exists p1, s1, cs1.
      split; [lia|]. split; [|exact E].
      intros Hc. apply andb_true_iff in Hc as [Hc _]. auto.
    + apply IH2 in H. destruct H as (p1 & s1 & cs1 & L1 & S1 & H).
      exists p1, s1, cs1. split; [lia|]. split; [|exact H].
      intros Hc. apply andb_true_iff in Hc as [_ Hc]. auto.
  - eapply rep_shrinks, H.
  - apply IH1 in H. destruct H as (p1 & s1 & cs1 & L1 & S1 & H).
    exists p1, s1, ((n, Js.take (String.length s - String.length s1) s) :: cs1).
    auto.
  - destruct (atLineStart f prev); [|discriminate]. eapply shrinks_here, H.
  - destruct (atLineEnd f s); [|discriminate]. eapply shrinks_here, H.
  - destruct (matchRe f r1 prev s cs _) as [[s1 cs1]|]; [|discriminate].
    eapply shrinks_here, H.
Qed.

(** A match of a consuming pattern has a positive length, within the
    input. *)
Lemma matchAt_consumes (f : flags) (r : regex) (prev : option ascii)
  (s : string) (len : nat) (cs : captures) :
  consumes r = true ->
  matchAt f r prev s = Some (len, cs) ->
  0 < len <= String.length s.
Proof.
  intros Hc. unfold matchAt.
  destruct (matchRe f r prev s [] _) as [[s' cs']|] eqn:E; [|discriminate].
  intros [= <- <-]. apply matchRe_shrinks in E.
  destruct E as (p1 & s1 & cs1 & L1 & S1 & [= <- <-]).
  specialize (S1 Hc). lia.
Qed.

Lemma take_length (n : nat) (s : string) :
  n <= String.length s -> String.length (take n s) = n.
Proof.
  revert s; induction n as [|n IH]; intros s H; [destruct s; reflexivity|].
  destruct s as [|c s]; simpl in *; [lia|]. rewrite IH; lia.
Qed.

(** No match listed by the loop is empty. *)
Lemma execAllFrom_nonempty (f : Regex.flags) (r : Regex.regex) (s : string) :
  Regex.consumes r = true ->
  forall prev idx skip,
    Forall (fun m => 0 < String.length (Regex.matched m))
      (Regex.execAllFrom f r prev s idx skip).
Proof.
  intros Hc. induction s as [|c s IH]; intros prev idx skip.
  - destruct skip; simpl; [|constructor].
    destruct (Regex.matchAt f r prev "") as [[len cs]|] eqn:E; [|constructor].
    apply (matchAt_consumes _ _ _ _ _ _ Hc) in E. simpl in E. lia.
  - destruct skip; simpl; [|apply IH].
    destruct (Regex.matchAt f r prev (String c s)) as [[len cs]|] eqn:E;
      [|apply IH].
    apply (matchAt_consumes _ _ _ _ _ _ Hc) in E.
    constructor; [|apply IH]. simpl Regex.matched.
    rewrite take_length; lia.
Qed.

(** The patterns that the sources run in a [while (exec)] loop all
    consume. *)
Lemma loop_patterns_consume :
  forallb consumes
    [ StreamingParser.artifactOpen; StreamingParser.artifactClose;
      StreamingParser.actionOpen; StreamingParser.actionClose;
      MessageParser.filePathPattern; MessageParser.explicitCreatePattern;
      MessageParser.commentFilenamePattern; MessageParser.inFilenamePattern;
      MessageParser.structuredFilePattern;
      MessageParser.fileOperationPattern ] = true.
Proof. reflexivity. Qed.

End MatcherProgress.

(** ** The matcher and the classifier on small inputs *)

Section SmallInputs.
Import Regex MessageParser.

Example split_on_chaining :
  splitRe noFlags chaining "a && b;c" = ["a "; " b"; "c"].
Proof. reflexivity. Qed.

Example split_on_blanks :
  splitRe noFlags ws1 "ls  -la x" = ["ls"; "-la"; "x"].
Proof. reflexivity. Qed.

Example lazy_content_stops_at_first_fence :
  option_map matched
    (exec noFlags (seq [fence; Grp 1 (lazyStar anyChar); fence]) "```a``` ```b```")
  = Some "```a```".
Proof. reflexivity. Qed.

(** The greedy run before the optional [filePath] group of the
    action-open pattern takes the attribute: the group stays unset. *)
Example actionOpen_leaves_filePath_unset :
  map (fun m => (group m 1, group m 2))
    (execAll noFlags StreamingParser.actionOpen sampleText)
  = [(Some "file", None)].
Proof. vm_compute. reflexivity. Qed.

Example hashBlock_abc : hashBlock "abc" = "22ci".
Proof. vm_compute. reflexivity. Qed.

Example npm_install_is_a_command :
  isShellCommand "npm install" "bash" = true /\
  isShellCommand "npm install" "js" = false /\
  isShellCommand ("x=1" +:+ nl +:+ "echo $x") "sh" = false.
Proof. repeat split; vm_compute; reflexivity. Qed.

Example markdown_file_block :
  snd (parse 0 newParser "m" sampleMarkdown)
  = [mkParsedContent "file" ("const a = 1;" +:+ nl) (Some "/src/App.js")
       (Some "js") (Some "file-m-0")].
Proof. vm_compute. reflexivity. Qed.

End SmallInputs.

(** ** The streaming tag parser *)

Section StreamingClaims.
Import Regex StreamingParser.

Lemma fold_onActionOpen_last (messageId : string) (ms : list Match) (st : State) :
  ms <> [] ->
  let st' := fold_left (onActionOpen messageId) ms st in
  insideAction st' = true /\
  currentArtifact st' = currentArtifact st /\
  exists a, currentAction st' = Some a /\ Action.content a = "".
Proof.
  revert st; induction ms as [|m ms IH]; intros st Hne; [contradiction|].
  destruct ms as [|m' ms].
  - simpl. split; [reflexivity|]. split; [reflexivity|]. eauto.
  - specialize (IH (onActionOpen messageId st m) ltac:(discriminate)).
    exact IH.
Qed.

Lemma fold_onActionClose_outside (ms : list Match) (st : State) (log : list Event) :
  insideAction st = false ->
  fold_left onActionClose ms (st, log) = (st, log).
Proof.
  intros H. induction ms as [|m ms IH]; [reflexivity|].
  simpl. rewrite H. exact IH.
Qed.

Lemma onArtifactClose_spec (acc : State * list Event) (m : Match) :
  insideAction (fst (onArtifactClose acc m)) = insideAction (fst acc) /\
  currentAction (fst (onArtifactClose acc m)) = currentAction (fst acc) /\
  streamedActions (snd (onArtifactClose acc m)) = streamedActions (snd acc) /\
  (forall art,
      In art (completedArtifacts (snd (onArtifactClose acc m))) \/
      currentArtifact (fst (onArtifactClose acc m)) = Some art ->
      In art (completedArtifacts (snd acc)) \/
      currentArtifact (fst acc) = Some art).
Proof.
  destruct acc as [st log]. unfold onArtifactClose. cbn [fst snd].
  destruct (insideArtifact st); [|simpl; tauto].
  destruct (currentArtifact st) as [art0|] eqn:Ea;
    [|simpl; rewrite ?Ea; tauto].
  simpl.
  split; [reflexivity|]. split; [reflexivity|]. split.
  - unfold streamedActions. rewrite flat_map_app. simpl. apply app_nil_r.
  - intros art [H|H]; [|discriminate].
    unfold completedArtifacts in H. rewrite flat_map_app in H. simpl in H.
    apply in_app_or in H as [H|[<-|[]]]; auto.
Qed.

Lemma fold_onArtifactClose_spec (ms : list Match) (acc : State * list Event) :
  insideAction (fst (fold_left onArtifactClose ms acc)) = insideAction (fst acc) /\
  currentAction (fst (fold_left onArtifactClose ms acc)) = currentAction (fst acc) /\
  streamedActions (snd (fold_left onArtifactClose ms acc))
  = streamedActions (snd acc) /\
  (forall art,
      In art (completedArtifacts (snd (fold_left onArtifactClose ms acc))) \/
      currentArtifact (fst (fold_left onArtifactClose ms acc)) = Some art ->
      In art (completedArtifacts (snd acc)) \/
      currentArtifact (fst acc) = Some art).
Proof.
  revert acc; induction ms as [|m ms IH]; intros acc; [simpl; tauto|].
  simpl. destruct (IH (onArtifactClose acc m)) as (H1 & H2 & H3 & H4).
  destruct (onArtifactClose_spec acc m) as (K1 & K2 & K3 & K4).
  rewrite H1, H2, H3. repeat split; auto.
Qed.

Lemma onActionClose_inside (st : State) (log : list Event) (m : Match)
  (a : Action.t) :
  insideAction st = true ->
  currentAction st = Some a ->
  onActionClose (st, log) m =
  (mkState (position st) (insideArtifact st) false
     (option_map (fun art => pushAction art a) (currentArtifact st))
     None (actionId st),
   log ++ [ActionStream a]).
Proof. intros H1 H2. unfold onActionClose. rewrite H1, H2. reflexivity. Qed.

(** One call whose new text holds an action-open and an action-close
    match. *)
Lemma parseState_open_close (messageId input : string) (st : State) :
  let newContent := slice input (position st) in
  execAll noFlags actionOpen newContent <> [] ->
  execAll noFlags actionClose newContent <> [] ->
  exists a,
    streamedActions (snd (parseState messageId input st)) = [a] /\
    Action.content a = "" /\
    forall art,
      In art (completedArtifacts (snd (parseState messageId input st))) \/
      currentArtifact (fst (parseState messageId input st)) = Some art ->
      last (Artifact.actions art) = Some a.
Proof.
  intros newContent Hopen Hclose. unfold parseState. fold newContent.
  match goal with |- context [fold_left (onActionOpen messageId) ?ms ?s] =>
    destruct (fold_onActionOpen_last messageId ms s Hopen)
      as (Hin & _ & a & Ha & Hc);
    set (st2 := fold_left (onActionOpen messageId) ms s) in * end.
  destruct (execAll noFlags actionClose newContent) as [|m ms];
    [contradiction|].
  replace (fold_left onActionClose (m :: ms) (st2, []))
    with (fold_left onActionClose ms (onActionClose (st2, []) m))
    by reflexivity.
  rewrite (onActionClose_inside st2 [] m a Hin Ha).
  rewrite fold_onActionClose_outside by reflexivity.
  match goal with |- context [fold_left onArtifactClose ?l ?acc] =>
    pose proof (fold_onArtifactClose_spec l acc) as Hspec;
    destruct (fold_left onArtifactClose l acc) as [st4 log4] end.
  destruct Hspec as (H1 & H2 & H3 & H4). cbn [fst snd] in *.
  simpl in H1. unfold accumulate. rewrite H1.
  exists a. split; [exact H3|]. split; [exact Hc|].
  intros art H. apply H4 in H as [[]|H]. simpl in H.
  destruct (currentArtifact st2) as [art2|]; [|discriminate].
  injection H as <-. simpl. apply last_snoc.
Qed.

Lemma parseState_no_close (messageId input : string) (st : State) :
  execAll noFlags actionClose (slice input (position st)) = [] ->
  streamedActions (snd (parseState messageId input st)) = [].
Proof.
  intros Hc. unfold parseState. rewrite Hc. cbn [fold_left].
  match goal with |- context [fold_left onArtifactClose ?l ?acc] =>
    pose proof (fold_onArtifactClose_spec l acc) as Hspec;
    destruct (fold_left onArtifactClose l acc) as [st4 log4] end.
  destruct Hspec as (_ & _ & H3 & _). exact H3.
Qed.

Lemma parse_eq (p : Parser) (messageId input : string) :
  parse p messageId input =
  (<[messageId := fst (parseState messageId input (stateOf p messageId))]> p,
   snd (parseState messageId input (stateOf p messageId))).
Proof.
  unfold parse. destruct (parseState _ _ _). reflexivity.
Qed.

Lemma stateOf_insert (p : Parser) (messageId : string) (st : State) :
  stateOf (<[messageId := st]> p) messageId = st.
Proof. unfold stateOf. rewrite lookup_insert_eq. reflexivity. Qed.

(** C10: when the text scanned by one call holds a match of the
    action-open pattern and a match of the action-close pattern, the
    call streams exactly one action, its content is empty, and it is
    the last action of every artifact the call completes or leaves
    open; so an action streamed with a non-empty content was opened by
    an earlier call. *)
Theorem C10_action_closed_in_same_call_is_empty
  (p : Parser) (messageId input : string) :
  let newContent := slice input (position (stateOf p messageId)) in
  let out := parse p messageId input in
  (execAll noFlags actionOpen newContent <> [] ->
   execAll noFlags actionClose newContent <> [] ->
   exists a,
     streamedActions (snd out) = [a] /\
     Action.content a = "" /\
     forall art,
       In art (completedArtifacts (snd out)) \/
       currentArtifact (stateOf (fst out) messageId) = Some art ->
       last (Artifact.actions art) = Some a) /\
  (forall a,
      In a (streamedActions (snd out)) ->
      Action.content a <> "" ->
      execAll noFlags actionOpen newContent = []).
Proof.
  intros newContent out. subst out. rewrite parse_eq. cbn [fst snd].
  rewrite stateOf_insert.
  pose proof (parseState_open_close messageId input (stateOf p messageId))
    as Main. cbn zeta in Main. fold newContent in Main.
  split; [exact Main|].
  intros a Hin Hne.
  destruct (execAll noFlags actionOpen newContent) as [|mo mos] eqn:Eo;
    [reflexivity|exfalso].
  destruct (execAll noFlags actionClose newContent) as [|mc mcs] eqn:Ec.
  - rewrite (parseState_no_close _ _ _ Ec) in Hin. exact Hin.
  - destruct Main as (a' & Hs & Hc & _); [discriminate|discriminate|].
    rewrite Hs in Hin. destruct Hin as [<-|[]]. contradiction.
Qed.

End StreamingClaims.

Section StreamingSamples.
Import Regex StreamingParser.

Lemma C10_action_closed_in_same_call_is_empty_witness :
  exists a,
    streamedActions (snd (parse ∅ "m" sampleText)) = [a] /\
    Action.content a = "" /\
    forall art,
      In art (completedArtifacts (snd (parse ∅ "m" sampleText))) \/
      currentArtifact (stateOf (fst (parse ∅ "m" sampleText)) "m") = Some art ->
      last (Artifact.actions art) = Some a.
Proof.
  apply (proj1 (C10_action_closed_in_same_call_is_empty ∅ "m" sampleText));
    vm_compute; discriminate.
Defined.

(** C1, the failing input: the sample text parsed in one call completes
    an artifact whose action has an empty content; parsed as its first
    70 characters and then as a whole, it completes an artifact whose
    action holds those 70 characters, tags included; parsed as its
    first 10 characters (a cut inside the opening tag) and then as a
    whole, it completes no artifact at all. *)
Theorem C1_growing_prefixes_change_the_artifacts :
  completedArtifacts (snd (parse ∅ "m" sampleText))
  = [Artifact.mk "a" "t" [Action.mk "file" None "" "m-1"]] /\
  completedArtifacts (snd (parseAll ∅ "m" [take 70 sampleText; sampleText]))
  = [Artifact.mk "a" "t" [Action.mk "file" None (take 70 sampleText) "m-1"]] /\
  completedArtifacts (snd (parseAll ∅ "m" [take 10 sampleText; sampleText]))
  = [].
Proof. repeat split; vm_compute; reflexivity. Qed.

End StreamingSamples.

(** ** The block classifier *)

Section ClassifierClaims.
Import Regex MessageParser.

Lemma visit_inv (P0 : gset string) (m : string)
  (classify : nat -> option ParsedContent * nat) (run : Run) :
  runInv P0 run -> runInv P0 (visit m classify run).
Proof.
  intros [Hsub Hres]. unfold visit.
  destruct (decide (hashBlock m ∈ processed run)) as [Hin|Hnin];
    [split; assumption|].
  destruct (classify (counter run)) as [parsed counter'].
  split; simpl.
  - intros x Hx. apply elem_of_union. right. apply Hsub, Hx.
  - intros m' Hm'.
    assert (Hcase : In m' (map fst (results run)) \/ m' = m).
    { destruct parsed; [|auto]. rewrite map_app in Hm'.
      apply in_app_or in Hm' as [H|[H|[]]]; auto. }
    destruct Hcase as [H| ->].
    + destruct (Hres m' H) as [H1 H2]. split; [|exact H2].
      apply elem_of_union. right. exact H1.
    + split.
      * apply elem_of_union. left. apply elem_of_singleton. reflexivity.
      * intros Hp. apply Hnin, Hsub, Hp.
Qed.

Lemma fold_visit_inv {A : Type} (f : Run -> A -> Run) (P0 : gset string)
  (l : list A) (run : Run) :
  (forall r x, exists m classify, f r x = visit m classify r) ->
  runInv P0 run -> runInv P0 (fold_left f l run).
Proof.
  intros Hf. revert run; induction l as [|x l IH]; intros run H; [exact H|].
  simpl. apply IH. destruct (Hf run x) as (m & classify & ->).
  apply visit_inv, H.
Qed.

Lemma parseTraced_inv (now : nat) (p : Parser) (messageId input : string) :
  let out := parseTraced now p messageId input in
  forall m, In m (map fst (snd out)) ->
            hashBlock m ∈ processedOf (fst out) messageId /\
            hashBlock m ∉ processedOf p messageId.
Proof.
  intros out m Hm. subst out. unfold parseTraced in *. simpl in *.
  unfold processedOf at 1. simpl. rewrite lookup_insert_eq.
  match type of Hm with context [results ?r] => set (run2 := r) in * end.
  assert (Inv : runInv (processedOf p messageId) run2).
  { subst run2. apply fold_visit_inv.
    - intros r x. eexists _, _. reflexivity.
    - apply fold_visit_inv.
      + intros r x. eexists _, _. reflexivity.
      + split; simpl; [set_solver|intros ? []]. }
  apply Inv, Hm.
Qed.

Lemma parseTraced_grows (now : nat) (p : Parser) (messageId' input messageId : string) :
  processedOf p messageId
  ⊆ processedOf (fst (parseTraced now p messageId' input)) messageId.
Proof.
  unfold parseTraced. simpl. unfold processedOf at 2. simpl.
  destruct (decide (messageId' = messageId)) as [->|Hne].
  - rewrite lookup_insert_eq.
    match goal with |- _ ⊆ processed ?r => set (run2 := r) end.
    assert (Inv : runInv (processedOf p messageId) run2).
    { subst run2. apply fold_visit_inv.
      - intros r x. eexists _, _. reflexivity.
      - apply fold_visit_inv.
        + intros r x. eexists _, _. reflexivity.
        + split; simpl; [intros x Hx; exact Hx|intros ? []]. }
    apply Inv.
  - rewrite lookup_insert_ne by exact Hne. intros x Hx. exact Hx.
Qed.

Lemma parseMany_grows (calls : list Call) (p : Parser) (messageId : string) :
  processedOf p messageId ⊆ processedOf (parseMany p calls) messageId.
Proof.
  revert p; induction calls as [|c calls IH]; intros p; [intros x Hx; exact Hx|].
  simpl. intros x Hx. apply IH. revert x Hx. apply parseTraced_grows.
Qed.

(** C6: for two calls on the same message, whatever calls were made in
    between, no text matched for a block returned by the first call is
    the matched text of a block returned by the second call. *)
Theorem C6_no_matched_text_returned_twice
  (now1 now2 : nat) (p : Parser) (messageId text1 text2 : string)
  (between : list Call) :
  let first := parseTraced now1 p messageId text1 in
  let second := parseTraced now2 (parseMany (fst first) between) messageId text2 in
  forall m, In m (map fst (snd first)) -> ~ In m (map fst (snd second)).
Proof.
  intros first second m H1 H2.
  apply (parseTraced_inv now1 p messageId text1) in H1 as [H1 _].
  apply (parseTraced_inv now2 _ messageId text2) in H2 as [_ H2].
  apply H2. revert H1. apply parseMany_grows.
Qed.

Lemma C6_no_matched_text_returned_twice_witness :
  In sampleMatch (map fst (snd (parseTraced 0 newParser "m" sampleMarkdown))) /\
  ~ In sampleMatch
      (map fst (snd (parseTraced 1
                       (parseMany
                          (fst (parseTraced 0 newParser "m" sampleMarkdown)) [])
                       "m" (sampleMarkdown +:+ sampleMarkdown)))).
Proof.
  assert (H : In sampleMatch
                (map fst (snd (parseTraced 0 newParser "m" sampleMarkdown)))).
  { vm_compute. left. reflexivity. }
  split; [exact H|].
  exact (C6_no_matched_text_returned_twice 0 1 newParser "m" sampleMarkdown
           (sampleMarkdown +:+ sampleMarkdown) [] sampleMatch H).
Defined.

Lemma parse_untraced (now : nat) (p : Parser) (messageId input : string) :
  snd (parse now p messageId input)
  = map snd (snd (parseTraced now p messageId input)) /\
  fst (parse now p messageId input) = fst (parseTraced now p messageId input).
Proof. unfold parse. destruct (parseTraced _ _ _ _). split; reflexivity. Qed.

(** C7 as stated fails: the [bash] block made of the two lines [#a;b]
    and [#c;d] does not look like a script and each of its lines passes
    the single-line command test, yet it is not labelled a command; the
    block made of two lines [ls -la;] is labelled a command although
    none of its lines passes the test. *)
Lemma C7_single_line_test_is_not_the_criterion :
  isShellLang "bash" = true /\
  (looksLikeScriptContent (trim hashLines) = false /\
   1 < length (nonEmptyLines hashLines) /\
   ~ (isShellCommand hashLines "bash" = true <->
      70 * length (nonEmptyLines hashLines)
      < 100 * length (List.filter isSingleLineCommand (nonEmptyLines hashLines)))) /\
  (looksLikeScriptContent (trim semicolonLines) = false /\
   1 < length (nonEmptyLines semicolonLines) /\
   ~ (isShellCommand semicolonLines "bash" = true <->
      70 * length (nonEmptyLines semicolonLines)
      < 100 * length (List.filter isSingleLineCommand
                        (nonEmptyLines semicolonLines)))).
Proof.
  split; [reflexivity|]. split.
  - split; [vm_compute; reflexivity|]. split; [vm_compute; lia|].
    intros [_ H]. assert (E : isShellCommand hashLines "bash" = false)
      by (vm_compute; reflexivity).
    rewrite E in H. discriminate H. vm_compute. lia.
  - split; [vm_compute; reflexivity|]. split; [vm_compute; lia|].
    intros [H _]. assert (E : isShellCommand semicolonLines "bash" = true)
      by (vm_compute; reflexivity).
    specialize (H E). vm_compute in H. lia.
Qed.

(** C7, amended: a block in a shell language that does not look like a
    script and has more than one non-empty line is labelled a command
    exactly when strictly more than 70% of its non-empty lines are
    command-like: not starting with [#], and passing the single-line
    command test or the simple-command test. *)
Theorem C7_command_sequence_ratio (content language : string) :
  isShellLang language = true ->
  looksLikeScriptContent (trim content) = false ->
  1 < length (nonEmptyLines content) ->
  (isShellCommand content language = true <->
   70 * length (nonEmptyLines content)
   < 100 * length (List.filter commandLike (nonEmptyLines content))).
Proof.
  intros Hlang Hscript Hlen. unfold isShellCommand.
  rewrite Hlang, Hscript. simpl negb. cbv iota.
  destruct (nonEmptyLines content) as [|l1 [|l2 ls]] eqn:E;
    [simpl in Hlen; lia | simpl in Hlen; lia |].
  unfold isCommandSequence. rewrite Nat.ltb_lt. lia.
Qed.

Lemma C7_command_sequence_ratio_witness :
  isShellCommand fourLines "sh" = true /\ isShellCommand threeLines "sh" = false.
Proof.
  split.
  - apply (proj2 (C7_command_sequence_ratio fourLines "sh"
                    ltac:(vm_compute; reflexivity)
                    ltac:(vm_compute; reflexivity)
                    ltac:(vm_compute; lia))).
    vm_compute. lia.
  - destruct (isShellCommand threeLines "sh") eqn:E; [|reflexivity].
    apply (proj1 (C7_command_sequence_ratio threeLines "sh"
                    ltac:(vm_compute; reflexivity)
                    ltac:(vm_compute; reflexivity)
                    ltac:(vm_compute; lia))) in E.
    vm_compute in E. lia.
Defined.

End ClassifierClaims.

(** ** The lock manager *)

Section LockClaims.
Import FileStore.

Lemma startsWith_app_self (p s : string) : startsWith (p +:+ s) p = true.
Proof.
  induction p as [|a p IH]; [reflexivity|].
  simpl. rewrite Ascii.eqb_refl. exact IH.
Qed.

Lemma startsWith_longer (s p : string) :
  String.length s < String.length p -> startsWith s p = false.
Proof.
  intros H. destruct (startsWith s p) eqn:E; [|reflexivity].
  apply startsWith_length in E. lia.
Qed.

Lemma length_append (s t : string) :
  String.length (s +:+ t) = String.length s + String.length t.
Proof. induction s as [|a s IH]; simpl; [reflexivity|now rewrite IH]. Qed.

Lemma under_folder_differs (folderPath path : string) :
  startsWith path (folderPath +:+ "/") = true -> folderPath <> path.
Proof.
  intros H ->. rewrite startsWith_longer in H; [discriminate|].
  rewrite length_append. simpl. lia.
Qed.

Lemma lockFolder_lookup (folderPath path : string) (files : FileMap)
  (folder : Folder.t) :
  files !! folderPath = Some (DFolder folder) ->
  folderPath <> path ->
  snd (lockFolder folderPath files) !! path
  = lockUnder folderPath path <$> files !! path.
Proof.
  intros Hf Hne. unfold lockFolder. rewrite Hf. simpl.
  rewrite map_lookup_imap, lookup_insert_ne by exact Hne.
  destruct (files !! path); reflexivity.
Qed.

Lemma lockFolder_folder (folderPath : string) (files : FileMap)
  (folder : Folder.t) :
  files !! folderPath = Some (DFolder folder) ->
  snd (lockFolder folderPath files) !! folderPath
  = Some (DFolder (Folder.mk (Some true) (Folder.lockedByFolder folder))).
Proof.
  intros Hf. unfold lockFolder. rewrite Hf. simpl.
  rewrite map_lookup_imap, lookup_insert_eq. reflexivity.
Qed.

Lemma unlockFolder_lookup (folderPath path : string) (files : FileMap)
  (folder : Folder.t) :
  files !! folderPath = Some (DFolder folder) ->
  folderPath <> path ->
  snd (unlockFolder folderPath files) !! path
  = unlockUnder folderPath path <$> files !! path.
Proof.
  intros Hf Hne. unfold unlockFolder. rewrite Hf. simpl.
  rewrite map_lookup_imap, lookup_insert_ne by exact Hne.
  destruct (files !! path); reflexivity.
Qed.

(** What [unlockFolder] does keep: a file whose [lockedByFolder] is not
    the folder being unlocked is left as it is. *)
Lemma unlockFolder_keeps_other_locks (folderPath path : string)
  (files : FileMap) (folder : Folder.t) (file : File.t) :
  files !! folderPath = Some (DFolder folder) ->
  files !! path = Some (DFile file) ->
  File.lockedByFolder file <> Some folderPath ->
  snd (unlockFolder folderPath files) !! path = Some (DFile file).
Proof.
  intros Hf Hp Hl.
  assert (Hne : folderPath <> path) by (intros ->; congruence).
  rewrite (unlockFolder_lookup _ _ _ _ Hf Hne), Hp. simpl.
  destruct (startsWith path (folderPath +:+ "/")); [|reflexivity].
  destruct (decide (File.lockedByFolder file = Some folderPath));
    [contradiction|reflexivity].
Qed.

(** The defect in general: a file under a folder, locked by [lockFile],
    is tagged with the folder by [lockFolder] like any other file, and
    [unlockFolder] then unlocks it. *)
Lemma independent_lock_overwritten (folderPath path : string)
  (files : FileMap) (folder : Folder.t) (file : File.t) :
  files !! folderPath = Some (DFolder folder) ->
  files !! path = Some (DFile file) ->
  startsWith path (folderPath +:+ "/") = true ->
  let files1 := snd (lockFile path files) in
  let files2 := snd (lockFolder folderPath files1) in
  let files3 := snd (unlockFolder folderPath files2) in
  files1 !! path
  = Some (DFile (File.mk (File.content file) (File.isBinary file) (Some true)
                   (File.lockedByFolder file))) /\
  files3 !! path
  = Some (DFile (File.mk (File.content file) (File.isBinary file) (Some false)
                   None)).
Proof.
  intros Hf Hp Hs files1 files2 files3.
  pose proof (under_folder_differs _ _ Hs) as Hne.
  assert (H1 : files1 !! path
               = Some (DFile (File.mk (File.content file) (File.isBinary file)
                                (Some true) (File.lockedByFolder file)))).
  { subst files1. unfold lockFile. rewrite Hp. simpl.
    apply lookup_insert_eq. }
  assert (H1f : files1 !! folderPath = Some (DFolder folder)).
  { subst files1. unfold lockFile. rewrite Hp. simpl.
    rewrite lookup_insert_ne by congruence. exact Hf. }
  split; [exact H1|].
  assert (H2 : files2 !! path
               = Some (DFile (File.mk (File.content file) (File.isBinary file)
                                (Some true) (Some folderPath)))).
  { subst files2. rewrite (lockFolder_lookup _ _ _ _ H1f Hne), H1. simpl.
    rewrite Hs. reflexivity. }
  pose proof (unlockFolder_lookup folderPath path files2 _
                (lockFolder_folder _ _ _ H1f) Hne) as E.
  subst files3. rewrite E, H2.
  simpl. rewrite Hs. rewrite decide_True by reflexivity. reflexivity.
Qed.

(** C2, the failing input: [/src/b.js] is locked by [lockFile] while
    its [lockedByFolder] is unset; [lockFolder] on [/src] overwrites
    the tag, and [unlockFolder] on [/src] leaves the file unlocked. *)
Theorem C2_independent_lock_is_lost :
  let files1 := snd (lockFile "/src/b.js" sampleFiles) in
  let files2 := snd (lockFolder "/src" files1) in
  let files3 := snd (unlockFolder "/src" files2) in
  files1 !! "/src/b.js" = Some (DFile (File.mk "x" false (Some true) None)) /\
  files2 !! "/src/b.js"
  = Some (DFile (File.mk "x" false (Some true) (Some "/src"))) /\
  files3 !! "/src/b.js" = Some (DFile (File.mk "x" false (Some false) None)) /\
  isFileLocked "/src/b.js" files3 = (false, None).
Proof. repeat split; vm_compute; reflexivity. Qed.

End LockClaims.

(** ** The command scheduler *)

Section SchedulerClaims.
Import CommandQueue.

Lemma admitWhileRoom_spec (limit : nat) (qu ru fl : list Command) :
  let '(qu', ru', fl') := admitWhileRoom limit qu ru fl in
  (length ru <= limit -> length ru' <= limit) /\
  length ru <= length ru' /\
  (forallb isPending qu = true -> forallb isPending qu' = true) /\
  (forallb isRunning ru = true -> forallb isRunning ru' = true).
Proof.
  revert ru fl; induction qu as [|c qu IH]; intros ru fl; simpl.
  - auto.
  - destruct (length ru <? limit) eqn:E.
    + specialize (IH (ru ++ [withStatus Running c]) (fl ++ [withStatus Running c])).
      destruct (admitWhileRoom limit qu _ _) as [[qu' ru'] fl'].
      destruct IH as (H1 & H2 & H3 & H4). rewrite length_app in *. simpl in *.
      apply Nat.ltb_lt in E.
      split; [intros _; apply H1; lia|]. split; [lia|].
      split.
      * intros H. apply andb_true_iff in H as [_ H]. auto.
      * intros H. apply H4. rewrite forallb_app, H. reflexivity.
    + simpl. auto.
Qed.

Lemma processQueue_inv (N : nat) (q : Queue) :
  queueInv N q -> queueInv N (processQueue q).
Proof.
  intros [Hl Hi Hb Hq Hr Hc]. unfold processQueue. rewrite Hi. simpl.
  destruct (maxConcurrent q <=? length (running q)); [now constructor|].
  pose proof (admitWhileRoom_spec (maxConcurrent q) (queue q) (running q) (inFlight q))
    as H.
  destruct (admitWhileRoom _ _ _ _) as [[qu' ru'] fl'].
  destruct H as (H1 & H2 & H3 & H4).
  constructor; simpl; auto. rewrite <- Hl. apply H1. lia.
Qed.

Lemma processQueue_running_grows (q : Queue) :
  length (running q) <= length (running (processQueue q)).
Proof.
  unfold processQueue.
  destruct (isProcessing q || (maxConcurrent q <=? length (running q)));
    [lia|].
  pose proof (admitWhileRoom_spec (maxConcurrent q) (queue q) (running q) (inFlight q))
    as H.
  destruct (admitWhileRoom _ _ _ _) as [[qu' ru'] fl']. simpl. tauto.
Qed.

Lemma filter_length_le {A : Type} (f : A -> bool) (l : list A) :
  length (List.filter f l) <= length l.
Proof.
  induction l as [|x l IH]; simpl; [lia|]. destruct (f x); simpl; lia.
Qed.

Lemma forallb_filter {A : Type} (f g : A -> bool) (l : list A) :
  forallb f l = true -> forallb f (List.filter g l) = true.
Proof.
  induction l as [|x l IH]; simpl; [auto|]. intros H.
  apply andb_true_iff in H as [Hx Hl]. destruct (g x); simpl; auto.
  rewrite Hx. auto.
Qed.

Lemma settled_not_running (c : Command) (o : Outcome) :
  isRunning (settled c o) = false.
Proof. destruct o; reflexivity. Qed.

Lemma step_inv (N : nat) (q : Queue) (e : Event) :
  queueInv N q -> queueInv N (step q e).
Proof.
  intros [Hl Hi Hb Hq Hr Hc]. destruct e as [newId text t now|k o|i|]; simpl.
  - unfold addCommand. apply processQueue_inv. constructor; simpl; auto.
    rewrite forallb_app, Hq. reflexivity.
  - unfold finish. destruct (nth_error (inFlight q) k) as [c|];
      [|now constructor].
    apply processQueue_inv. constructor; simpl; auto.
    + pose proof (filter_length_le (otherId (id c)) (running q)). lia.
    + apply forallb_filter, Hr.
    + rewrite forallb_app, Hc. simpl. rewrite settled_not_running. reflexivity.
  - unfold retryCommand.
    destruct (find _ (completed q)) as [c|]; [|now constructor].
    apply processQueue_inv. constructor; simpl; auto.
    + rewrite forallb_app, Hq. reflexivity.
    + apply forallb_filter, Hc.
  - constructor; simpl; auto.
Qed.

Lemma run_inv (N : nat) (events : list Event) (q : Queue) :
  queueInv N q -> queueInv N (run q events).
Proof.
  revert q; induction events as [|e events IH]; intros q H; [exact H|].
  simpl. apply IH, step_inv, H.
Qed.

Lemma newQueue_inv (N : nat) : queueInv N (newQueue N).
Proof. constructor; simpl; auto; lia. Qed.

Lemma filter_none {A : Type} (f : A -> bool) (l : list A) :
  forallb (fun x => negb (f x)) l = true -> List.filter f l = [].
Proof.
  induction l as [|x l IH]; simpl; [auto|]. intros H.
  apply andb_true_iff in H as [Hx Hl]. destruct (f x); [discriminate|auto].
Qed.

Lemma filter_all {A : Type} (f : A -> bool) (l : list A) :
  forallb f l = true -> List.filter f l = l.
Proof.
  induction l as [|x l IH]; simpl; [auto|]. intros H.
  apply andb_true_iff in H as [Hx Hl]. rewrite Hx, IH; auto.
Qed.

Lemma pending_not_running (l : list Command) :
  forallb isPending l = true ->
  forallb (fun c => negb (isRunning c)) l = true.
Proof.
  induction l as [|c l IH]; simpl; [auto|]. intros H.
  apply andb_true_iff in H as [Hc Hl]. rewrite IH by exact Hl.
  unfold isPending, isRunning in *. destruct (status c); auto.
Qed.

Lemma step_running_shrinks (q : Queue) (e : Event) :
  length (running (step q e)) < length (running q) ->
  exists k o, e = Finish k o.
Proof.
  destruct e as [newId text t now|k o|i|]; simpl; intros H.
  - unfold addCommand in H.
    match type of H with context [processQueue ?x] =>
      pose proof (processQueue_running_grows x) end. simpl in *. lia.
  - eauto.
  - unfold retryCommand in H.
    destruct (find _ (completed q)); [|lia].
    match type of H with context [processQueue ?x] =>
      pose proof (processQueue_running_grows x) end. simpl in *. lia.
  - simpl in H. lia.
Qed.

(** C8: in every state reached from a new queue with limit [N], by any
    sequence of method calls and ends of executions, the queue reports
    at most [N] running commands and at most [N] of the commands it
    knows have the status running; a step that makes the running list
    longer starts where it is shorter than [N], and a step that makes
    it shorter is the end of an execution. *)
Theorem C8_running_never_exceeds_limit (N : nat) (events : list Event) :
  let q := run (newQueue N) events in
  reportedRunning q <= N /\
  length (List.filter isRunning (known q)) <= N /\
  (forall e, length (running q) < length (running (step q e)) ->
             length (running q) < N) /\
  (forall e, length (running (step q e)) < length (running q) ->
             exists k o, e = Finish k o).
Proof.
  intros q. pose proof (run_inv N events _ (newQueue_inv N)) as Inv.
  fold q in Inv. destruct Inv as [Hl Hi Hb Hq Hr Hc] eqn:EI.
  split; [exact Hb|]. split.
  - unfold known. rewrite !List.filter_app.
    rewrite (filter_none _ _ (pending_not_running _ Hq)).
    rewrite (filter_all _ _ Hr), (filter_none _ _ Hc).
    rewrite app_nil_r. exact Hb.
  - split.
    + intros e He.
      pose proof (inv_bound _ _ (step_inv N q e (mkQueueInv N q Hl Hi Hb Hq Hr Hc))).
      lia.
    + intros e. apply step_running_shrinks.
Qed.

End SchedulerClaims.

(** ** The debounced batcher *)

Section BatcherClaims.
Import DebouncedUpdater.

Lemma scheduleUpdate_timer (u : Updater) :
  timeoutId (scheduleUpdate u) = Some (nextTimer u) /\
  In (nextTimer u) (pendingTimers (scheduleUpdate u)).
Proof.
  unfold scheduleUpdate. simpl. split; [reflexivity|].
  apply in_or_app. right. left. reflexivity.
Qed.

(** Additions touch neither the processing flag nor the batches handed
    so far, and the last of them leaves its timer pending. *)
Lemma additions_spec (adds : list Event) (u : Updater) :
  forallb isAddition adds = true ->
  isProcessing (run u adds) = isProcessing u /\
  handed (run u adds) = handed u /\
  awaited (run u adds) = awaited u /\
  log (run u adds) = log u /\
  (adds <> [] ->
   exists t, timeoutId (run u adds) = Some t /\
             In t (pendingTimers (run u adds))).
Proof.
  induction adds as [|e adds IH] using rev_ind; intros Hall.
  - simpl. repeat split; auto. intros []. reflexivity.
  - rewrite forallb_app in Hall. apply andb_true_iff in Hall as [Hall He].
    specialize (IH Hall). destruct IH as (I1 & I2 & I3 & I4 & _).
    unfold run in *. rewrite fold_left_app. simpl.
    set (v := fold_left step adds u) in *.
    destruct e as [path content|command| | |]; simpl in He; try discriminate;
      simpl; (repeat split; auto; intros _; eexists; apply scheduleUpdate_timer).
Qed.

Lemma added_command_is_pending (adds : list Event) (u : Updater) (c : string) :
  forallb isAddition adds = true ->
  In (AddCommand c) adds ->
  In c (pendingCommands (run u adds)) /\ hasPendingUpdates (run u adds) = true.
Proof.
  intros Hall Hin.
  assert (H : In c (pendingCommands (run u adds))).
  { revert u. induction adds as [|e adds IH]; intros u; [destruct Hin|].
    simpl in Hall. apply andb_true_iff in Hall as [He Hall]. simpl.
    destruct Hin as [->|Hin]; [|apply IH; auto].
    clear IH. simpl.
    assert (G : forall l v, forallb isAddition l = true ->
                  In c (pendingCommands v) ->
                  In c (pendingCommands (run v l))).
    { clear. induction l as [|e l IH]; intros v Hl Hv; [exact Hv|].
      simpl in Hl. apply andb_true_iff in Hl as [He Hl]. simpl.
      apply IH; [exact Hl|].
      destruct e; simpl in He; try discriminate; simpl; auto.
      apply in_or_app. auto. }
    apply G; [exact Hall|]. simpl. apply in_or_app. right. left. reflexivity. }
  split; [exact H|]. unfold hasPendingUpdates.
  destruct (pendingCommands (run u adds)); [destruct H|].
  apply orb_true_r.
Qed.

Lemma existsb_eqb_In (t : nat) (l : list nat) :
  In t l -> existsb (Nat.eqb t) l = true.
Proof.
  intros H. apply existsb_exists. exists t. split; [exact H|].
  apply Nat.eqb_refl.
Qed.

(** C9: when the handler of the awaited batch fails, the failure is
    written to the console, the pending buffers and the batches handed
    so far stay as they are (the batch is not queued again and not
    handed again), and the updater is idle again: after any additions
    that leave something pending, the timer of the last addition is
    pending, and when it fires, or on [flush], one new batch holding
    all that is pending is handed to the handler and the buffers are
    emptied; a command added is part of it. *)
Theorem C9_handler_failure_is_contained
  (u : Updater) (batch : UpdateBatch) (err : string) :
  awaited u = Some batch ->
  let u' := step u (HandlerSettles (Rejects err)) in
  log u' = log u ++ [BatchFailed (id batch) err] /\
  pendingFiles u' = pendingFiles u /\
  pendingCommands u' = pendingCommands u /\
  handed u' = handed u /\
  isProcessing u' = false /\
  forall (adds : list Event) (now : nat) (batchId : string),
    adds <> [] ->
    forallb isAddition adds = true ->
    let u2 := run u' adds in
    let next := mkBatch (pendingFiles u2) (pendingCommands u2) now batchId in
    (forall c, In (AddCommand c) adds ->
               In c (commands next) /\ hasPendingUpdates u2 = true) /\
    (hasPendingUpdates u2 = true ->
     exists t,
       timeoutId u2 = Some t /\
       In t (pendingTimers u2) /\
       handed (step u2 (TimerFires t now batchId)) = handed u ++ [next] /\
       pendingFiles (step u2 (TimerFires t now batchId)) = ∅ /\
       pendingCommands (step u2 (TimerFires t now batchId)) = [] /\
       handed (step u2 (Flush now batchId)) = handed u ++ [next]).
Proof.
  intros Haw u'. subst u'. simpl. unfold settle. rewrite Haw. simpl.
  repeat (split; [reflexivity|]).
  intros adds now batchId Hne Hall.
  match goal with |- context [run ?v adds] => set (u1 := v) end.
  destruct (additions_spec adds u1 Hall) as (I1 & I2 & I3 & I4 & I5).
  split.
  { intros c Hc. simpl. apply added_command_is_pending; assumption. }
  intros Hp. destruct (I5 Hne) as (t & Ht & Hin). exists t.
  split; [exact Ht|]. split; [exact Hin|].
  unfold timerFires, flush, processBatch.
  rewrite (existsb_eqb_In _ _ Hin), Ht. simpl.
  unfold hasPendingUpdates in *. simpl. rewrite I1, Hp, I2. simpl.
  repeat split; reflexivity.
Qed.

End BatcherClaims.

(** ** The scheduler and the batcher on sample runs *)

Section SampleRuns.

Lemma C8_running_never_exceeds_limit_witness :
  CommandQueue.reportedRunning
    (CommandQueue.run CommandQueue.defaultQueue fiveCommands) <= 2 /\
  length (CommandQueue.running
            (CommandQueue.run (CommandQueue.newQueue 2)
               [CommandQueue.AddCommand "cmd_1" "ls" CommandQueue.custom 1])) < 2.
Proof.
  split.
  - exact (proj1 (C8_running_never_exceeds_limit 2 fiveCommands)).
  - apply (proj1 (proj2 (proj2 (C8_running_never_exceeds_limit 2
              [CommandQueue.AddCommand "cmd_1" "ls" CommandQueue.custom 1])))
             (CommandQueue.AddCommand "cmd_2" "pwd" CommandQueue.custom 2)).
    vm_compute. lia.
Defined.

Lemma C9_handler_failure_is_contained_witness :
  DebouncedUpdater.log
    (DebouncedUpdater.step sampleAwaiting
       (DebouncedUpdater.HandlerSettles (DebouncedUpdater.Rejects "boom")))
  = DebouncedUpdater.log sampleAwaiting
    ++ [DebouncedUpdater.BatchFailed "batch_1" "boom"] /\
  DebouncedUpdater.pendingFiles
    (DebouncedUpdater.step sampleAwaiting
       (DebouncedUpdater.HandlerSettles (DebouncedUpdater.Rejects "boom")))
  = DebouncedUpdater.pendingFiles sampleAwaiting.
Proof.
  pose proof (C9_handler_failure_is_contained sampleAwaiting sampleBatch "boom"
                eq_refl) as H.
  split; [exact (proj1 H)|exact (proj1 (proj2 H))].
Defined.

End SampleRuns.

(** ** The documented examples of the scheduler, the batcher and the
    lock manager *)

Section DocumentedExamples.

(** [retryCommand] on a completed command changes nothing. *)
Example retry_completed_is_a_no_op :
  CommandQueue.retryCommand "cmd_1"
    (CommandQueue.run CommandQueue.defaultQueue
       [ CommandQueue.AddCommand "cmd_1" "ls" CommandQueue.custom 1;
         CommandQueue.Finish 0 (CommandQueue.Succeeds "Executed: ls" 500) ])
  = CommandQueue.run CommandQueue.defaultQueue
      [ CommandQueue.AddCommand "cmd_1" "ls" CommandQueue.custom 1;
        CommandQueue.Finish 0 (CommandQueue.Succeeds "Executed: ls" 500) ].
Proof. vm_compute. reflexivity. Qed.

(** Five commands with the default limit: two run, three wait. *)
Example five_commands_two_running :
  length (CommandQueue.running
            (CommandQueue.run CommandQueue.defaultQueue fiveCommands)) = 2 /\
  length (CommandQueue.queue
            (CommandQueue.run CommandQueue.defaultQueue fiveCommands)) = 3.
Proof. split; vm_compute; reflexivity. Qed.

(** A file, then a command before the timer of the file fires: the
    first timer is cleared, and the second hands one batch with both. *)
Example file_then_command_make_one_batch :
  DebouncedUpdater.handed
    (DebouncedUpdater.run DebouncedUpdater.newUpdater
       [ DebouncedUpdater.AddFile "/a.js" "1";
         DebouncedUpdater.AddCommand "npm install";
         DebouncedUpdater.TimerFires 0 10 "batch_0";
         DebouncedUpdater.TimerFires 1 20 "batch_1" ])
  = [ DebouncedUpdater.mkBatch (<["/a.js" := "1"]> ∅) ["npm install"] 20
        "batch_1" ].
Proof. vm_compute. reflexivity. Qed.

(** A file created after its folder was locked is not locked; locking
    the folder again locks it. *)
Example lock_then_create_then_lock :
  FileStore.isFileLocked "/src/a.js"
    (FileStore.createFile "/src/a.js" ""
       (snd (FileStore.lockFolder "/src" (FileStore.createFolder "/src" ∅))))
  = (false, None) /\
  FileStore.isFileLocked "/src/a.js"
    (snd (FileStore.lockFolder "/src"
            (FileStore.createFile "/src/a.js" ""
               (snd (FileStore.lockFolder "/src"
                       (FileStore.createFolder "/src" ∅))))))
  = (true, Some "/src").
Proof. split; vm_compute; reflexivity. Qed.

End DocumentedExamples.

(** * Further properties of the code *)

(** ** The patch engine: routing, ranges, literal replacement, extraction *)

Section PatchExtras.
Import DiffPatch.

Lemma indexOf_includes (s p : string) (from i : nat) :
  indexOf s p from = Some i -> includes s p = true.
Proof.
  revert s i; induction from as [|n IH]; intros s i H.
  - rewrite indexOf_zero in H. unfold includes. now rewrite H.
  - destruct s as [|c s].
    + rewrite indexOf_empty in H. unfold includes. now rewrite H.
    + change (option_map S (indexOf s p n) = Some i) in H.
      destruct (indexOf s p n) as [j|] eqn:E; [|discriminate].
      apply IH in E. unfold includes in *. rewrite indexOf0_unfold.
      destruct (startsWith (String c s) p); [reflexivity|].
      destruct (indexOf0 s p); [reflexivity|discriminate].
Qed.

(** X1: a text in which [hasDiffBlocks] does not find all three markers
    is no patch: [applyDiffPatches] returns the original content, no
    touched range and [hasChanges = false]. *)
Theorem X1_text_without_markers_changes_nothing (original diff : string) :
  hasDiffBlocks diff = false ->
  applyDiffPatches original diff = mkDiffResult original [] false.
Proof.
  intros H.
  assert (N : nextBlock diff 0 = None).
  { unfold nextBlock.
    destruct (indexOf diff SEARCH_START 0) as [i|] eqn:Ei; [|reflexivity].
    destruct (indexOf diff DIVIDER i) as [d|] eqn:Ed; [|reflexivity].
    destruct (indexOf diff REPLACE_END d) as [e|] eqn:Ee; [|reflexivity].
    apply indexOf_includes in Ei, Ed, Ee. unfold hasDiffBlocks in H.
    rewrite Ei, Ed, Ee in H. discriminate. }
  unfold applyDiffPatches. simpl loop. unfold iteration. simpl position.
  rewrite N. reflexivity.
Qed.

Lemma X1_text_without_markers_changes_nothing_witness :
  applyDiffPatches "abc" (SEARCH_START +:+ nl +:+ "abc")
  = mkDiffResult "abc" [] false.
Proof.
  apply (X1_text_without_markers_changes_nothing "abc"
           (SEARCH_START +:+ nl +:+ "abc")).
  vm_compute. reflexivity.
Defined.

Lemma applyBlock_ranges (sb rb : string) (st : LoopState) :
  (changed st = true <-> touched st <> []) ->
  Forall (fun r => 1 <= fst r <= snd r) (touched st) ->
  (changed (applyBlock sb rb st) = true <-> touched (applyBlock sb rb st) <> []) /\
  Forall (fun r => 1 <= fst r <= snd r) (touched (applyBlock sb rb st)) /\
  length (touched (applyBlock sb rb st)) <= S (length (touched st)).
Proof.
  intros Hc Hr. unfold applyBlock.
  pose proof (lines_length_pos rb) as Lr.
  assert (NE : forall (l : list (nat * nat)) x, l ++ [x] <> [])
    by (intros [|? ?] ?; discriminate).
  destruct (isEmpty sb); simpl.
  - split; [split; [intros _; apply NE|reflexivity]|].
    split; [|rewrite length_app; simpl; lia].
    apply Forall_app. split; [exact Hr|]. constructor; [simpl; lia|constructor].
  - destruct (indexOf0 (content st) sb) as [p|]; simpl.
    + split; [split; [intros _; apply NE|reflexivity]|].
      split; [|rewrite length_app; simpl; lia].
      apply Forall_app. split; [exact Hr|].
      pose proof (lines_length_pos (substring (content st) 0 p)).
      constructor; [simpl; lia|constructor].
    + split; [exact Hc|]. split; [exact Hr|lia].
Qed.

Lemma nextBlock_advance (diff : string) (pos : nat) (sb rb : string) (pos' : nat) :
  nextBlock diff pos = Some (sb, rb, pos') ->
  pos + 15 <= pos' /\ pos' <= String.length diff.
Proof.
  unfold nextBlock.
  destruct (indexOf diff SEARCH_START pos) as [i|] eqn:Ei; [|discriminate].
  destruct (indexOf diff DIVIDER i) as [d|] eqn:Ed; [|discriminate].
  destruct (indexOf diff REPLACE_END d) as [e|] eqn:Ee; [|discriminate].
  intros [= _ _ <-].
  apply indexOf_bound in Ei; [|simpl; lia].
  apply indexOf_bound in Ed; [|simpl; lia].
  apply indexOf_bound in Ee; [|simpl; lia].
  change (String.length REPLACE_END) with 15 in *. lia.
Qed.

Lemma reachable_ranges (original diff : string) (st : LoopState) :
  reachable diff (initial original) st ->
  (changed st = true <-> touched st <> []) /\
  Forall (fun r => 1 <= fst r <= snd r) (touched st) /\
  15 * length (touched st) <= position st /\
  position st <= String.length diff.
Proof.
  induction 1 as [|st st' R IH E].
  - simpl. repeat split; try discriminate; try constructor; try lia.
    intros H. contradiction.
  - destruct IH as (I1 & I2 & I3 & I4). unfold iteration in E.
    destruct (nextBlock diff (position st)) as [[[sb rb] pos']|] eqn:N;
      [|discriminate].
    injection E as <-. simpl.
    destruct (applyBlock_ranges sb rb st I1 I2) as (A1 & A2 & A3).
    apply nextBlock_advance in N.
    repeat split; try apply A1; try exact A2; lia.
Qed.

(** X2: in the result of [applyDiffPatches], [hasChanges] is true
    exactly when [updatedLines] is not empty, and every touched range
    starts at line 1 or later and does not end before it starts. *)
Theorem X2_ranges_are_well_formed (original diff : string) :
  let r := applyDiffPatches original diff in
  (hasChanges r = true <-> updatedLines r <> []) /\
  Forall (fun range => 1 <= fst range <= snd range) (updatedLines r).
Proof.
  intros r. subst r. unfold applyDiffPatches.
  fold (run diff (initial original)).
  destruct (reachable_ranges original diff _
              (reachable_run diff (initial original))) as (H1 & H2 & _).
  split; [exact H1|exact H2].
Qed.

(** X3: the loop of [applyDiffPatches] ends by itself, in the state it
    returns no further block is found, and it has touched at most one
    range per 15 characters of the patch text (the length of the end
    marker that every iteration passes). *)
Theorem X3_loop_ends_within_the_patch_text (original diff : string) :
  iteration diff (run diff (initial original)) = None /\
  result (run diff (initial original)) = applyDiffPatches original diff /\
  15 * length (updatedLines (applyDiffPatches original diff))
  <= String.length diff.
Proof.
  split; [apply loop_exits; simpl; lia|]. split; [reflexivity|].
  unfold applyDiffPatches. fold (run diff (initial original)).
  destruct (reachable_ranges original diff _
              (reachable_run diff (initial original))) as (_ & _ & H3 & H4).
  simpl. lia.
Qed.

Lemma take_drop (n : nat) (s : string) : take n s +:+ drop n s = s.
Proof.
  revert s; induction n as [|n IH]; intros [|c s]; try reflexivity.
  change (String c (take n s +:+ drop n s) = String c s). now rewrite IH.
Qed.

Lemma drop_drop (a b : nat) (s : string) : drop a (drop b s) = drop (b + a) s.
Proof.
  revert s; induction b as [|b IH]; intros s; [reflexivity|].
  destruct s as [|c s]; simpl; [destruct a; reflexivity|apply IH].
Qed.

Lemma startsWith_split (s p : string) :
  startsWith s p = true -> s = p +:+ drop (String.length p) s.
Proof.
  revert s; induction p as [|a p IH]; intros s H; [reflexivity|].
  destruct s as [|b s]; [discriminate|]. simpl in H.
  apply andb_true_iff in H as [Hab H]. apply Ascii.eqb_eq in Hab as ->.
  change (String b s = String b (p +:+ drop (String.length p) s)).
  f_equal. apply IH, H.
Qed.

(** [indexOf0] gives the first place at which the pattern stands. *)
Lemma indexOf0_first (s p : string) (i : nat) :
  indexOf0 s p = Some i ->
  startsWith (drop i s) p = true /\
  forall j, j < i -> startsWith (drop j s) p = false.
Proof.
  revert i; induction s as [|c s IH]; intros i; rewrite indexOf0_unfold;
    destruct (startsWith _ p) eqn:E.
  - intros [= <-]. split; [exact E|intros; lia].
  - discriminate.
  - intros [= <-]. split; [exact E|intros; lia].
  - destruct (indexOf0 s p) as [k|]; [|discriminate]. intros [= <-].
    destruct (IH k eq_refl) as [H1 H2]. split; [exact H1|].
    intros [|j] Hj; [exact E|]. simpl. apply H2. lia.
Qed.

(** X4: when the search text of a block is not empty and occurs in the
    current content, and the replace text holds no dollar sign, the
    block cuts the current content at the first occurrence of the
    search text and puts the replace text there, verbatim; what stands
    before and after the occurrence is kept. *)
Theorem X4_replace_text_without_dollar_is_literal
  (sb rb : string) (st : LoopState) (p : nat) :
  isEmpty sb = false ->
  indexOf0 (content st) sb = Some p ->
  includes rb "$" = false ->
  let before := take p (content st) in
  let after := drop (p + String.length sb) (content st) in
  content st = before +:+ sb +:+ after /\
  (forall j, j < p -> startsWith (drop j (content st)) sb = false) /\
  content (applyBlock sb rb st) = before +:+ rb +:+ after.
Proof.
  intros Hne Hp Hd before after.
  destruct (indexOf0_first _ _ _ Hp) as [H1 H2].
  split; [|split; [exact H2|]].
  - subst before after. rewrite <- drop_drop.
    rewrite <- (startsWith_split _ _ H1). symmetry. apply take_drop.
  - rewrite (applyBlock_found sb rb st p Hne Hp). simpl.
    rewrite (getSubstitution_literal _ _ _ _ Hd). reflexivity.
Qed.

Lemma X4_replace_text_without_dollar_is_literal_witness :
  content (applyBlock "foo" "bar" (initial ("a foo, foo")))
  = "a " +:+ "bar" +:+ ", foo".
Proof.
  exact (proj2 (proj2 (X4_replace_text_without_dollar_is_literal "foo" "bar"
                         (initial "a foo, foo") 2 eq_refl eq_refl eq_refl))).
Defined.

End PatchExtras.

Section ExtractExtras.
Import DiffPatch.

Lemma split_free (sep : ascii) (s : string) :
  Forall (fun l => countChar sep l = 0) (split sep s).
Proof.
  induction s as [|c s IH]; simpl; [repeat constructor|].
  destruct (Ascii.eqb c sep) eqn:E; [constructor; [reflexivity|exact IH]|].
  destruct (split sep s) as [|h t]; [repeat constructor; simpl; now rewrite E|].
  inversion IH as [|? ? Hh Ht]; subst. constructor; [|exact Ht].
  simpl. now rewrite E.
Qed.

Lemma split_cons_free (sep : ascii) (a b : string) :
  countChar sep a = 0 ->
  split sep (a +:+ String sep b) = a :: split sep b.
Proof.
  induction a as [|c a IH]; intros H.
  - change (split sep (String sep b) = "" :: split sep b). simpl.
    now rewrite Ascii.eqb_refl.
  - simpl in H. destruct (Ascii.eqb c sep) eqn:E; [discriminate|].
    change (split sep (String c (a +:+ String sep b)) = String c a :: split sep b).
    simpl. rewrite E, IH by exact H. reflexivity.
Qed.

Lemma split_one_free (sep : ascii) (a : string) :
  countChar sep a = 0 -> split sep a = [a].
Proof.
  induction a as [|c a IH]; intros H; [reflexivity|].
  simpl in H. destruct (Ascii.eqb c sep) eqn:E; [discriminate|].
  simpl. rewrite E, IH by exact H. reflexivity.
Qed.

(** Joining lines and splitting again gives the lines back. *)
Lemma split_join (sep : ascii) (l : list string) :
  l <> [] ->
  Forall (fun x => countChar sep x = 0) l ->
  split sep (join (String sep "") l) = l.
Proof.
  induction l as [|x l IH]; intros Hne Hall; [contradiction|].
  inversion Hall as [|? ? Hx Hl]; subst.
  destruct l as [|y l]; [apply split_one_free, Hx|].
  change (split sep (x +:+ String sep "" +:+ join (String sep "") (y :: l))
          = x :: y :: l).
  change (String sep "" +:+ join (String sep "") (y :: l))
    with (String sep (join (String sep "") (y :: l))).
  rewrite split_cons_free by exact Hx. f_equal.
  apply IH; [discriminate|exact Hl].
Qed.

Lemma extractLines_Forall (P : string -> Prop) (b : bool) (ls : list string) :
  Forall P ls -> Forall P (extractLines b ls).
Proof.
  revert b; induction ls as [|line rest IH]; intros b H; [constructor|].
  inversion H as [|? ? Hl Hr]; subst. simpl.
  destruct (includes line SEARCH_START); [constructor; auto|].
  destruct (includes line REPLACE_END); [constructor; auto|].
  destruct b; [constructor; auto|auto].
Qed.

Lemma extractLines_idempotent (b : bool) (ls : list string) :
  extractLines b (extractLines b ls) = extractLines b ls.
Proof.
  revert b; induction ls as [|line rest IH]; intros b; [reflexivity|].
  simpl. destruct (includes line SEARCH_START) eqn:E1.
  - simpl. rewrite E1, IH. reflexivity.
  - destruct (includes line REPLACE_END) eqn:E2.
    + simpl. rewrite E1, E2, IH. reflexivity.
    + destruct b; [|apply IH]. simpl. rewrite E1, E2, IH. reflexivity.
Qed.

(** X5: [extractDiffBlocks] applied to its own output returns that
    output: the lines it keeps are kept again, and no other. *)
Theorem X5_extractDiffBlocks_is_idempotent (content : string) :
  extractDiffBlocks (extractDiffBlocks content) = extractDiffBlocks content.
Proof.
  unfold extractDiffBlocks.
  set (kept := extractLines false (lines content)).
  assert (Free : Forall (fun x => countChar newline x = 0) kept).
  { apply extractLines_Forall, split_free. }
  destruct kept as [|x l] eqn:E; [reflexivity|].
  unfold lines at 1. rewrite split_join by (discriminate || exact Free).
  rewrite <- E. subst kept. rewrite extractLines_idempotent. reflexivity.
Qed.

End ExtractExtras.

(** ** The streaming tag parser: one event of each kind per call,
    repeated input, sessions *)

Section StreamingExtras.
Import Regex StreamingParser.

Lemma streamedActions_app (l1 l2 : list Event) :
  streamedActions (l1 ++ l2) = streamedActions l1 ++ streamedActions l2.
Proof. unfold streamedActions. apply flat_map_app. Qed.

Lemma completedArtifacts_app (l1 l2 : list Event) :
  completedArtifacts (l1 ++ l2) = completedArtifacts l1 ++ completedArtifacts l2.
Proof. unfold completedArtifacts. apply flat_map_app. Qed.

Lemma fold_onActionClose_once (ms : list Match) (st : State) (log : list Event) :
  length (streamedActions (snd (fold_left onActionClose ms (st, log))))
  <= S (length (streamedActions log)) /\
  completedArtifacts (snd (fold_left onActionClose ms (st, log)))
  = completedArtifacts log.
Proof.
  revert st log; induction ms as [|m ms IH]; intros st log;
    [simpl; split; [lia|reflexivity]|].
  simpl. destruct (insideAction st) eqn:Ei; [|apply IH].
  destruct (currentAction st) as [a|] eqn:Ea; [|apply IH].
  rewrite fold_onActionClose_outside by reflexivity. simpl.
  rewrite streamedActions_app, completedArtifacts_app, length_app. simpl.
  rewrite app_nil_r. split; [lia|reflexivity].
Qed.

Lemma fold_onArtifactClose_outside (ms : list Match) (st : State)
  (log : list Event) :
  insideArtifact st = false ->
  fold_left onArtifactClose ms (st, log) = (st, log).
Proof.
  intros H. induction ms as [|m ms IH]; [reflexivity|].
  simpl. rewrite H. exact IH.
Qed.

Lemma fold_onArtifactClose_once (ms : list Match) (st : State) (log : list Event) :
  length (completedArtifacts (snd (fold_left onArtifactClose ms (st, log))))
  <= S (length (completedArtifacts log)).
Proof.
  revert st log; induction ms as [|m ms IH]; intros st log; [simpl; lia|].
  simpl. destruct (insideArtifact st) eqn:Ei; [|apply IH].
  destruct (currentArtifact st) as [a|] eqn:Ea; [|apply IH].
  rewrite fold_onArtifactClose_outside by reflexivity. simpl.
  rewrite completedArtifacts_app, length_app. simpl. lia.
Qed.

(** X6: one call of [parse] streams at most one action and completes
    at most one artifact, however many tags the new text holds. *)
Theorem X6_one_action_and_one_artifact_per_call
  (p : Parser) (messageId input : string) :
  length (streamedActions (snd (parse p messageId input))) <= 1 /\
  length (completedArtifacts (snd (parse p messageId input))) <= 1.
Proof.
  rewrite parse_eq. cbn [snd]. unfold parseState.
  set (newContent := slice input (position (stateOf p messageId))).
  match goal with |- context [fold_left onActionClose ?ms (?s, [])] =>
    pose proof (fold_onActionClose_once ms s []) as [A1 A2];
    destruct (fold_left onActionClose ms (s, [])) as [st3 log3] end.
  match goal with |- context [fold_left onArtifactClose ?ms (st3, log3)] =>
    pose proof (fold_onArtifactClose_once ms st3 log3) as B1;
    pose proof (fold_onArtifactClose_spec ms (st3, log3)) as (_ & _ & B2 & _);
    destruct (fold_left onArtifactClose ms (st3, log3)) as [st4 log4] end.
  cbn [fst snd] in *. simpl in A1, A2. rewrite A2 in B1. simpl in B1.
  rewrite B2. split; [exact A1|exact B1].
Qed.

Lemma append_empty_r (s : string) : s +:+ "" = s.
Proof.
  induction s as [|c s IH]; [reflexivity|].
  change (String c (s +:+ "") = String c s). now rewrite IH.
Qed.

Lemma drop_all (s : string) : drop (String.length s) s = "".
Proof. induction s as [|c s IH]; [reflexivity|exact IH]. Qed.

Lemma parseState_position (messageId input : string) (st : State) :
  position (fst (parseState messageId input st)) = String.length input.
Proof.
  unfold parseState.
  set (newContent := slice input (position st)).
  set (st0 := mkState (String.length input) _ _ _ _ _).
  assert (H1 : forall ms s, position (fold_left onArtifactOpen ms s) = position s).
  { induction ms as [|m ms IH]; intros s; [reflexivity|].
    simpl. rewrite IH. reflexivity. }
  assert (H2 : forall ms s,
             position (fold_left (onActionOpen messageId) ms s) = position s).
  { induction ms as [|m ms IH]; intros s; [reflexivity|].
    simpl. rewrite IH. reflexivity. }
  assert (H3 : forall ms acc,
             position (fst (fold_left onActionClose ms acc)) = position (fst acc)).
  { induction ms as [|m ms IH]; intros [s l]; [reflexivity|].
    simpl. rewrite IH. simpl. destruct (insideAction s); [|reflexivity].
    destruct (currentAction s); reflexivity. }
  assert (H4 : forall ms acc,
             position (fst (fold_left onArtifactClose ms acc)) = position (fst acc)).
  { induction ms as [|m ms IH]; intros [s l]; [reflexivity|].
    simpl. rewrite IH. simpl. destruct (insideArtifact s); [|reflexivity].
    destruct (currentArtifact s); reflexivity. }
  match goal with |- context [fold_left onActionClose ?ms ?acc] =>
    pose proof (H3 ms acc) as P3;
    destruct (fold_left onActionClose ms acc) as [st3 log3] end.
  match goal with |- context [fold_left onArtifactClose ?ms ?acc] =>
    pose proof (H4 ms acc) as P4;
    destruct (fold_left onArtifactClose ms acc) as [st4 log4] end.
  cbn [fst snd] in *. rewrite H2, H1 in P3.
  assert (P : position st4 = String.length input)
    by (rewrite P4, P3; reflexivity).
  unfold accumulate. destruct (insideAction st4); [|exact P].
  destruct (currentAction st4); [exact P|exact P].
Qed.

(** A call on a text that ends at the cursor finds nothing new. *)
Lemma parseState_nothing_new (messageId input : string) (st : State) :
  position st = String.length input ->
  parseState messageId input st = (st, []).
Proof.
  intros Hp. unfold parseState. rewrite Hp. unfold slice. rewrite drop_all.
  change (execAll noFlags artifactOpen "") with (@nil Match).
  change (execAll noFlags actionOpen "") with (@nil Match).
  change (execAll noFlags actionClose "") with (@nil Match).
  change (execAll noFlags artifactClose "") with (@nil Match).
  cbn [fold_left]. unfold accumulate.
  destruct st as [pos ia ic art act n]. simpl in *. subst pos.
  destruct ic; [|reflexivity]. destruct act as [[t f c i]|]; [|reflexivity].
  unfold appendContent. simpl. rewrite append_empty_r. reflexivity.
Qed.

(** X7: [parse] called again with the text it has just been given
    makes no callback and leaves the parser as it is. *)
Theorem X7_same_text_again_does_nothing
  (p : Parser) (messageId input : string) :
  parse (fst (parse p messageId input)) messageId input
  = (fst (parse p messageId input), []).
Proof.
  rewrite (parse_eq p). cbn [fst].
  set (st1 := fst (parseState messageId input (stateOf p messageId))).
  rewrite parse_eq, stateOf_insert.
  rewrite (parseState_nothing_new messageId input st1)
    by apply parseState_position.
  cbn [fst snd]. rewrite insert_insert_eq. reflexivity.
Qed.

(** X8: the sessions of a parser are independent, and [clear] starts
    one afresh: a call for one message leaves the state of every other
    message as it is, and after [clear] the next call for the message
    makes the callbacks, and leaves the state, of a call on a new
    parser. *)
Theorem X8_sessions_are_independent
  (p : Parser) (messageId other input : string) :
  (messageId <> other ->
   stateOf (fst (parse p messageId input)) other = stateOf p other /\
   stateOf (clear p messageId) other = stateOf p other) /\
  snd (parse (clear p messageId) messageId input)
  = snd (parse ∅ messageId input) /\
  stateOf (fst (parse (clear p messageId) messageId input)) messageId
  = stateOf (fst (parse ∅ messageId input)) messageId.
Proof.
  assert (C : stateOf (clear p messageId) messageId = stateOf ∅ messageId).
  { unfold stateOf, clear. rewrite lookup_delete_eq, lookup_empty. reflexivity. }
  split; [|split].
  - intros Hne. split.
    + rewrite parse_eq. cbn [fst]. unfold stateOf.
      rewrite lookup_insert_ne by exact Hne. reflexivity.
    + unfold stateOf, clear. rewrite lookup_delete_ne by exact Hne. reflexivity.
  - rewrite !parse_eq. cbn [snd]. rewrite C. reflexivity.
  - rewrite !parse_eq. cbn [fst]. rewrite !stateOf_insert, C. reflexivity.
Qed.

Lemma X8_sessions_are_independent_witness :
  stateOf (fst (parse ∅ "m" sampleText)) "other" = stateOf ∅ "other" /\
  stateOf (clear ∅ "m") "other" = stateOf ∅ "other".
Proof.
  apply (proj1 (X8_sessions_are_independent ∅ "m" "other" sampleText)).
  discriminate.
Defined.

End StreamingExtras.

(** ** The streaming tag parser: the [filePath] group of [actionOpen] *)

Section FilePathExtras.
Import Regex StreamingParser.

Lemma rep_reaches (f : flags) (greedy : bool) (p : ascii -> bool) (s : string) :
  forall lo hi prev cs k res,
    rep f greedy p lo hi prev s cs k = Some res ->
    exists n prev', k prev' (drop n s) cs = Some res.
Proof.
  induction s as [|c s IH]; intros lo hi prev cs k res H; simpl in H.
  - destruct lo; simpl in H; [|discriminate]. exists 0, prev. exact H.
  - assert (Stop : (if lo =? 0 then k prev (String c s) cs else None) = Some res ->
                   exists n prev', k prev' (drop n (String c s)) cs = Some res).
    { destruct lo; simpl; [|discriminate]. intros K. exists 0, prev. exact K. }
    destruct (match hi with Some 0 => false | _ => true end && clsMatch f p c);
      [|auto].
    destruct greedy.
    + destruct (rep f true p (pred lo) (option_map pred hi) (Some c) s cs k)
        as [r|] eqn:E; [|auto].
      injection H as <-. apply IH in E. destruct E as (n & q & E).
      exists (S n), q. exact E.
    + destruct (if lo =? 0 then k prev (String c s) cs else None) as [r|] eqn:E.
      * injection H as <-. auto.
      * apply IH in H. destruct H as (n & q & H). exists (S n), q. exact H.
Qed.

Lemma reaches_here (b : bool) (g : nat) (s : string) (cs : captures) (k : cont)
  (prev : option ascii) (res : string * captures) :
  k prev s cs = Some res -> reaches b g s cs k res.
Proof. intros H. exists 0, prev, cs. split; [exact H|reflexivity]. Qed.

Lemma reaches_tail (b : bool) (g : nat) (c : ascii) (s : string) (cs : captures)
  (k : cont) (prev : option ascii) (res : string * captures) :
  k prev s cs = Some res -> reaches b g (String c s) cs k res.
Proof. intros H. exists 1, prev, cs. split; [exact H|reflexivity]. Qed.

Lemma matchRe_reaches (f : flags) (g : nat) (r : regex) :
  forall prev s cs k res,
    matchRe f r prev s cs k = Some res ->
    reaches (negb (mentions g r)) g s cs k res.
Proof.
  induction r as [|a|p|r1 IH1 r2 IH2|r1 IH1 r2 IH2|gr lo hi p|n r1 IH1| | |r1 IH1];
    intros prev s cs k res H; simpl in H; simpl mentions.
  - eapply reaches_here, H.
  - destruct s as [|c s]; [discriminate|].
    destruct (chrMatch f a c); [|discriminate]. eapply reaches_tail, H.
  - destruct s as [|c s]; [discriminate|].
    destruct (clsMatch f p c); [|discriminate]. eapply reaches_tail, H.
  - apply IH1 in H. destruct H as (n1 & p1 & cs1 & H & K1).
    apply IH2 in H. destruct H as (n2 & p2 & cs2 & H & K2).
    exists (n1 + n2), p2, cs2. rewrite <- drop_drop. split; [exact H|].
    intros Hm. apply negb_true_iff, orb_false_iff in Hm as [M1 M2].
    rewrite K2, K1 by (apply negb_true_iff; assumption). reflexivity.
  - destruct (matchRe f r1 prev s cs k) as [x|] eqn:E.
    + injection H as <-. apply IH1 in E. destruct E as (n1 & p1 & cs1 & E & K1).
      exists n1, p1, cs1. split; [exact E|].
      intros Hm. apply negb_true_iff, orb_false_iff in Hm as [M1 M2].
      apply K1, negb_true_iff, M1.
    + apply IH2 in H. destruct H as (n1 & p1 & cs1 & H & K1).
      exists n1, p1, cs1. split; [exact H|].
      intros Hm. apply negb_true_iff, orb_false_iff in Hm as [M1 M2].
      apply K1, negb_true_iff, M2.
  - apply rep_reaches in H. destruct H as (n & q & H).
    exists n, q, cs. split; [exact H|reflexivity].
  - apply IH1 in H. destruct H as (n1 & p1 & cs1 & H & K1).
    exists n1, p1, ((n, take (String.length s - String.length (drop n1 s)) s) :: cs1).
    split; [exact H|].
    intros Hm. apply negb_true_iff, orb_false_iff in Hm as [M1 M2].
    simpl. rewrite M1. apply K1, negb_true_iff, M2.
  - destruct (atLineStart f prev); [|discriminate]. eapply reaches_here, H.
  - destruct (atLineEnd f s); [|discriminate]. eapply reaches_here, H.
  - destruct (matchRe f r1 prev s cs _) as [[s1 cs1]|] eqn:E; [|discriminate].
    apply IH1 in E. destruct E as (n1 & p1 & cs' & [= _ ->] & K1).
    exists 0, prev, cs1. split; [exact H|exact K1].
Qed.

Lemma matchRe_Cat_reaches (f : flags) (g : nat) (r1 r2 : regex)
  (prev : option ascii) (s : string) (cs : captures) (k : cont)
  (res : string * captures) :
  matchRe f (Cat r1 r2) prev s cs k = Some res ->
  mentions g r1 = false ->
  exists n prev' cs',
    matchRe f r2 prev' (drop n s) cs' k = Some res /\
    getCapture g cs' = getCapture g cs.
Proof.
  intros H M. cbn [matchRe] in H. apply (matchRe_reaches f g) in H.
  destruct H as (n & q & cs' & H & K). exists n, q, cs'.
  split; [exact H|]. apply K. rewrite M. reflexivity.
Qed.

Lemma countChar_drop (a : ascii) (n : nat) (s : string) :
  countChar a (drop n s) <= countChar a s.
Proof.
  revert s; induction n as [|n IH]; intros s; [destruct s; simpl; lia|].
  destruct s as [|c s]; [simpl; lia|].
  change (countChar a (drop n s) <= (if Ascii.eqb c a then 1 else 0) + countChar a s).
  specialize (IH s). lia.
Qed.

(** The end of the tag is found only where a [>] is left, and sets no
    capture. *)
Lemma tagEnd_spec (prev : option ascii) (s : string) (cs : captures)
  (res : string * captures) :
  matchRe noFlags tagEnd prev s cs (fun _ s' cs' => Some (s', cs')) = Some res ->
  0 < countChar ">" s /\ snd res = cs.
Proof.
  intros H. unfold tagEnd, star in H. cbn [matchRe] in H.
  apply rep_reaches in H. destruct H as (n & q & H).
  pose proof (countChar_drop ">" n s) as L.
  destruct (drop n s) as [|c t]; [discriminate|].
  unfold chrMatch in H. cbn [ignoreCase noFlags] in H.
  destruct (Ascii.eqb ">" c) eqn:E; [|discriminate].
  apply Ascii.eqb_eq in E. subst c. injection H as <-.
  split; [|reflexivity].
  change (countChar ">" (String ">" t)) with (1 + countChar ">" t) in L. lia.
Qed.

Lemma afterRun_needs_end (prev : option ascii) (s : string) (cs : captures)
  (res : string * captures) :
  afterRun prev s cs = Some res -> 0 < countChar ">" s.
Proof.
  unfold afterRun. intros H. cbn [matchRe] in H.
  apply (matchRe_reaches noFlags 0) in H. destruct H as (n & q & cs' & H & _).
  apply tagEnd_spec in H. pose proof (countChar_drop ">" n s). lia.
Qed.

Lemma afterRun_at_end (prev : option ascii) (s : string) (cs : captures) :
  afterRun prev (String ">" s) cs = Some (s, cs).
Proof. reflexivity. Qed.

Lemma rep_star_unfold (f : flags) (p : ascii -> bool) (prev : option ascii)
  (c : ascii) (s : string) (cs : captures) (k : cont) :
  rep f true p 0 None prev (String c s) cs k =
  if clsMatch f p c then
    match rep f true p 0 None (Some c) s cs k with
    | Some res => Some res
    | None => k prev (String c s) cs
    end
  else k prev (String c s) cs.
Proof. reflexivity. Qed.

Lemma clsMatch_notChar (a c : ascii) :
  clsMatch noFlags (notChar a) c = negb (Ascii.eqb a c).
Proof. unfold clsMatch, notChar. simpl. apply orb_false_r. Qed.

Lemma countChar_cons (a c : ascii) (s : string) :
  countChar a (String c s) = (if Ascii.eqb a c then 1 else 0) + countChar a s.
Proof.
  change (countChar a (String c s))
    with ((if Ascii.eqb c a then 1 else 0) + countChar a s).
  rewrite (Ascii.eqb_sym c a). reflexivity.
Qed.

(** The greedy run before the optional attribute goes on whenever the
    tag can still be ended further on. *)
Lemma run_succeeds (s : string) :
  forall prev cs,
    0 < countChar ">" s ->
    rep noFlags true (notChar ">") 0 None prev s cs afterRun <> None.
Proof.
  induction s as [|c s IH]; intros prev cs H; [simpl in H; lia|].
  rewrite rep_star_unfold, clsMatch_notChar. rewrite countChar_cons in H.
  destruct (Ascii.eqb ">" c) eqn:E; cbn [negb].
  - apply Ascii.eqb_eq in E. subst c. rewrite afterRun_at_end. discriminate.
  - specialize (IH (Some c) cs).
    destruct (rep noFlags true (notChar ">") 0 None (Some c) s cs afterRun);
      [discriminate|].
    exfalso. apply IH; [simpl in H; lia|reflexivity].
Qed.

(** So the run takes every character up to the [>], and the optional
    attribute is tried there only. *)
Lemma run_keeps_captures (s : string) :
  forall prev cs res,
    rep noFlags true (notChar ">") 0 None prev s cs afterRun = Some res ->
    snd res = cs.
Proof.
  induction s as [|c s IH]; intros prev cs res H.
  - apply afterRun_needs_end in H. simpl in H. lia.
  - rewrite rep_star_unfold, clsMatch_notChar in H.
    destruct (Ascii.eqb ">" c) eqn:E; cbn [negb] in H.
    + apply Ascii.eqb_eq in E. subst c. rewrite afterRun_at_end in H.
      injection H as <-. reflexivity.
    + destruct (rep noFlags true (notChar ">") 0 None (Some c) s cs afterRun)
        as [r|] eqn:R.
      * injection H as <-. eapply IH, R.
      * apply afterRun_needs_end in H. rewrite countChar_cons, E in H.
        exfalso. apply (run_succeeds s (Some c) cs); [simpl in H; lia|exact R].
Qed.

Lemma actionOpen_no_filePath (prev : option ascii) (s : string) (len : nat)
  (cs : captures) :
  matchAt noFlags actionOpen prev s = Some (len, cs) -> getCapture 2 cs = None.
Proof.
  unfold matchAt.
  destruct (matchRe noFlags actionOpen prev s [] _) as [[s' cs']|] eqn:E;
    [|discriminate].
  intros [= _ <-]. unfold actionOpen in E. cbn [seq] in E.
  apply matchRe_Cat_reaches with (g := 2) in E; [|reflexivity].
  destruct E as (n1 & p1 & c1 & E & K1).
  apply matchRe_Cat_reaches with (g := 2) in E; [|reflexivity].
  destruct E as (n2 & p2 & c2 & E & K2).
  apply matchRe_Cat_reaches with (g := 2) in E; [|reflexivity].
  destruct E as (n3 & p3 & c3 & E & K3).
  apply matchRe_Cat_reaches with (g := 2) in E; [|reflexivity].
  destruct E as (n4 & p4 & c4 & E & K4).
  apply matchRe_Cat_reaches with (g := 2) in E; [|reflexivity].
  destruct E as (n5 & p5 & c5 & E & K5).
  apply matchRe_Cat_reaches with (g := 2) in E; [|reflexivity].
  destruct E as (n6 & p6 & c6 & E & K6).
  match type of E with matchRe _ _ _ ?t _ _ = _ =>
    change (rep noFlags true (notChar ">") 0 None p6 t c6 afterRun
            = Some (s', cs')) in E end.
  apply run_keeps_captures in E. simpl in E. subst cs'.
  rewrite K6, K5, K4, K3, K2, K1. reflexivity.
Qed.

Lemma execAllFrom_no_filePath (s : string) :
  forall prev idx skip,
    Forall (fun m => group m 2 = None)
      (execAllFrom noFlags actionOpen prev s idx skip).
Proof.
  induction s as [|c s IH]; intros prev idx skip.
  - destruct skip; cbn [execAllFrom]; [|constructor].
    destruct (matchAt noFlags actionOpen prev "") as [[len cs]|] eqn:E;
      [|constructor].
    constructor; [|constructor]. eapply actionOpen_no_filePath, E.
  - destruct skip; cbn [execAllFrom]; [|apply IH].
    destruct (matchAt noFlags actionOpen prev (String c s)) as [[len cs]|] eqn:E;
      [|apply IH].
    constructor; [|apply IH]. eapply actionOpen_no_filePath, E.
Qed.

Lemma fold_onArtifactOpen_noPath (ms : list Match) (st : State) :
  stateNoPath st -> stateNoPath (fold_left onArtifactOpen ms st).
Proof.
  revert st; induction ms as [|m ms IH]; intros st H; [exact H|].
  simpl. apply IH. destruct H as [H1 H2]. split; [exact H1|constructor].
Qed.

Lemma fold_onActionOpen_noPath (messageId : string) (ms : list Match) (st : State) :
  Forall (fun m => group m 2 = None) ms ->
  stateNoPath st -> stateNoPath (fold_left (onActionOpen messageId) ms st).
Proof.
  intros F; revert st; induction F as [|m ms Hm F IH]; intros st H; [exact H|].
  simpl. apply IH. destruct H as [H1 H2]. split; [exact Hm|exact H2].
Qed.

Lemma fold_onActionClose_noPath (ms : list Match) (st : State) (log : list Event) :
  stateNoPath st -> Forall eventNoPath log ->
  stateNoPath (fst (fold_left onActionClose ms (st, log))) /\
  Forall eventNoPath (snd (fold_left onActionClose ms (st, log))).
Proof.
  revert st log; induction ms as [|m ms IH]; intros st log H L; [split; assumption|].
  simpl. destruct (insideAction st); [|apply IH; assumption].
  destruct H as [H1 H2].
  destruct (currentAction st) as [a|] eqn:Ea;
    [|apply IH; [split; [rewrite Ea|]|]; assumption].
  apply IH.
  - split; [exact I|]. simpl.
    destruct (currentArtifact st) as [art|]; [|exact I]. simpl in *.
    apply Forall_app. split; [exact H2|]. constructor; [exact H1|constructor].
  - apply Forall_app. split; [exact L|]. constructor; [exact H1|constructor].
Qed.

Lemma fold_onArtifactClose_noPath (ms : list Match) (st : State) (log : list Event) :
  stateNoPath st -> Forall eventNoPath log ->
  stateNoPath (fst (fold_left onArtifactClose ms (st, log))) /\
  Forall eventNoPath (snd (fold_left onArtifactClose ms (st, log))).
Proof.
  revert st log; induction ms as [|m ms IH]; intros st log H L; [split; assumption|].
  simpl. destruct (insideArtifact st); [|apply IH; assumption].
  destruct H as [H1 H2].
  destruct (currentArtifact st) as [art|] eqn:Ea;
    [|apply IH; [split; [|rewrite Ea]|]; assumption].
  apply IH.
  - split; [exact H1|exact I].
  - apply Forall_app. split; [exact L|]. constructor; [exact H2|constructor].
Qed.

Lemma parseState_noPath (messageId input : string) (st : State) :
  stateNoPath st ->
  stateNoPath (fst (parseState messageId input st)) /\
  Forall eventNoPath (snd (parseState messageId input st)).
Proof.
  intros H. unfold parseState.
  set (newContent := slice input (position st)).
  set (st0 := mkState (String.length input) _ _ _ _ _).
  assert (H0 : stateNoPath st0) by exact H.
  apply (fold_onArtifactOpen_noPath (execAll noFlags artifactOpen newContent)) in H0.
  apply (fold_onActionOpen_noPath messageId
           (execAll noFlags actionOpen newContent)) in H0;
    [|apply execAllFrom_no_filePath].
  match goal with |- context [fold_left onActionClose ?ms (?s, [])] =>
    destruct (fold_onActionClose_noPath ms s [] H0 (List.Forall_nil _)) as [A1 A2];
    destruct (fold_left onActionClose ms (s, [])) as [st3 log3] end.
  cbn [fst snd] in A1, A2.
  match goal with |- context [fold_left onArtifactClose ?ms (st3, log3)] =>
    destruct (fold_onArtifactClose_noPath ms st3 log3 A1 A2) as [B1 B2];
    destruct (fold_left onArtifactClose ms (st3, log3)) as [st4 log4] end.
  cbn [fst snd] in *. split; [|exact B2].
  unfold accumulate. destruct (insideAction st4); [|exact B1].
  destruct B1 as [B1 B3].
  destruct (currentAction st4) as [a|] eqn:Ea; [|split; [rewrite Ea|]; assumption].
  split; [exact B1|exact B3].
Qed.

Lemma parseCalls_noPath (calls : list (string * string)) :
  forall p : Parser,
    (forall messageId, stateNoPath (stateOf p messageId)) ->
    Forall eventNoPath (snd (parseCalls p calls)).
Proof.
  induction calls as [|[messageId input] rest IH]; intros p H; [constructor|].
  simpl. rewrite parse_eq.
  destruct (parseState_noPath messageId input (stateOf p messageId) (H messageId))
    as [S1 S2].
  match goal with |- context [parseCalls ?q rest] =>
    specialize (IH q); destruct (parseCalls q rest) as [p2 log2] end.
  simpl. apply Forall_app. split; [exact S2|]. apply IH.
  intros other. destruct (decide (messageId = other)) as [<-|Hne].
  - rewrite stateOf_insert. exact S1.
  - unfold stateOf. rewrite lookup_insert_ne by exact Hne. apply H.
Qed.

Lemma Forall_flat_map {A B : Type} (P : A -> Prop) (Q : B -> Prop)
  (f : A -> list B) (l : list A) :
  (forall a, P a -> Forall Q (f a)) -> Forall P l -> Forall Q (flat_map f l).
Proof.
  intros H F. induction F as [|a l Ha F IH]; [constructor|].
  simpl. apply Forall_app. split; [apply H, Ha|exact IH].
Qed.

(** X9: the [filePath] group of the action-open pattern never takes
    part in a match, since the run of characters before it has taken
    the attribute already: whatever texts a parser is given, for
    whatever messages, every action it streams, and every action of
    every artifact it completes, has no [filePath]. *)
Theorem X9_no_action_has_a_file_path (calls : list (string * string)) :
  Forall (fun a => Action.filePath a = None)
    (streamedActions (snd (parseCalls ∅ calls))) /\
  Forall (fun art => Forall (fun a => Action.filePath a = None)
                       (Artifact.actions art))
    (completedArtifacts (snd (parseCalls ∅ calls))).
Proof.
  assert (L : Forall eventNoPath (snd (parseCalls ∅ calls))).
  { apply parseCalls_noPath. intros messageId. unfold stateOf.
    rewrite lookup_empty. split; exact I. }
  split.
  - unfold streamedActions.
    apply (Forall_flat_map eventNoPath); [|exact L].
    intros [a|art] H; [constructor; [exact H|constructor]|constructor].
  - unfold completedArtifacts.
    apply (Forall_flat_map eventNoPath); [|exact L].
    intros [a|art] H; [constructor|constructor; [exact H|constructor]].
Qed.

End FilePathExtras.

(** ** The block classifier: repeated text, numbering, paths *)

Section ClassifierExtras.
Import Regex MessageParser.

Lemma visit_seen (m : string) (classify : nat -> option ParsedContent * nat)
  (run : Run) :
  hashBlock m ∈ processed run -> visit m classify run = run.
Proof.
  intros H. unfold visit.
  destruct (decide (hashBlock m ∈ processed run)); [reflexivity|contradiction].
Qed.

Lemma visit_marks (m : string) (classify : nat -> option ParsedContent * nat)
  (run : Run) :
  hashBlock m ∈ processed (visit m classify run) /\
  processed run ⊆ processed (visit m classify run).
Proof.
  unfold visit.
  destruct (decide (hashBlock m ∈ processed run)) as [H|H];
    [split; [exact H|intros x Hx; exact Hx]|].
  destruct (classify (counter run)) as [parsed c']. simpl. split.
  - apply elem_of_union. left. apply elem_of_singleton. reflexivity.
  - intros x Hx. apply elem_of_union. right. exact Hx.
Qed.

Lemma fold_visit_marks {A : Type} (key : A -> string)
  (cl : A -> nat -> option ParsedContent * nat) (l : list A) :
  forall run,
    processed run
    ⊆ processed (fold_left (fun r x => visit (key x) (cl x) r) l run) /\
    forall x, In x l ->
              hashBlock (key x)
              ∈ processed (fold_left (fun r x => visit (key x) (cl x) r) l run).
Proof.
  induction l as [|a l IH]; intros run; simpl.
  - split; [intros x Hx; exact Hx|intros x []].
  - destruct (IH (visit (key a) (cl a) run)) as [I1 I2].
    destruct (visit_marks (key a) (cl a) run) as [V1 V2]. split.
    + intros x Hx. apply I1, V2, Hx.
    + intros x [<-|Hx]; [apply I1, V1|apply I2, Hx].
Qed.

Lemma fold_visit_seen {A : Type} (key : A -> string)
  (cl : A -> nat -> option ParsedContent * nat) (l : list A) (run : Run) :
  (forall x, In x l -> hashBlock (key x) ∈ processed run) ->
  fold_left (fun r x => visit (key x) (cl x) r) l run = run.
Proof.
  induction l as [|a l IH]; intros H; simpl; [reflexivity|].
  rewrite visit_seen by (apply H; left; reflexivity).
  apply IH. intros x Hx. apply H. right. exact Hx.
Qed.

(** The matched texts of the blocks do not depend on the clock. *)
Lemma detectCodeBlocks_matchText (now now' : nat) (input : string) :
  map matchText (detectCodeBlocks now input)
  = map matchText (detectCodeBlocks now' input).
Proof.
  unfold detectCodeBlocks. generalize patterns. intros ps.
  induction ps as [|[[f r] t] ps IH]; [reflexivity|].
  simpl. rewrite !map_app, IH, !map_map. f_equal.
  apply map_ext. intros m. destruct t; reflexivity.
Qed.

Lemma parseTraced_again (now now' : nat) (p : Parser) (messageId input : string) :
  parseTraced now' (fst (parseTraced now p messageId input)) messageId input
  = (fst (parseTraced now p messageId input), []).
Proof.
  unfold parseTraced. cbn [fst snd processedBlocks artifactCounter].
  set (run0 := mkRun (processedOf p messageId) (artifactCounter p) []).
  set (run1 := fold_left (visitBlock messageId) (detectCodeBlocks now input) run0).
  set (run2 := fold_left (visitOperation messageId) (detectFileOperations input) run1).
  assert (EP : processedOf
                 (mkParser (<[messageId := processed run2]> (processedBlocks p))
                    (counter run2)) messageId = processed run2).
  { unfold processedOf. cbn [processedBlocks]. rewrite lookup_insert_eq.
    reflexivity. }
  rewrite !EP.
  destruct (fold_visit_marks matchText (fun b => classifyBlock b messageId)
              (detectCodeBlocks now input) run0) as [_ B].
  destruct (fold_visit_marks opMatch (fun o => parseFileOperation o messageId)
              (detectFileOperations input) run1) as [O1 O2].
  change (fold_left _ (detectCodeBlocks now input) run0) with run1 in B.
  change (fold_left _ (detectFileOperations input) run1) with run2 in O1, O2.
  assert (E1 : fold_left (visitBlock messageId) (detectCodeBlocks now' input)
                 (mkRun (processed run2) (counter run2) [])
               = mkRun (processed run2) (counter run2) []).
  { apply (fold_visit_seen matchText (fun b => classifyBlock b messageId)).
    intros x Hx. cbn [processed]. apply O1.
    apply (in_map matchText) in Hx.
    rewrite <- (detectCodeBlocks_matchText now now') in Hx.
    apply in_map_iff in Hx as (x' & <- & Hx'). apply B, Hx'. }
  rewrite E1.
  assert (E2 : fold_left (visitOperation messageId) (detectFileOperations input)
                 (mkRun (processed run2) (counter run2) [])
               = mkRun (processed run2) (counter run2) []).
  { apply (fold_visit_seen opMatch (fun o => parseFileOperation o messageId)).
    intros x Hx. cbn [processed]. apply O2, Hx. }
  rewrite E2. cbn [processed counter results].
  rewrite insert_insert_eq. reflexivity.
Qed.

(** X10: [parse] called again with the same message and the same text,
    at whatever time, returns no result and leaves the parser as it
    is; only [reset] makes the text be parsed as by a new parser. *)
Theorem X10_same_text_again_returns_nothing
  (now now' : nat) (p : Parser) (messageId input : string) :
  parse now' (fst (parse now p messageId input)) messageId input
  = (fst (parse now p messageId input), []) /\
  parse now' (reset (fst (parse now p messageId input))) messageId input
  = parse now' newParser messageId input.
Proof.
  split; [|reflexivity].
  destruct (parse_untraced now p messageId input) as [_ ->].
  unfold parse at 1. rewrite parseTraced_again. reflexivity.
Qed.

Lemma classifyBlock_numbering (block : Block) (messageId : string) :
  numbering messageId (classifyBlock block messageId).
Proof.
  intros n. unfold classifyBlock.
  destruct (isShellCommand (blockContent block) (blockLanguage block)).
  - split; [reflexivity|]. split; [reflexivity|]. left. split; reflexivity.
  - destruct (isValidFilePath (blockFilePath block)) eqn:V; [|reflexivity].
    split; [reflexivity|]. split; [reflexivity|]. right.
    split; [reflexivity|]. exists (blockFilePath block). split; [reflexivity|exact V].
Qed.

Lemma parseFileOperation_numbering (operation : Operation) (messageId : string) :
  numbering messageId (parseFileOperation operation messageId).
Proof.
  intros n. unfold parseFileOperation.
  destruct (isValidFilePath (opFilePath operation)) eqn:V; [|reflexivity].
  split; [reflexivity|]. split; [reflexivity|]. right.
  split; [reflexivity|]. exists (opFilePath operation). split; [reflexivity|exact V].
Qed.

Lemma visit_counted (messageId : string) (c0 : nat) (m : string)
  (classify : nat -> option ParsedContent * nat) (run : Run) :
  numbering messageId classify ->
  countedFrom messageId c0 run -> countedFrom messageId c0 (visit m classify run).
Proof.
  intros N [C1 C2]. unfold visit.
  destruct (decide (hashBlock m ∈ processed run)); [split; assumption|].
  specialize (N (counter run)).
  destruct (classify (counter run)) as [[r|] n']; split; cbn [counter results].
  - destruct N as [-> _]. rewrite length_app. simpl. lia.
  - destruct N as [_ N]. intros i m' r' H.
    destruct (Nat.lt_ge_cases i (length (results run))) as [L|L].
    + rewrite nth_error_app1 in H by exact L. eapply C2, H.
    + rewrite nth_error_app2 in H by exact L.
      destruct (i - length (results run)) as [|k] eqn:K;
        [|destruct k; discriminate].
      injection H as <- <-.
      replace (c0 + i) with (counter run) by lia. exact N.
  - lia.
  - exact C2.
Qed.

Lemma fold_visit_counted {A : Type} (messageId : string) (c0 : nat)
  (key : A -> string) (cl : A -> nat -> option ParsedContent * nat) (l : list A) :
  (forall x, numbering messageId (cl x)) ->
  forall run,
    countedFrom messageId c0 run ->
    countedFrom messageId c0 (fold_left (fun r x => visit (key x) (cl x) r) l run).
Proof.
  intros N. induction l as [|a l IH]; intros run H; [exact H|].
  simpl. apply IH, visit_counted; [apply N|exact H].
Qed.

(** X11: one call of [parse] moves [artifactCounter] by the number of
    results it returns, and numbers them in order: the result at index
    [i] has the [artifactId] made of its type, the message and the
    counter of before the call plus [i]; it is a command without a
    path or a file whose path passes [isValidFilePath]. *)
Theorem X11_results_are_numbered_in_order
  (now : nat) (p : Parser) (messageId input : string) :
  let out := parse now p messageId input in
  artifactCounter (fst out) = artifactCounter p + length (snd out) /\
  forall i r, nth_error (snd out) i = Some r ->
              numbered messageId (artifactCounter p + i) r.
Proof.
  intros out. subst out.
  destruct (parse_untraced now p messageId input) as [-> ->].
  unfold parseTraced. cbn [fst snd artifactCounter].
  set (run0 := mkRun (processedOf p messageId) (artifactCounter p) []).
  assert (C0 : countedFrom messageId (artifactCounter p) run0).
  { split; [simpl; lia|]. intros [|i] m r H; discriminate H. }
  apply (fold_visit_counted messageId _ matchText
           (fun b => classifyBlock b messageId) (detectCodeBlocks now input)
           (fun b => classifyBlock_numbering b messageId)) in C0.
  apply (fold_visit_counted messageId _ opMatch
           (fun o => parseFileOperation o messageId) (detectFileOperations input)
           (fun o => parseFileOperation_numbering o messageId)) in C0.
  destruct C0 as [C1 C2]. split.
  - rewrite length_map. exact C1.
  - intros i r H. rewrite nth_error_map in H.
    match type of H with option_map _ ?o = _ => destruct o as [[m r']|] eqn:E end;
      [|discriminate].
    injection H as <-. eapply C2, E.
Qed.

Lemma X11_results_are_numbered_in_order_witness :
  exists r,
    nth_error (snd (parse 0 newParser "m" sampleMarkdown)) 0 = Some r /\
    numbered "m" (artifactCounter newParser + 0) r.
Proof.
  eexists. split; [vm_compute; reflexivity|].
  apply (proj2 (X11_results_are_numbered_in_order 0 newParser "m" sampleMarkdown) 0).
  vm_compute. reflexivity.
Defined.

End ClassifierExtras.

(** ** The block classifier: anchored patterns, paths *)

Section PathExtras.
Import Regex MessageParser.

(** Without the [m] flag a pattern that starts with [^] matches at the
    start of the text only. *)
Lemma searchFrom_anchored (r : regex) (s : string) :
  forall c idx, searchFrom noFlags (Cat Bol r) (Some c) s idx = None.
Proof.
  induction s as [|a s IH]; intros c idx; [reflexivity|].
  cbn [searchFrom]. change (matchAt noFlags (Cat Bol r) (Some c) (String a s))
    with (@None (nat * captures)). apply IH.
Qed.

Lemma test_anchored (r : regex) (s : string) :
  test noFlags (Cat Bol r) s
  = match matchAt noFlags (Cat Bol r) None s with Some _ => true | None => false end.
Proof.
  unfold test, exec. destruct s as [|a s]; cbn [searchFrom].
  - destruct (matchAt noFlags (Cat Bol r) None "") as [[len cs]|]; reflexivity.
  - destruct (matchAt noFlags (Cat Bol r) None (String a s)) as [[len cs]|];
      [reflexivity|].
    rewrite searchFrom_anchored. reflexivity.
Qed.

Lemma shebang_needs_hash (t : string) :
  startsWith t "#" = false -> test noFlags (seq [Bol; lit "#!"]) t = false.
Proof.
  intros H. change (seq [Bol; lit "#!"]) with (Cat Bol (lit "#!")).
  rewrite test_anchored. unfold matchAt. destruct t as [|c t]; [reflexivity|].
  change (startsWith (String c t) "#") with (Ascii.eqb c "#" && startsWith t "") in H.
  assert (E : Ascii.eqb "#" c = false).
  { rewrite Ascii.eqb_sym. destruct (Ascii.eqb c "#"); [|reflexivity].
    destruct t; discriminate H. }
  cbn [matchRe lit atLineStart]. unfold chrMatch. cbn [ignoreCase noFlags].
  rewrite E. reflexivity.
Qed.

Lemma existsb_eq {A : Type} (f g : A -> bool) (l : list A) :
  (forall x, f x = g x) -> existsb f l = existsb g l.
Proof.
  intros H. induction l as [|a l IH]; [reflexivity|].
  simpl. rewrite H, IH. reflexivity.
Qed.

(** X12: the first script indicator, the one for a line that starts
    with the two characters of a shebang, never decides: a line that
    starts with [#] is skipped before the indicators are tried, so
    [looksLikeScriptContent] is what the seven other indicators say. *)
Theorem X12_shebang_indicator_never_decides (content : string) :
  looksLikeScriptContent content
  = existsb
      (fun line =>
         let trimmedLine := trim line in
         if isEmpty trimmedLine || startsWith trimmedLine "#" then false
         else existsb (fun pattern => test noFlags pattern trimmedLine)
                (tl scriptIndicators))
      (lines (trim content)).
Proof.
  unfold looksLikeScriptContent. apply existsb_eq. intros line. cbv zeta.
  destruct (isEmpty (trim line) || startsWith (trim line) "#") eqn:E;
    [reflexivity|].
  apply orb_false_iff in E as [_ E].
  change scriptIndicators with (seq [Bol; lit "#!"] :: tl scriptIndicators).
  cbn [existsb]. rewrite (shebang_needs_hash _ E). reflexivity.
Qed.

Lemma allChars_weaken (p q : ascii -> bool) (s : string) :
  (forall c, p c = true -> q c = true) ->
  allChars p s = true -> allChars q s = true.
Proof.
  intros H. induction s as [|c s IH]; [reflexivity|].
  simpl. intros K. apply andb_true_iff in K as [K1 K2].
  rewrite (H _ K1), (IH K2). reflexivity.
Qed.

Lemma allChars_removeChars (p : ascii -> bool) (s : string) :
  allChars (fun c => negb (p c)) (removeChars p s) = true.
Proof.
  induction s as [|c s IH]; [reflexivity|].
  simpl. destruct (p c) eqn:E; [exact IH|]. simpl. rewrite E, IH. reflexivity.
Qed.

Lemma allChars_trimStart (p : ascii -> bool) (s : string) :
  allChars p s = true -> allChars p (trimStart s) = true.
Proof.
  induction s as [|c s IH]; [reflexivity|].
  intros H. simpl. destruct (isWhiteSpace c); [|exact H].
  simpl in H. apply andb_true_iff in H as [_ H]. apply IH, H.
Qed.

Lemma allChars_trimEnd (p : ascii -> bool) (s : string) :
  allChars p s = true -> allChars p (trimEnd s) = true.
Proof.
  induction s as [|c s IH]; [reflexivity|].
  intros H. simpl in H. apply andb_true_iff in H as [H1 H2].
  specialize (IH H2). simpl. destruct (trimEnd s) as [|a t].
  - destruct (isWhiteSpace c); [reflexivity|]. simpl. rewrite H1. reflexivity.
  - change (p c && allChars p (String a t) = true). rewrite H1. exact IH.
Qed.

Lemma allChars_mapChars (p q : ascii -> bool) (g : ascii -> ascii) (s : string) :
  (forall c, p c = true -> q (g c) = true) ->
  allChars p s = true -> allChars q (mapChars g s) = true.
Proof.
  intros H. induction s as [|c s IH]; [reflexivity|].
  simpl. intros K. apply andb_true_iff in K as [K1 K2].
  rewrite (H _ K1), (IH K2). reflexivity.
Qed.

Lemma allChars_drop (p : ascii -> bool) (n : nat) (s : string) :
  allChars p s = true -> allChars p (drop n s) = true.
Proof.
  revert s; induction n as [|n IH]; intros s H; [destruct s; exact H|].
  destruct s as [|c s]; [reflexivity|].
  simpl in H. apply andb_true_iff in H as [_ H]. apply IH, H.
Qed.

Lemma allChars_take (p : ascii -> bool) (n : nat) (s : string) :
  allChars p s = true -> allChars p (take n s) = true.
Proof.
  revert s; induction n as [|n IH]; intros s H; [destruct s; reflexivity|].
  destruct s as [|c s]; [reflexivity|].
  simpl in H. apply andb_true_iff in H as [H1 H2].
  simpl. rewrite H1. apply IH, H2.
Qed.

(** X13: whatever it is given, [normalizeFilePath] returns a path that
    starts with a slash or a dot and holds no backquote, quote, double
    quote or backslash. *)
Theorem X13_normalized_paths (filePath : string) :
  let path := normalizeFilePath filePath in
  (startsWith path "/" = true \/ startsWith path "." = true) /\
  allChars (fun c => negb (quoteChar c) && negb (Ascii.eqb c backslash)) path
  = true.
Proof.
  intros path. subst path. unfold normalizeFilePath.
  set (p1 := trim (removeChars quoteChar filePath)).
  set (p2 := mapChars _ p1).
  set (p3 := if startsWith p2 "./" then _ else p2).
  set (clean := fun c => negb (quoteChar c) && negb (Ascii.eqb c backslash)).
  assert (H1 : allChars (fun c => negb (quoteChar c)) p1 = true).
  { subst p1. unfold trim. apply allChars_trimEnd, allChars_trimStart.
    apply allChars_removeChars. }
  assert (H2 : allChars clean p2 = true).
  { subst p2. revert H1. apply allChars_mapChars. intros c Hc. subst clean.
    cbv beta. destruct (Ascii.eqb c backslash) eqn:E; [reflexivity|].
    rewrite Hc, E. reflexivity. }
  assert (H3 : allChars clean p3 = true).
  { subst p3. destruct (startsWith p2 "./"); [|exact H2].
    unfold substring. apply allChars_take, allChars_drop, H2. }
  destruct (startsWith p3 "/") eqn:Es; cbn [negb andb].
  - split; [left; exact Es|exact H3].
  - destruct (startsWith p3 ".") eqn:Ed; cbn [negb].
    + split; [right; exact Ed|exact H3].
    + split; [left; reflexivity|]. change (clean "/"%char && allChars clean p3 = true).
      rewrite H3. reflexivity.
Qed.

(** A run of a class that must reach the end of the text has taken
    every character. *)
Lemma rep_to_end (greedy : bool) (p : ascii -> bool) (k : cont) (s : string) :
  (forall prev a t cs, k prev (String a t) cs = None) ->
  forall lo hi prev cs res,
    rep noFlags greedy p lo hi prev s cs k = Some res ->
    allChars p s = true.
Proof.
  intros K. induction s as [|c s IH]; intros lo hi prev cs res H; [reflexivity|].
  simpl in H. rewrite K in H.
  assert (Z : (if lo =? 0 then @None (string * captures) else None) = None)
    by (destruct (lo =? 0); reflexivity).
  rewrite Z in H.
  destruct (match hi with Some 0 => false | _ => true end) ; [|discriminate].
  cbn [andb] in H. unfold clsMatch in H. cbn [ignoreCase noFlags andb] in H.
  rewrite orb_false_r in H. destruct (p c) eqn:E; [|discriminate].
  simpl. rewrite E. cbn [andb].
  destruct greedy.
  - destruct (rep noFlags true p (pred lo) (option_map pred hi) (Some c) s cs k)
      as [r|] eqn:R; [|discriminate]. eapply IH, R.
  - eapply IH, H.
Qed.

Lemma searchFrom_found (f : flags) (r : regex) (s : string) :
  forall prev idx m,
    searchFrom f r prev s idx = Some m ->
    exists n prev' res, matchAt f r prev' (drop n s) = Some res.
Proof.
  induction s as [|c s IH]; intros prev idx m H; cbn [searchFrom] in H.
  - destruct (matchAt f r prev "") as [[len cs]|] eqn:E; [|discriminate].
    exists 0, prev, (len, cs). exact E.
  - destruct (matchAt f r prev (String c s)) as [[len cs]|] eqn:E.
    + exists 0, prev, (len, cs). exact E.
    + apply IH in H. destruct H as (n & q & res & H). exists (S n), q, res. exact H.
Qed.

(** X14: a path that passes [isValidFilePath] is not empty, is made of
    letters, digits, underscores, slashes, dashes and dots only, and
    holds a dot. *)
Theorem X14_valid_paths_are_plain (filePath : string) :
  isValidFilePath filePath = true ->
  isEmpty filePath = false /\
  allChars pathChar filePath = true /\
  0 < countChar "." filePath.
Proof.
  unfold isValidFilePath. intros H.
  destruct (isEmpty filePath) eqn:E0; [discriminate|].
  destruct (test noFlags (seq [Chr "."; word1; Eol]) filePath) eqn:E1;
    [|discriminate].
  destruct (test noFlags (seq [Bol; plus pathChar; Eol]) filePath) eqn:E2;
    [|discriminate].
  clear H. split; [reflexivity|]. split.
  - change (seq [Bol; plus pathChar; Eol]) with (Cat Bol (Cat (plus pathChar) Eol))
      in E2.
    rewrite test_anchored in E2. unfold matchAt in E2.
    destruct (matchRe noFlags (Cat Bol (Cat (plus pathChar) Eol)) None filePath []
                (fun _ s' cs' => Some (s', cs'))) as [res|] eqn:M; [|discriminate].
    cbn [matchRe atLineStart plus] in M.
    eapply rep_to_end; [|exact M]. reflexivity.
  - unfold test, exec in E1.
    destruct (searchFrom noFlags (seq [Chr "."; word1; Eol]) None filePath 0)
      as [m|] eqn:S; [|discriminate].
    apply searchFrom_found in S. destruct S as (n & q & res & S).
    pose proof (countChar_drop "." n filePath) as L.
    unfold matchAt in S. cbn [seq matchRe] in S.
    destruct (drop n filePath) as [|c t]; [discriminate|].
    unfold chrMatch in S. cbn [ignoreCase noFlags] in S.
    destruct (Ascii.eqb "." c) eqn:Ec; [|discriminate].
    apply Ascii.eqb_eq in Ec. subst c.
    change (countChar "." (String "." t)) with (1 + countChar "." t) in L. lia.
Qed.

Lemma X14_valid_paths_are_plain_witness :
  isEmpty "/src/a.js" = false /\
  allChars pathChar "/src/a.js" = true /\
  0 < countChar "." "/src/a.js".
Proof.
  apply (X14_valid_paths_are_plain "/src/a.js"). vm_compute. reflexivity.
Defined.

End PathExtras.

(** ** The command queue: order of admission, idle slots, retries *)

Section SchedulerExtras.
Import CommandQueue.

Lemma admitWhileRoom_prefix (limit : nat) (qu ru fl : list Command) :
  let '(qu', ru', fl') := admitWhileRoom limit qu ru fl in
  exists started,
    qu = started ++ qu' /\
    ru' = ru ++ map (withStatus Running) started /\
    fl' = fl ++ map (withStatus Running) started /\
    (qu' = [] \/ limit <= length ru').
Proof.
  revert ru fl; induction qu as [|c qu IH]; intros ru fl; simpl.
  - exists []. rewrite !app_nil_r. auto.
  - destruct (length ru <? limit) eqn:E.
    + specialize (IH (ru ++ [withStatus Running c]) (fl ++ [withStatus Running c])).
      destruct (admitWhileRoom limit qu _ _) as [[qu' ru'] fl'].
      destruct IH as (started & H1 & H2 & H3 & H4).
      exists (c :: started). simpl. rewrite <- !app_assoc in H2, H3.
      subst qu. auto.
    + apply Nat.ltb_ge in E. exists []. simpl. rewrite !app_nil_r. auto.
Qed.

(** [processQueue] starts the commands at the head of the queue, in
    their order, and stops only when the queue is empty or no slot is
    left. *)
Lemma processQueue_prefix (q : Queue) :
  exists started,
    queue q = started ++ queue (processQueue q) /\
    running (processQueue q) = running q ++ map (withStatus Running) started /\
    inFlight (processQueue q) = inFlight q ++ map (withStatus Running) started /\
    completed (processQueue q) = completed q /\
    maxConcurrent (processQueue q) = maxConcurrent q /\
    (isProcessing q = false -> busy (maxConcurrent q) (processQueue q)).
Proof.
  unfold processQueue.
  destruct (isProcessing q) eqn:Ei; cbn [orb].
  - exists []. simpl. rewrite !app_nil_r. repeat split. discriminate.
  - destruct (maxConcurrent q <=? length (running q)) eqn:E.
    + apply Nat.leb_le in E. exists []. simpl. rewrite !app_nil_r.
      repeat split. intros _. right. exact E.
    + pose proof (admitWhileRoom_prefix (maxConcurrent q) (queue q) (running q)
                    (inFlight q)) as H.
      destruct (admitWhileRoom _ _ _ _) as [[qu' ru'] fl'].
      destruct H as (started & H1 & H2 & H3 & H4).
      exists started. simpl. repeat split; auto.
Qed.

Lemma processQueue_busy (N : nat) (q : Queue) :
  maxConcurrent q = N -> isProcessing q = false -> busy N (processQueue q).
Proof.
  intros <- Hi. destruct (processQueue_prefix q) as (_ & _ & _ & _ & _ & _ & H).
  apply H, Hi.
Qed.

Lemma step_busy (N : nat) (q : Queue) (e : Event) :
  queueInv N q -> busy N q -> busy N (step q e).
Proof.
  intros [Hl Hi _ _ _ _] B. destruct e as [newId text t now|k o|i|]; simpl.
  - apply processQueue_busy; assumption.
  - unfold finish. destruct (nth_error (inFlight q) k) as [c|]; [|exact B].
    apply processQueue_busy; assumption.
  - unfold retryCommand. destruct (find _ (completed q)) as [c|]; [|exact B].
    apply processQueue_busy; assumption.
  - exact B.
Qed.

Lemma run_busy (N : nat) (events : list Event) :
  forall q, queueInv N q -> busy N q -> busy N (run q events).
Proof.
  induction events as [|e events IH]; intros q I B; [exact B|].
  simpl. apply IH; [apply step_inv, I|apply step_busy; assumption].
Qed.

(** X15: in every state reached from a new queue with limit [N], no
    slot is idle while a command waits: the queue is empty or exactly
    [N] commands are running. *)
Theorem X15_no_idle_slot_while_commands_wait (N : nat) (events : list Event) :
  let q := run (newQueue N) events in
  queue q = [] \/ length (running q) = N.
Proof.
  intros q.
  assert (B : busy N q).
  { apply run_busy; [apply newQueue_inv|left; reflexivity]. }
  pose proof (inv_bound _ _ (run_inv N events _ (newQueue_inv N))) as L.
  fold q in L. destruct B as [B|B]; [left; exact B|right; lia].
Qed.

Lemma step_waiting (q : Queue) (e : Event) (added : list string) :
  noRetry e = true ->
  (exists started, added = started ++ map id (queue q)) ->
  exists started, added ++ addedIds [e] = started ++ map id (queue (step q e)).
Proof.
  intros He (started & Ha). destruct e as [newId text t now|k o|i|]; simpl.
  - unfold addCommand.
    match goal with |- context [processQueue ?x] =>
      destruct (processQueue_prefix x) as (st & H1 & _) end.
    simpl in H1. exists (started ++ map id st).
    rewrite Ha, <- !app_assoc. f_equal.
    rewrite <- map_app, <- H1, map_app. reflexivity.
  - rewrite app_nil_r. unfold finish.
    destruct (nth_error (inFlight q) k) as [c|]; [|exists started; exact Ha].
    match goal with |- context [processQueue ?x] =>
      destruct (processQueue_prefix x) as (st & H1 & _) end.
    simpl in H1. exists (started ++ map id st).
    rewrite Ha, <- !app_assoc. f_equal.
    rewrite <- map_app, <- H1. reflexivity.
  - discriminate He.
  - rewrite app_nil_r. exists started. exact Ha.
Qed.

Lemma addedIds_cons (e : Event) (events : list Event) :
  addedIds (e :: events) = addedIds [e] ++ addedIds events.
Proof. unfold addedIds. simpl. rewrite app_nil_r. reflexivity. Qed.

Lemma run_waiting (events : list Event) :
  forall q added,
    forallb noRetry events = true ->
    (exists started, added = started ++ map id (queue q)) ->
    exists started,
      added ++ addedIds events = started ++ map id (queue (run q events)).
Proof.
  induction events as [|e events IH]; intros q added F H.
  - simpl. rewrite app_nil_r. exact H.
  - simpl in F. apply andb_true_iff in F as [Fe F].
    rewrite addedIds_cons, app_assoc. simpl.
    apply IH; [exact F|]. apply step_waiting; assumption.
Qed.

(** X16: the queue is first in, first out: when no command is retried,
    the commands that wait are the last ones that were added, in the
    order of the [addCommand] calls. *)
Theorem X16_waiting_commands_are_the_last_added (N : nat) (events : list Event) :
  forallb noRetry events = true ->
  exists started,
    addedIds events = started ++ map id (queue (run (newQueue N) events)).
Proof.
  intros F. apply (run_waiting events (newQueue N) [] F).
  exists []. reflexivity.
Qed.

Lemma X16_waiting_commands_are_the_last_added_witness :
  exists started,
    addedIds fiveCommands = started ++ map id (queue (run (newQueue 2) fiveCommands)).
Proof.
  apply (X16_waiting_commands_are_the_last_added 2 fiveCommands). reflexivity.
Defined.

(** X17: [retryCommand] does nothing unless a failed command with the
    identifier is in [completed]; when there is one, no command with
    the identifier is left in [completed], and a command with it, its
    [error] cleared, waits with the status pending or runs. *)
Theorem X17_retry_moves_a_failed_command_back (i : string) (q : Queue) :
  match find (fun c => String.eqb (id c) i && isFailed c) (completed q) with
  | None => retryCommand i q = q
  | Some _ =>
      let q' := retryCommand i q in
      Forall (fun c => id c <> i) (completed q') /\
      exists c, id c = i /\ error c = None /\
                ((In c (queue q') /\ status c = Pending) \/
                 (In c (running q') /\ status c = Running))
  end.
Proof.
  unfold retryCommand.
  destruct (find _ (completed q)) as [c|] eqn:E; [|reflexivity].
  apply find_some in E as [_ E]. apply andb_true_iff in E as [E _].
  apply String.eqb_eq in E. cbv zeta.
  match goal with |- context [processQueue ?x] =>
    destruct (processQueue_prefix x) as (st & H1 & H2 & _ & H3 & _);
    set (q' := processQueue x) in * end.
  simpl in H1, H2, H3. split.
  - rewrite H3. apply List.Forall_forall. intros c' Hc'.
    apply filter_In in Hc' as [_ Hc']. unfold otherId in Hc'.
    apply negb_true_iff, String.eqb_neq in Hc'. exact Hc'.
  - set (c' := mkCommand (id c) (command c) (type c) Pending (output c) None
                 (timestamp c) (duration c)) in *.
    assert (Hin : In c' (st ++ queue q')) by (rewrite <- H1; apply in_or_app;
                                              right; left; reflexivity).
    apply in_app_or in Hin as [Hin|Hin].
    + exists (withStatus Running c'). split; [exact E|]. split; [reflexivity|].
      right. split; [|reflexivity]. rewrite H2. apply in_or_app. right.
      apply in_map, Hin.
    + exists c'. split; [exact E|]. split; [reflexivity|].
      left. split; [exact Hin|reflexivity].
Qed.

Lemma step_settled (q : Queue) (e : Event) :
  forallb isSettled (completed q) = true ->
  forallb isSettled (completed (step q e)) = true.
Proof.
  intros H. destruct e as [newId text t now|k o|i|]; simpl.
  - unfold addCommand.
    match goal with |- context [processQueue ?x] =>
      destruct (processQueue_prefix x) as (st & _ & _ & _ & -> & _) end.
    exact H.
  - unfold finish. destruct (nth_error (inFlight q) k) as [c|]; [|exact H].
    match goal with |- context [processQueue ?x] =>
      destruct (processQueue_prefix x) as (st & _ & _ & _ & -> & _) end.
    simpl. rewrite forallb_app, H. destruct o; reflexivity.
  - unfold retryCommand. destruct (find _ (completed q)) as [c|]; [|exact H].
    match goal with |- context [processQueue ?x] =>
      destruct (processQueue_prefix x) as (st & _ & _ & _ & -> & _) end.
    simpl. apply forallb_filter, H.
  - reflexivity.
Qed.

Lemma run_settled (events : list Event) :
  forall q,
    forallb isSettled (completed q) = true ->
    forallb isSettled (completed (run q events)) = true.
Proof.
  induction events as [|e events IH]; intros q H; [exact H|].
  simpl. apply IH, step_settled, H.
Qed.

(** X18: in every state reached from a new queue the [status] of a
    command tells the list it is in: pending in [queue], running in
    [running], completed or failed in [completed]. *)
Theorem X18_status_tells_the_list (N : nat) (events : list Event) :
  let q := run (newQueue N) events in
  Forall (fun c => status c = Pending) (queue q) /\
  Forall (fun c => status c = Running) (running q) /\
  Forall (fun c => status c = Completed \/ status c = Failed) (completed q).
Proof.
  intros q. pose proof (run_inv N events _ (newQueue_inv N)) as [_ _ _ Hq Hr _].
  pose proof (run_settled events (newQueue N) eq_refl) as Hc.
  fold q in Hq, Hr, Hc. rewrite forallb_forall in Hq, Hr, Hc.
  repeat split; apply List.Forall_forall; intros c Hin.
  - specialize (Hq c Hin). unfold isPending in Hq.
    destruct (status c); (reflexivity || discriminate).
  - specialize (Hr c Hin). unfold isRunning in Hr.
    destruct (status c); (reflexivity || discriminate).
  - specialize (Hc c Hin). unfold isSettled in Hc.
    destruct (status c); auto; discriminate.
Qed.

End SchedulerExtras.

(** ** The command queue: no command is lost *)

Section ConservationExtras.
Import CommandQueue.

Lemma filter_other_all (i : string) (l : list Command) :
  ~ In i (map id l) -> List.filter (otherId i) l = l.
Proof.
  induction l as [|a l IH]; intros H; [reflexivity|].
  simpl in *. unfold otherId at 1.
  destruct (String.eqb_spec (id a) i) as [E|E]; [exfalso; auto|].
  simpl. rewrite IH; [reflexivity|]. intros K. apply H. right. exact K.
Qed.

(** With distinct identifiers, the filter by identifier takes out the
    one command. *)
Lemma filter_other_nth (l : list Command) :
  forall k c,
    List.NoDup (map id l) -> nth_error l k = Some c ->
    List.filter (otherId (id c)) l = firstn k l ++ skipn (S k) l.
Proof.
  induction l as [|a l IH]; intros k c D H; [destruct k; discriminate|].
  simpl in D. apply List.NoDup_cons_iff in D as [D1 D2].
  destruct k as [|k]; simpl in H.
  - injection H as ->. simpl. unfold otherId at 1. rewrite String.eqb_refl.
    simpl. apply filter_other_all, D1.
  - simpl. unfold otherId at 1.
    destruct (String.eqb_spec (id a) (id c)) as [E|E].
    + exfalso. apply D1. rewrite E. apply in_map. eapply nth_error_In, H.
    + simpl. f_equal. apply IH; assumption.
Qed.

Lemma nth_split_perm {A : Type} (l : list A) :
  forall k c, nth_error l k = Some c ->
              Permutation l (c :: firstn k l ++ skipn (S k) l).
Proof.
  induction l as [|a l IH]; intros k c H; [destruct k; discriminate|].
  destruct k as [|k]; simpl in H.
  - injection H as ->. simpl. reflexivity.
  - simpl. rewrite (IH k c H) at 1. apply perm_swap.
Qed.

Lemma map_id_withStatus (s : Status) (l : list Command) :
  map id (map (withStatus s) l) = map id l.
Proof. rewrite map_map. reflexivity. Qed.

Lemma processQueue_known (q : Queue) :
  Permutation (map id (known (processQueue q))) (map id (known q)) /\
  (inFlight q = running q -> inFlight (processQueue q) = running (processQueue q)).
Proof.
  destruct (processQueue_prefix q) as (st & H1 & H2 & H3 & H4 & _).
  split.
  - unfold known. rewrite H2, H4, H1 at 1.
    rewrite !map_app, map_id_withStatus. solve_Permutation.
  - intros E. rewrite H2, H3, E. reflexivity.
Qed.

Lemma step_known (q : Queue) (e : Event) (added : list string) :
  noClear e = true ->
  List.NoDup (added ++ addedIds [e]) ->
  inFlight q = running q ->
  Permutation (map id (known q)) added ->
  inFlight (step q e) = running (step q e) /\
  Permutation (map id (known (step q e))) (added ++ addedIds [e]).
Proof.
  intros He D F P.
  assert (Dk : List.NoDup (map id (known q))).
  { apply (Permutation_NoDup (l := added)); [symmetry; exact P|].
    apply NoDup_app_remove_r in D. exact D. }
  destruct e as [newId text t now|k o|i|]; simpl.
  - unfold addCommand.
    match goal with |- context [processQueue ?x] =>
      destruct (processQueue_known x) as [K1 K2] end.
    split; [apply K2, F|]. rewrite K1. unfold known. simpl.
    rewrite <- P. unfold known. rewrite !map_app. simpl. solve_Permutation.
  - rewrite app_nil_r. unfold finish. rewrite F.
    destruct (nth_error (running q) k) as [c|] eqn:E; [|split; assumption].
    assert (Dr : List.NoDup (map id (running q))).
    { unfold known in Dk. rewrite !map_app in Dk.
      apply NoDup_app_remove_l, NoDup_app_remove_r in Dk. exact Dk. }
    match goal with |- context [processQueue ?x] =>
      destruct (processQueue_known x) as [K1 K2] end.
    split; [apply K2; simpl; symmetry; apply filter_other_nth; assumption|].
    rewrite K1, <- P. unfold known. simpl.
    rewrite (filter_other_nth _ _ _ Dr E). rewrite !map_app. simpl.
    replace (id (settled c o)) with (id c) by (destruct o; reflexivity).
    pose proof (Permutation_map id (nth_split_perm _ _ _ E)) as Pm.
    simpl in Pm. rewrite map_app in Pm. rewrite Pm. solve_Permutation.
  - rewrite app_nil_r. unfold retryCommand.
    destruct (find _ (completed q)) as [c|] eqn:E; [|split; assumption].
    apply find_some in E as [Hin E]. apply andb_true_iff in E as [E _].
    apply String.eqb_eq in E. subst i.
    assert (Dc : List.NoDup (map id (completed q))).
    { unfold known in Dk. rewrite !map_app in Dk.
      apply NoDup_app_remove_l, NoDup_app_remove_l in Dk. exact Dk. }
    apply In_nth_error in Hin as [k Hk].
    match goal with |- context [processQueue ?x] =>
      destruct (processQueue_known x) as [K1 K2] end.
    split; [apply K2, F|].
    rewrite K1, <- P. unfold known. simpl.
    rewrite (filter_other_nth _ _ _ Dc Hk). rewrite !map_app. simpl.
    pose proof (Permutation_map id (nth_split_perm _ _ _ Hk)) as Pm.
    simpl in Pm. rewrite map_app in Pm. rewrite Pm. solve_Permutation.
  - discriminate He.
Qed.

Lemma run_known (events : list Event) :
  forall q added,
    forallb noClear events = true ->
    List.NoDup (added ++ addedIds events) ->
    inFlight q = running q ->
    Permutation (map id (known q)) added ->
    Permutation (map id (known (run q events))) (added ++ addedIds events).
Proof.
  induction events as [|e events IH]; intros q added C D F P.
  - simpl. rewrite app_nil_r. exact P.
  - simpl in C. apply andb_true_iff in C as [Ce C].
    rewrite addedIds_cons, app_assoc in D |- *. simpl.
    destruct (step_known q e added Ce) as [S1 S2]; try assumption.
    { apply NoDup_app_remove_r in D. exact D. }
    apply IH; assumption.
Qed.

(** X19: when the identifiers given to the commands are distinct and
    [clearCompleted] is not called, no command is lost and none is
    doubled: the commands in [queue], [running] and [completed] are,
    up to their order, the commands that were added. *)
Theorem X19_no_command_is_lost (N : nat) (events : list Event) :
  List.NoDup (addedIds events) ->
  forallb noClear events = true ->
  Permutation (map id (known (run (newQueue N) events))) (addedIds events).
Proof.
  intros D C. apply (run_known events (newQueue N) [] C D); reflexivity.
Qed.

Lemma X19_no_command_is_lost_witness :
  Permutation (map id (known (run (newQueue 2) fiveCommands)))
    (addedIds fiveCommands).
Proof.
  apply (X19_no_command_is_lost 2 fiveCommands); [|reflexivity].
  vm_compute. repeat (constructor; [simpl; intuition discriminate|]).
  constructor.
Defined.

End ConservationExtras.

(** ** The debounced batcher: timers, handler calls, what is handed *)

Section BatcherExtras.
Import DebouncedUpdater.

Lemma scheduleUpdate_inv (u : Updater) : updaterInv u -> updaterInv (scheduleUpdate u).
Proof.
  intros [T P]. split; [|exact P]. right. exists (nextTimer u).
  split; [reflexivity|]. unfold scheduleUpdate. simpl.
  destruct T as [T|(t & T1 & T2)].
  - rewrite T. destruct (timeoutId u); reflexivity.
  - rewrite T1, T2. simpl. rewrite Nat.eqb_refl. reflexivity.
Qed.

Lemma processBatch_inv (now : nat) (batchId : string) (u : Updater) :
  updaterInv u -> updaterInv (processBatch now batchId u).
Proof.
  intros [T P]. unfold processBatch.
  destruct (isProcessing u || negb (hasPendingUpdates u)); [split; assumption|].
  split; [exact T|reflexivity].
Qed.

Lemma existsb_eqb_single (t t0 : nat) :
  existsb (Nat.eqb t) [t0] = true -> t = t0.
Proof.
  simpl. rewrite orb_false_r. apply Nat.eqb_eq.
Qed.

Lemma step_updaterInv (u : Updater) (e : Event) :
  updaterInv u -> updaterInv (step u e).
Proof.
  intros I. destruct e as [path content|command|t now batchId|now batchId|s]; simpl.
  - apply scheduleUpdate_inv. exact I.
  - apply scheduleUpdate_inv. exact I.
  - unfold timerFires. destruct (existsb (Nat.eqb t) (pendingTimers u)) eqn:E;
      [|exact I].
    apply processBatch_inv. destruct I as [T P]. split; [|exact P]. left. simpl.
    destruct T as [T|(t0 & T1 & T2)]; [rewrite T; reflexivity|].
    rewrite T2 in E |- *. apply existsb_eqb_single in E. subst t0.
    simpl. rewrite Nat.eqb_refl. reflexivity.
  - unfold flush. apply processBatch_inv. destruct I as [T P].
    destruct (timeoutId u) as [t|] eqn:Et.
    + split; [|exact P]. left. simpl.
      destruct T as [T|(t0 & T1 & T2)]; [rewrite T; reflexivity|].
      injection T1 as <-. rewrite T2. simpl. rewrite Nat.eqb_refl. reflexivity.
    + split; [|exact P]. left.
      destruct T as [T|(t0 & T1 & T2)]; [exact T|discriminate].
  - unfold settle. destruct (awaited u) as [b|] eqn:Ea; [|exact I].
    destruct I as [T P]. split; [exact T|reflexivity].
Qed.

Lemma run_updaterInv (events : list Event) :
  forall u, updaterInv u -> updaterInv (run u events).
Proof.
  induction events as [|e events IH]; intros u I; [exact I|].
  simpl. apply IH, step_updaterInv, I.
Qed.

Lemma newUpdater_inv : updaterInv newUpdater.
Proof. split; [left; reflexivity|reflexivity]. Qed.

(** X20: in every state reached from a new updater at most one timer
    is pending, and it is the one of [timeoutId] (every addition
    replaces the timer of the one before); and [isProcessing] is set
    exactly while the handler of a batch is awaited, so that a second
    batch is never handed before the first one has settled. *)
Theorem X20_one_timer_and_one_handler_at_a_time (events : list Event) :
  let u := run newUpdater events in
  (pendingTimers u = [] \/
   exists t, timeoutId u = Some t /\ pendingTimers u = [t]) /\
  (isProcessing u = true <-> awaited u <> None) /\
  (forall e, awaited u <> None ->
             handed (step u e) = handed u).
Proof.
  intros u. pose proof (run_updaterInv events _ newUpdater_inv) as [T P].
  fold u in T, P. split; [exact T|]. split.
  - rewrite P. destruct (awaited u); split; congruence.
  - intros e Ha.
    assert (Ip : isProcessing u = true)
      by (rewrite P; destruct (awaited u); [reflexivity|congruence]).
    destruct e as [path content|command|t now batchId|now batchId|s]; simpl;
      try reflexivity.
    + unfold timerFires. destruct (existsb _ _); [|reflexivity].
      unfold processBatch. simpl. rewrite Ip. reflexivity.
    + unfold flush, processBatch.
      destruct (timeoutId u); simpl; rewrite Ip; reflexivity.
    + unfold settle. destruct (awaited u); reflexivity.
Qed.

Lemma step_commands (u : Updater) (e : Event) :
  concat (map commands (handed (step u e))) ++ pendingCommands (step u e)
  = (concat (map commands (handed u)) ++ pendingCommands u) ++ addedCommands [e].
Proof.
  assert (B : forall now batchId v,
             concat (map commands (handed (processBatch now batchId v)))
             ++ pendingCommands (processBatch now batchId v)
             = concat (map commands (handed v)) ++ pendingCommands v).
  { intros now batchId v. unfold processBatch.
    destruct (isProcessing v || negb (hasPendingUpdates v)); [reflexivity|].
    simpl. rewrite map_app, concat_app. simpl. rewrite !app_nil_r. reflexivity. }
  destruct e as [path content|command|t now batchId|now batchId|s]; simpl;
    rewrite ?app_nil_r.
  - reflexivity.
  - rewrite app_assoc. reflexivity.
  - unfold timerFires. destruct (existsb _ _); [|reflexivity]. rewrite B. reflexivity.
  - unfold flush. rewrite B. destruct (timeoutId u); reflexivity.
  - unfold settle. destruct (awaited u); reflexivity.
Qed.

Lemma addedCommands_cons (e : Event) (events : list Event) :
  addedCommands (e :: events) = addedCommands [e] ++ addedCommands events.
Proof. unfold addedCommands. simpl. rewrite app_nil_r. reflexivity. Qed.

Lemma run_commands (events : list Event) :
  forall u,
    concat (map commands (handed (run u events))) ++ pendingCommands (run u events)
    = (concat (map commands (handed u)) ++ pendingCommands u)
      ++ addedCommands events.
Proof.
  induction events as [|e events IH]; intros u.
  - simpl. rewrite app_nil_r. reflexivity.
  - rewrite addedCommands_cons.
    change (run u (e :: events)) with (run (step u e) events).
    rewrite IH, step_commands, <- !app_assoc. reflexivity.
Qed.

(** X21: no command is lost, doubled or put out of order: the commands
    of the batches handed to the handler, batch after batch, followed
    by the pending commands, are the commands added, in the order of
    the [addCommand] calls. *)
Theorem X21_commands_are_handed_once_in_order (events : list Event) :
  let u := run newUpdater events in
  concat (map commands (handed u)) ++ pendingCommands u = addedCommands events.
Proof. intros u. subst u. rewrite run_commands. reflexivity. Qed.





(** X23: a timer that fires while the handler of a batch is awaited
    hands nothing and keeps what is pending, but it is spent: once the
    handler has settled, the updates still pending have no timer left
    and wait for the next addition or [flush]. *)
Theorem X23_timer_during_a_handler_is_spent
  (events : list Event) (t now : nat) (batchId : string) (s : Settlement) :
  let u := run newUpdater events in
  awaited u <> None ->
  In t (pendingTimers u) ->
  let u' := step (step u (TimerFires t now batchId)) (HandlerSettles s) in
  handed u' = handed u /\
  pendingFiles u' = pendingFiles u /\
  pendingCommands u' = pendingCommands u /\
  isProcessing u' = false /\
  pendingTimers u' = [].
Proof.
  intros u Ha Hin.
  pose proof (run_updaterInv events _ newUpdater_inv) as [T P]. fold u in T, P.
  assert (Ip : isProcessing u = true)
    by (rewrite P; destruct (awaited u); [reflexivity|congruence]).
  destruct (awaited u) as [b|] eqn:Eb; [|congruence].
  destruct T as [T|(t0 & T1 & T2)]; [rewrite T in Hin; destruct Hin|].
  rewrite T2 in Hin. destruct Hin as [<-|[]].
  simpl. unfold timerFires. rewrite T2. simpl. rewrite Nat.eqb_refl. simpl.
  unfold processBatch. simpl. rewrite Ip. simpl.
  unfold settle. simpl. rewrite Eb. simpl. repeat split; reflexivity.
Qed.

Lemma X23_timer_during_a_handler_is_spent_witness :
  let u := run newUpdater [AddFile "/a.js" "1"; TimerFires 0 10 "batch_1";
                           AddCommand "npm install"] in
  let u' := step (step u (TimerFires 1 20 "batch_2")) (HandlerSettles Resolves) in
  handed u' = handed u /\
  pendingFiles u' = pendingFiles u /\
  pendingCommands u' = pendingCommands u /\
  isProcessing u' = false /\
  pendingTimers u' = [].
Proof.
  apply (X23_timer_during_a_handler_is_spent
           [AddFile "/a.js" "1"; TimerFires 0 10 "batch_1";
            AddCommand "npm install"] 1 20 "batch_2" Resolves).
  - vm_compute. discriminate.
  - vm_compute. left. reflexivity.
Defined.

End BatcherExtras.

(** ** The file store: the count of files, locks, deleted paths,
    modifications *)

Section StoreExtras.
Import FileStore.

Lemma filter_isFile_lookup (files : FileMap) (path : string) :
  is_Some (filter (fun kv => isFile kv.2 = true) files !! path)
  <-> holdsFile files path = true.
Proof.
  unfold holdsFile, is_Some. setoid_rewrite map_lookup_filter_Some. simpl.
  destruct (files !! path) as [[f|d]|]; split.
  - reflexivity.
  - intros _. eexists. split; reflexivity.
  - intros (x & [= <-] & H). discriminate H.
  - discriminate.
  - intros (x & H & _). discriminate H.
  - discriminate.
Qed.

Lemma countFiles_insert (path : string) (entry : Dirent) (files : FileMap) :
  countFiles (<[path := entry]> files) + (if holdsFile files path then 1 else 0)
  = countFiles files + (if isFile entry then 1 else 0).
Proof.
  unfold countFiles. pose proof (filter_isFile_lookup files path) as L.
  destruct (isFile entry) eqn:E.
  - rewrite map_filter_insert_True by exact E. rewrite map_size_insert.
    destruct (holdsFile files path) eqn:Eh.
    + destruct (proj2 L eq_refl) as [x ->]. simpl. lia.
    + destruct (filter _ files !! path) eqn:F;
        [pose proof (proj1 L (ex_intro _ _ eq_refl)); congruence|simpl; lia].
  - rewrite map_filter_insert_False by (simpl; congruence).
    rewrite map_filter_delete, map_size_delete.
    destruct (holdsFile files path) eqn:Eh.
    + destruct (proj2 L eq_refl) as [x Hx]. rewrite Hx.
      assert (size (filter (fun kv => isFile kv.2 = true) files) <> 0).
      { apply map_size_ne_0_lookup_2 with path. eexists. exact Hx. }
      simpl. lia.
    + destruct (filter _ files !! path) eqn:F;
        [pose proof (proj1 L (ex_intro _ _ eq_refl)); congruence|simpl; lia].
Qed.

Lemma countFiles_delete (path : string) (files : FileMap) :
  countFiles (delete path files) + (if holdsFile files path then 1 else 0)
  = countFiles files.
Proof.
  unfold countFiles. pose proof (filter_isFile_lookup files path) as L.
  rewrite map_filter_delete, map_size_delete.
  destruct (holdsFile files path) eqn:Eh.
  - destruct (proj2 L eq_refl) as [x Hx]. rewrite Hx.
    assert (size (filter (fun kv => isFile kv.2 = true) files) <> 0).
    { apply map_size_ne_0_lookup_2 with path. eexists. exact Hx. }
    simpl. lia.
  - destruct (filter _ files !! path) eqn:F;
      [pose proof (proj1 L (ex_intro _ _ eq_refl)); congruence|simpl; lia].
Qed.

Lemma countFiles_imap (g : string -> Dirent -> Dirent) (files : FileMap) :
  (forall path entry, isFile (g path entry) = isFile entry) ->
  countFiles (map_imap (fun path entry => Some (g path entry)) files)
  = countFiles files.
Proof.
  intros H. unfold countFiles. rewrite <- !size_dom. f_equal.
  apply set_eq. intros path. rewrite !elem_of_dom.
  unfold is_Some. setoid_rewrite map_lookup_filter_Some.
  setoid_rewrite map_lookup_imap. simpl. split.
  - intros (x & Hx & Hf). destruct (files !! path) as [e|] eqn:L; [|discriminate].
    simpl in Hx. injection Hx as <-. rewrite H in Hf. eauto.
  - intros (x & Hx & Hf). rewrite Hx. simpl. exists (g path x).
    rewrite H. auto.
Qed.

Lemma size_filter_split {A : Type} (b : string -> bool) (m : gmap string A) :
  size (filter (fun kv => b kv.1 = true) m)
  + size (filter (fun kv => b kv.1 = false) m) = size m.
Proof.
  rewrite <- (map_filter_union_complement (fun kv => b kv.1 = true) m) at 3.
  rewrite map_size_disj_union by apply map_disjoint_filter_complement.
  f_equal. f_equal. apply map_filter_ext. intros i x _. simpl.
  destruct (b i); split; congruence.
Qed.

Lemma countFiles_split (b : string -> bool) (files : FileMap) :
  countFiles (filter (fun kv => b kv.1 = false) files)
  + size (filter (fun kv => isFile kv.2 = true)
            (filter (fun kv => b kv.1 = true) files))
  = countFiles files.
Proof.
  unfold countFiles.
  rewrite (map_filter_comm (fun kv => isFile kv.2 = true)
             (fun kv => b kv.1 = false)).
  rewrite (map_filter_comm (fun kv => isFile kv.2 = true)
             (fun kv => b kv.1 = true)).
  rewrite Nat.add_comm. apply size_filter_split.
Qed.


Lemma countFiles_lockFile (path : string) (files : FileMap) :
  countFiles (snd (lockFile path files)) = countFiles files /\
  countFiles (snd (unlockFile path files)) = countFiles files.
Proof.
  unfold lockFile, unlockFile.
  destruct (files !! path) as [[f|d]|] eqn:L; simpl; try (split; reflexivity).
  split.
  - pose proof (countFiles_insert path
                  (DFile (File.mk (File.content f) (File.isBinary f) (Some true)
                            (File.lockedByFolder f))) files) as H.
    unfold holdsFile in H. rewrite L in H. simpl in H. lia.
  - pose proof (countFiles_insert path
                  (DFile (File.mk (File.content f) (File.isBinary f) (Some false)
                            None)) files) as H.
    unfold holdsFile in H. rewrite L in H. simpl in H. lia.
Qed.

Lemma countFiles_lockFolder (path : string) (files : FileMap) :
  countFiles (snd (lockFolder path files)) = countFiles files /\
  countFiles (snd (unlockFolder path files)) = countFiles files.
Proof.
  unfold lockFolder, unlockFolder.
  destruct (files !! path) as [[f|d]|] eqn:L; simpl; try (split; reflexivity).
  split.
  - rewrite countFiles_imap.
    + pose proof (countFiles_insert path
                    (DFolder (Folder.mk (Some true) (Folder.lockedByFolder d)))
                    files) as H.
      unfold holdsFile in H. rewrite L in H. simpl in H. lia.
    + intros p [file|folder]; simpl; [|reflexivity].
      destruct (startsWith p (path +:+ "/")); reflexivity.
  - rewrite countFiles_imap.
    + pose proof (countFiles_insert path
                    (DFolder (Folder.mk (Some false) (Folder.lockedByFolder d)))
                    files) as H.
      unfold holdsFile in H. rewrite L in H. simpl in H. lia.
    + intros p [file|folder]; simpl; [|reflexivity].
      destruct (startsWith p (path +:+ "/")); [|reflexivity].
      destruct (decide _); reflexivity.
Qed.

(** X24: [filesCount] against the number of files in [files]: [setFiles]
    and [reset] make them equal; [createFile] on a path that holds a
    file, and [createFolder] on a path that holds a file, leave
    [filesCount] one more above the number of files than it was; every
    other call keeps the difference.  So [filesCount] is the number of
    files as long as nothing is created over a file. *)
Theorem X24_filesCount_against_the_files (s : Store.t) (op : Store.Op) :
  drift (Store.step s op)
  = match op with
    | Store.SetFiles _ | Store.Reset => 0%Z
    | Store.CreateFile path _ | Store.CreateFolder path =>
        (drift s + (if holdsFile (Store.files s) path then 1 else 0))%Z
    | _ => drift s
    end.
Proof.
  unfold drift. destruct op as [newFiles|p c|p c|p|p|p| |p|p|p|p| |]; simpl.
  - lia.
  - unfold Store.updateFile.
    destruct (Store.files s !! p) as [[f|d]|] eqn:L; try reflexivity. simpl.
    pose proof (countFiles_insert p
                  (DFile (File.mk c (File.isBinary f) (File.isLocked f)
                            (File.lockedByFolder f))) (Store.files s)) as H.
    unfold holdsFile in H. rewrite L in H. simpl in H. lia.
  - pose proof (countFiles_insert p (DFile (File.mk c false (Some false) None))
                  (Store.files s)) as H.
    unfold createFile. simpl in H.
    destruct (holdsFile (Store.files s) p); lia.
  - unfold Store.deleteFile.
    destruct (Store.files s !! p) as [[f|d]|] eqn:L; try reflexivity. simpl.
    pose proof (countFiles_delete p (Store.files s)) as H.
    unfold holdsFile in H. rewrite L in H. lia.
  - pose proof (countFiles_insert p (DFolder (Folder.mk (Some false) None))
                  (Store.files s)) as H.
    unfold createFolder. simpl in H.
    destruct (holdsFile (Store.files s) p); lia.
  - unfold Store.deleteFolder.
    destruct (Store.files s !! p) as [[f|d]|] eqn:L; try reflexivity. simpl.
    pose proof (countFiles_split (under p) (Store.files s)) as H. lia.
  - reflexivity.
  - unfold Store.lockFile, Store.onFiles.
    pose proof (proj1 (countFiles_lockFile p (Store.files s))) as H.
    destruct (lockFile p (Store.files s)) as [ok files']. simpl in *. lia.
  - unfold Store.unlockFile, Store.onFiles.
    pose proof (proj2 (countFiles_lockFile p (Store.files s))) as H.
    destruct (unlockFile p (Store.files s)) as [ok files']. simpl in *. lia.
  - unfold Store.lockFolder, Store.onFiles.
    pose proof (proj1 (countFiles_lockFolder p (Store.files s))) as H.
    destruct (lockFolder p (Store.files s)) as [ok files']. simpl in *. lia.
  - unfold Store.unlockFolder, Store.onFiles.
    pose proof (proj2 (countFiles_lockFolder p (Store.files s))) as H.
    destruct (unlockFolder p (Store.files s)) as [ok files']. simpl in *. lia.
  - unfold Store.cleanupDeletedFiles.
    destruct (bool_decide (Store.deletedPaths s = ∅)); [reflexivity|].
    destruct (bool_decide (_ = ∅)); [reflexivity|]. simpl.
    pose proof (countFiles_split (doomed (Store.deletedPaths s)) (Store.files s))
      as H. lia.
  - unfold countFiles. rewrite map_filter_empty, map_size_empty. reflexivity.
Qed.


Lemma sameData_onFiles (f : FileMap -> bool * FileMap) (s : Store.t) :
  (forall path, payload <$> snd (f (Store.files s)) !! path
                = payload <$> Store.files s !! path) ->
  sameData s (snd (Store.onFiles f s)).
Proof.
  intros H. unfold Store.onFiles.
  destruct (f (Store.files s)) as [ok files'] eqn:E. simpl in *.
  split; [exact H|]. repeat (split; [reflexivity|]).
  unfold Store.getFileModifications. simpl.
  apply map_imap_ext. intros path. specialize (H path).
  destruct (Store.modifiedFiles s !! path) as [original|]; [|reflexivity].
  simpl. f_equal.
  destruct (files' !! path) as [[f1|d1]|], (Store.files s !! path) as [[f2|d2]|];
    simpl in H; try discriminate; try reflexivity.
  injection H as -> _. reflexivity.
Qed.

Lemma payload_insert (path other : string) (entry old : Dirent) (files : FileMap) :
  files !! path = Some old -> payload entry = payload old ->
  payload <$> <[path := entry]> files !! other = payload <$> files !! other.
Proof.
  intros L P. destruct (decide (path = other)) as [<-|Hne].
  - rewrite lookup_insert_eq, L. simpl. rewrite P. reflexivity.
  - rewrite lookup_insert_ne by exact Hne. reflexivity.
Qed.

Lemma payload_imap (g : string -> Dirent -> Dirent) (files : FileMap)
  (other : string) :
  (forall path entry, payload (g path entry) = payload entry) ->
  payload <$> map_imap (fun path entry => Some (g path entry)) files !! other
  = payload <$> files !! other.
Proof.
  intros H. rewrite map_lookup_imap.
  destruct (files !! other) as [e|]; simpl; [rewrite H|]; reflexivity.
Qed.

(** X25: the four lock functions change the lock fields only: every
    path keeps its kind, every file its content, and [filesCount],
    [modifiedFiles], [deletedPaths] and what [getFileModifications]
    reports stay as they are. *)
Theorem X25_locks_change_no_data (s : Store.t) (path : string) :
  sameData s (snd (Store.lockFile path s)) /\
  sameData s (snd (Store.unlockFile path s)) /\
  sameData s (snd (Store.lockFolder path s)) /\
  sameData s (snd (Store.unlockFolder path s)).
Proof.
  split; [|split; [|split]]; apply sameData_onFiles; intros other.
  - unfold lockFile. destruct (Store.files s !! path) as [[f|d]|] eqn:L;
      try reflexivity.
    simpl. apply (payload_insert _ _ _ _ _ L). reflexivity.
  - unfold unlockFile. destruct (Store.files s !! path) as [[f|d]|] eqn:L;
      try reflexivity.
    simpl. apply (payload_insert _ _ _ _ _ L). reflexivity.
  - unfold lockFolder. destruct (Store.files s !! path) as [[f|d]|] eqn:L;
      try reflexivity.
    simpl. rewrite payload_imap.
    + apply (payload_insert _ _ _ _ _ L). reflexivity.
    + intros p [file|folder]; simpl; [|reflexivity].
      destruct (startsWith p (path +:+ "/")); reflexivity.
  - unfold unlockFolder. destruct (Store.files s !! path) as [[f|d]|] eqn:L;
      try reflexivity.
    simpl. rewrite payload_imap.
    + apply (payload_insert _ _ _ _ _ L). reflexivity.
    + intros p [file|folder]; simpl; [|reflexivity].
      destruct (startsWith p (path +:+ "/")); [|reflexivity].
      destruct (decide _); reflexivity.
Qed.

(** X26: [lockFolder] on a folder marks the folder and every file
    whose path starts with the folder path and a slash: [isFileLocked]
    then reports the file as locked by the folder.  Every other entry,
    the folders below the folder among them, is left as it is. *)
Theorem X26_lockFolder_locks_the_files_below
  (folderPath path : string) (files : FileMap) (folder : Folder.t)
  (file : File.t) :
  files !! folderPath = Some (DFolder folder) ->
  files !! path = Some (DFile file) ->
  startsWith path (folderPath +:+ "/") = true ->
  let files' := snd (lockFolder folderPath files) in
  fst (lockFolder folderPath files) = true /\
  isFileLocked path files'
  = (true, Some (if isEmpty folderPath then path else folderPath)) /\
  isFolderLocked folderPath files' = (true, Some folderPath) /\
  (forall other entry,
      files !! other = Some entry ->
      other <> folderPath ->
      isFile entry = false \/ startsWith other (folderPath +:+ "/") = false ->
      files' !! other = Some entry).
Proof.
  intros Hf Hp Hs files'. subst files'.
  pose proof (under_folder_differs _ _ Hs) as Hne.
  split; [unfold lockFolder; rewrite Hf; reflexivity|]. split; [|split].
  - unfold isFileLocked. rewrite (lockFolder_lookup _ _ _ _ Hf Hne), Hp.
    simpl. rewrite Hs. reflexivity.
  - unfold isFolderLocked. rewrite (lockFolder_folder _ _ _ Hf). reflexivity.
  - intros other entry Ho Hd Hk.
    rewrite (lockFolder_lookup _ _ _ _ Hf (not_eq_sym Hd)), Ho. simpl.
    destruct entry as [f|d]; [|reflexivity]. simpl.
    destruct Hk as [Hk|Hk]; [discriminate|]. rewrite Hk. reflexivity.
Qed.

Lemma X26_lockFolder_locks_the_files_below_witness :
  isFileLocked "/src/b.js" (snd (lockFolder "/src" sampleFiles))
  = (true, Some "/src").
Proof.
  apply (X26_lockFolder_locks_the_files_below "/src" "/src/b.js" sampleFiles
           (Folder.mk (Some false) None) (File.mk "x" false (Some false) None));
    vm_compute; reflexivity.
Defined.

Lemma doomed_empty (path : string) : doomed ∅ path = false.
Proof. unfold doomed. rewrite elements_empty. reflexivity. Qed.

Lemma cleanup_lookup (s : Store.t) (path : string) :
  Store.files (Store.cleanupDeletedFiles s) !! path
  = if doomed (Store.deletedPaths s) path then None else Store.files s !! path.
Proof.
  unfold Store.cleanupDeletedFiles.
  destruct (bool_decide (Store.deletedPaths s = ∅)) eqn:E1.
  { apply bool_decide_eq_true in E1. rewrite E1, doomed_empty. reflexivity. }
  destruct (bool_decide (filter _ (Store.files s) = ∅)) eqn:E2.
  { apply bool_decide_eq_true in E2.
    destruct (doomed (Store.deletedPaths s) path) eqn:D; [|reflexivity].
    destruct (Store.files s !! path) as [e|] eqn:L; [|reflexivity].
    exfalso. eapply (map_filter_empty_not_lookup _ _ path e E2); [exact D|exact L]. }
  simpl. destruct (doomed (Store.deletedPaths s) path) eqn:D.
  - apply map_lookup_filter_None_2. right. intros x _. simpl. congruence.
  - destruct (Store.files s !! path) as [e|] eqn:L.
    + apply map_lookup_filter_Some_2; [exact L|exact D].
    + apply map_lookup_filter_None_2. left. exact L.
Qed.

(** X27: after [cleanupDeletedFiles] no path of [files] is a deleted
    path or lies below one, and every other path is bound as before;
    a second [cleanupDeletedFiles] changes nothing. *)
Theorem X27_cleanup_removes_what_was_deleted (s : Store.t) :
  (forall path,
      Store.files (Store.cleanupDeletedFiles s) !! path
      = if doomed (Store.deletedPaths s) path then None
        else Store.files s !! path) /\
  Store.cleanupDeletedFiles (Store.cleanupDeletedFiles s)
  = Store.cleanupDeletedFiles s.
Proof.
  split; [apply cleanup_lookup|].
  pose proof (cleanup_lookup s) as L.
  assert (D : Store.deletedPaths (Store.cleanupDeletedFiles s)
              = Store.deletedPaths s).
  { unfold Store.cleanupDeletedFiles.
    destruct (bool_decide _); [reflexivity|].
    destruct (bool_decide _); reflexivity. }
  set (s' := Store.cleanupDeletedFiles s) in *.
  unfold Store.cleanupDeletedFiles at 1.
  destruct (bool_decide (Store.deletedPaths s' = ∅)); [reflexivity|].
  rewrite bool_decide_eq_true_2; [reflexivity|].
  apply map_eq. intros path. rewrite lookup_empty.
  apply map_lookup_filter_None_2.
  rewrite L, D. destruct (doomed (Store.deletedPaths s) path) eqn:E.
  - left. reflexivity.
  - right. intros x _. simpl. congruence.
Qed.

Lemma step_deletedPaths (s : Store.t) (op : Store.Op) :
  Store.deletedPaths s ⊆ Store.deletedPaths (Store.step s op) \/ op = Store.Reset.
Proof.
  destruct op as [newFiles|p c|p c|p|p|p| |p|p|p|p| |]; simpl;
    try (right; reflexivity); left; try reflexivity.
  - unfold Store.updateFile. destruct (Store.files s !! p) as [[f|d]|]; reflexivity.
  - unfold Store.deleteFile. destruct (Store.files s !! p) as [[f|d]|];
      try reflexivity. simpl. apply union_subseteq_r.
  - unfold Store.deleteFolder. destruct (Store.files s !! p) as [[f|d]|];
      try reflexivity. simpl. apply union_subseteq_r.
  - unfold Store.lockFile, Store.onFiles. destruct (lockFile _ _). reflexivity.
  - unfold Store.unlockFile, Store.onFiles. destruct (unlockFile _ _). reflexivity.
  - unfold Store.lockFolder, Store.onFiles. destruct (lockFolder _ _). reflexivity.
  - unfold Store.unlockFolder, Store.onFiles. destruct (unlockFolder _ _). reflexivity.
  - unfold Store.cleanupDeletedFiles.
    destruct (bool_decide _); [reflexivity|].
    destruct (bool_decide _); reflexivity.
Qed.

(** X28: a deleted path stays deleted: no call but [reset] takes a
    path out of [deletedPaths], so a file created again at the path of
    a deleted file, whatever is called in between, is removed by the
    next [cleanupDeletedFiles]. *)
Theorem X28_deleted_paths_are_not_forgotten
  (s : Store.t) (filePath content : string) (ops : list Store.Op) :
  holdsFile (Store.files s) filePath = true ->
  ~ In Store.Reset ops ->
  let s1 := fold_left Store.step ops (Store.deleteFile filePath s) in
  let s2 := Store.createFile filePath content s1 in
  filePath ∈ Store.deletedPaths s2 /\
  Store.getFile filePath s2
  = Some (File.mk content false (Some false) None) /\
  Store.getFile filePath (Store.cleanupDeletedFiles s2) = None.
Proof.
  intros Hf Hr s1 s2.
  assert (D0 : filePath ∈ Store.deletedPaths (Store.deleteFile filePath s)).
  { unfold Store.deleteFile, holdsFile in *.
    destruct (Store.files s !! filePath) as [[f|d]|]; try discriminate.
    simpl. apply elem_of_union. left. apply elem_of_singleton. reflexivity. }
  assert (D1 : filePath ∈ Store.deletedPaths s1).
  { subst s1. revert Hr D0. generalize (Store.deleteFile filePath s).
    induction ops as [|op ops IH]; intros s0 Hr D0; [exact D0|].
    simpl. apply IH.
    - intros H. apply Hr. right. exact H.
    - destruct (step_deletedPaths s0 op) as [H| ->]; [apply H, D0|].
      exfalso. apply Hr. left. reflexivity. }
  split; [exact D1|]. split.
  - unfold Store.getFile. subst s2. simpl. unfold createFile.
    rewrite lookup_insert_eq. reflexivity.
  - unfold Store.getFile. rewrite cleanup_lookup.
    assert (E : doomed (Store.deletedPaths s2) filePath = true).
    { unfold doomed. rewrite bool_decide_eq_true_2 by exact D1. reflexivity. }
    rewrite E. reflexivity.
Qed.

Lemma X28_deleted_paths_are_not_forgotten_witness :
  let s := Store.createFile "/a.js" "1" Store.initial in
  let s1 := fold_left Store.step [Store.CreateFolder "/src"]
              (Store.deleteFile "/a.js" s) in
  let s2 := Store.createFile "/a.js" "2" s1 in
  "/a.js" ∈ Store.deletedPaths s2 /\
  Store.getFile "/a.js" s2 = Some (File.mk "2" false (Some false) None) /\
  Store.getFile "/a.js" (Store.cleanupDeletedFiles s2) = None.
Proof.
  apply (X28_deleted_paths_are_not_forgotten
           (Store.createFile "/a.js" "1" Store.initial) "/a.js" "2"
           [Store.CreateFolder "/src"]).
  - vm_compute. reflexivity.
  - intros [H|[]]. discriminate H.
Defined.

(** X29: [modifiedFiles] keeps the content a file had before its first
    update: after two updates of a file that was not modified before,
    [getFileModifications] reports the file with that content as
    [original] and the last content as [current], and does not report
    it when the last content is the original one. *)
Theorem X29_modifications_keep_the_first_original
  (s : Store.t) (filePath c1 c2 : string) (file : File.t) :
  Store.files s !! filePath = Some (DFile file) ->
  Store.modifiedFiles s !! filePath = None ->
  let s2 := Store.updateFile filePath c2 (Store.updateFile filePath c1 s) in
  Store.getFileModifications s2 !! filePath
  = (if String.eqb c2 (File.content file) then None
     else Some (File.content file, c2)) /\
  option_map File.content (Store.getFile filePath s2) = Some c2.
Proof.
  intros Hf Hm s2. subst s2.
  assert (E1 : Store.updateFile filePath c1 s
               = Store.mk
                   (<[filePath := DFile (File.mk c1 (File.isBinary file)
                                           (File.isLocked file)
                                           (File.lockedByFolder file))]>
                      (Store.files s))
                   (Store.filesCount s)
                   (<[filePath := File.content file]> (Store.modifiedFiles s))
                   (Store.deletedPaths s)).
  { unfold Store.updateFile. rewrite Hf, Hm. reflexivity. }
  rewrite E1. unfold Store.updateFile. simpl. rewrite !lookup_insert_eq. simpl.
  unfold Store.getFileModifications, Store.getFile. simpl.
  rewrite map_lookup_imap, !lookup_insert_eq. simpl. split; reflexivity.
Qed.

Lemma X29_modifications_keep_the_first_original_witness :
  let s2 := Store.updateFile "/a.js" "1"
              (Store.updateFile "/a.js" "2"
                 (Store.setFiles (createFile "/a.js" "1" ∅) Store.initial)) in
  Store.getFileModifications s2 !! "/a.js" = None /\
  option_map File.content (Store.getFile "/a.js" s2) = Some "1".
Proof.
  apply (X29_modifications_keep_the_first_original
           (Store.setFiles (createFile "/a.js" "1" ∅) Store.initial)
           "/a.js" "2" "1" (File.mk "1" false (Some false) None));
    vm_compute; reflexivity.
Defined.

End StoreExtras.
